(** * SecureKit / PixelVault: the steganography engine and its front-end pages

    The programs formalised:

    - The React page [app/pixel_vault/page.js].  Its handlers
      [handleEncode] and [handleDecode] and the submit button guard are
      embedded from the JavaScript source as functions from a component
      state and a network outcome to the ordered trace of effects a
      handler performs: module [PixelVaultPage], properties in
      [PixelVaultPageFacts].  The rest of the page ([cn], [switchTab],
      [handleFileSelect], [checkCapacity], the button, the result
      panel) is in [PixelVaultControls], properties in
      [PixelVaultControlsFacts].

    - The embedding engine (bit packer, cryptographic layer, frame
      codec, carrier adapters, capacity planner, pipeline).  The Python
      engine behind the HTTP API is not among the sources, so its
      definitions are modelled from the specification, and every such
      definition says so: module [Engine], with the notions used to
      state its properties in [Laws], a runnable instance of its
      parameters in [Sample], and the properties in [EngineFacts].

    - The pages [app/phishy_wishy/page.js] and [app/qr_shield/page.js]
      and the component [components/Sidebar.js], embedded from the
      JavaScript source: modules [PhishyWishy], [QRShield] and
      [SidebarNav] over the strings and regular expressions of
      [JsStrings], properties in [JsStringsFacts], [PhishyWishyFacts],
      [QRShieldFacts] and [SidebarFacts]. *)

From Stdlib Require Import String Ascii Strings.Byte.
From Stdlib Require Import List ZArith Lia Bool Arith.
Import ListNotations.

Set Implicit Arguments.

(* ================================================================== *)
(** * Part I.  The PixelVault page (from the JavaScript source)        *)
(* ================================================================== *)

Module PixelVaultPage.

Local Open Scope string_scope.

(** [const API_BASE = "http://localhost:8000/api/pixelvault"]. *)
Definition API_BASE : string := "http://localhost:8000/api/pixelvault".

(** A browser [File] picked by the [<input type="file">]. *)
Record File := mkFile {
  file_name : string;
  file_type : string;
  file_bytes : list byte
}.

(** One [FormData] entry value: a string or a file. *)
Inductive FormValue :=
| FText (s : string)
| FFile (f : File).

(** [FormData]: entries in insertion order, duplicates kept. *)
Definition FormData := list (string * FormValue).

(** [formData.append(name, value)]. *)
Definition append (fd : FormData) (name : string) (v : FormValue) : FormData :=
  (fd ++ [(name, v)])%list.

(** [formData.has(name)]. *)
Definition has (fd : FormData) (name : string) : bool :=
  existsb (fun e => String.eqb (fst e) name) fd.

(** [formData.getAll(name)]. *)
Definition getAll (fd : FormData) (name : string) : list FormValue :=
  map snd (filter (fun e => String.eqb (fst e) name) fd).

(** The argument of [fetch(url, { method, body })]. *)
Record Request := mkRequest {
  req_url : string;
  req_method : string;
  req_body : FormData
}.

(** The component state: one field per [useState] hook. *)
Record State := mkState {
  activeTab : string;
  isLoading : bool;
  error : option string;
  capacity : option string;
  file : option File;
  preview : option string;
  message : string;
  password : string;
  resultImage : option string;
  resultMessage : option string
}.

(** The initial values passed to [useState]. *)
Definition initialState : State :=
  mkState "encode" false None None None None EmptyString EmptyString None None.

(** JavaScript truthiness of a string: only the empty string is falsy. *)
Definition truthy (s : string) : bool :=
  match s with EmptyString => false | String _ _ => true end.

(** [x || dflt] where [x] is a possibly missing string property. *)
Definition js_or (x : option string) (dflt : string) : string :=
  match x with
  | Some s => if truthy s then s else dflt
  | None => dflt
  end.

(** The settlement of an awaited promise. *)
Inductive Promise (A : Type) :=
| Resolves (a : A)
| Rejects (err_message : string).
Arguments Rejects {A} err_message.

(** What the page observes of the [/encode] response: [res.ok], the
    [detail] property of [await res.json()], and the object URL made from
    [await res.blob()]. *)
Record EncodeResponse := mkEncodeResponse {
  enc_ok : bool;
  enc_json_detail : Promise (option string);
  enc_blob_url : Promise string
}.

(** The JSON body of the [/decode] response: [success], [error],
    [message]. *)
Record DecodeData := mkDecodeData {
  data_success : bool;
  data_error : option string;
  data_message : option string
}.

Record DecodeResponse := mkDecodeResponse {
  dec_ok : bool;
  dec_json : Promise DecodeData
}.

(** The effects a handler performs, in program order. *)
Inductive Effect :=
| SetIsLoading (b : bool)
| SetError (e : option string)
| SetResultImage (u : option string)
| SetResultMessage (m : option string)
| Fetch (r : Request).

(** The state setters applied to the component state. *)
Definition apply (st : State) (e : Effect) : State :=
  match e with
  | SetIsLoading b =>
      mkState (activeTab st) b (error st) (capacity st) (file st) (preview st)
              (message st) (password st) (resultImage st) (resultMessage st)
  | SetError x =>
      mkState (activeTab st) (isLoading st) x (capacity st) (file st) (preview st)
              (message st) (password st) (resultImage st) (resultMessage st)
  | SetResultImage u =>
      mkState (activeTab st) (isLoading st) (error st) (capacity st) (file st)
              (preview st) (message st) (password st) u (resultMessage st)
  | SetResultMessage m =>
      mkState (activeTab st) (isLoading st) (error st) (capacity st) (file st)
              (preview st) (message st) (password st) (resultImage st) m
  | Fetch _ => st
  end.

Definition run (st : State) (tr : list Effect) : State := fold_left apply tr st.

(** The requests a trace sends. *)
Fixpoint requests (tr : list Effect) : list Request :=
  match tr with
  | [] => []
  | Fetch r :: tr' => r :: requests tr'
  | _ :: tr' => requests tr'
  end.

(** The form built in the [try] block of [handleEncode]. *)
Definition encodeForm (f : File) (msg pw : string) : FormData :=
  let fd := append [] "image" (FFile f) in
  let fd := append fd "message" (FText msg) in
  if truthy pw then append fd "password" (FText pw) else fd.

(** The form built in the [try] block of [handleDecode]. *)
Definition decodeForm (f : File) (pw : string) : FormData :=
  let fd := append [] "image" (FFile f) in
  if truthy pw then append fd "password" (FText pw) else fd.

(** [handleEncode]: the guard, the two setters, the request, then the
    branch taken on the response; [catch] stores the error message and
    [finally] clears the loading flag. *)
Definition handleEncode (st : State) (net : Promise EncodeResponse) : list Effect :=
  match file st with
  | None => []
  | Some f =>
      if negb (truthy (message st)) then []
      else
        ([SetIsLoading true; SetError None;
          Fetch (mkRequest (API_BASE ++ "/encode") "POST"
                           (encodeForm f (message st) (password st)))]
        ++ match net with
           | Rejects m => [SetError (Some m)]
           | Resolves res =>
               if negb (enc_ok res) then
                 match enc_json_detail res with
                 | Rejects m => [SetError (Some m)]
                 | Resolves d => [SetError (Some (js_or d "Encoding failed"))]
                 end
               else
                 match enc_blob_url res with
                 | Rejects m => [SetError (Some m)]
                 | Resolves url => [SetResultImage (Some url)]
                 end
           end
        ++ [SetIsLoading false])%list
  end.

(** [handleDecode]. *)
Definition handleDecode (st : State) (net : Promise DecodeResponse) : list Effect :=
  match file st with
  | None => []
  | Some f =>
      ([SetIsLoading true; SetError None; SetResultMessage None;
        Fetch (mkRequest (API_BASE ++ "/decode") "POST"
                         (decodeForm f (password st)))]
      ++ match net with
         | Rejects m => [SetError (Some m)]
         | Resolves res =>
             match dec_json res with
             | Rejects m => [SetError (Some m)]
             | Resolves data =>
                 if negb (dec_ok res) || negb (data_success data) then
                   [SetError (Some (js_or (data_error data)
                                          "Decryption failed. Check your password."))]
                 else [SetResultMessage (data_message data)]
             end
         end
      ++ [SetIsLoading false])%list
  end.

(** The [disabled] attribute of the submit [<button>]:
    [disabled || loading] with
    [disabled = !file || (activeTab === "encode" && !message)] and
    [loading = isLoading]. *)
Definition buttonDisabled (st : State) : bool :=
  (match file st with None => true | Some _ => false end
   || (String.eqb (activeTab st) "encode" && negb (truthy (message st))))
  || isLoading st.

(** Is a state setter for the loading or the error flag? *)
Definition touchesLoadingOrError (e : Effect) : bool :=
  match e with
  | SetIsLoading _ | SetError _ => true
  | _ => false
  end.

(** ** Notions and sample states for the properties below *)

(** A request is sent by the page when one of the two handlers issues it
    from the given state, whatever the network answers. *)
Definition sent (st : State) (r : Request) : Prop :=
  (exists net, In (Fetch r) (handleEncode st net))
  \/ (exists net, In (Fetch r) (handleDecode st net)).

(** A state with a file, a message and a password, and the same state
    with the password field left empty. *)
Definition photo : File := mkFile "photo.png" "image/png" [].

Definition filled : State :=
  mkState "encode" false None None (Some photo) None "Hello" "Pass123" None None.

Definition unlocked : State :=
  mkState "decode" false None None (Some photo) None EmptyString EmptyString None None.

End PixelVaultPage.

(* ================================================================== *)
(** * Part II.  The embedding engine                                   *)
(* ================================================================== *)

Module Engine.

(** ** Errors and results *)

(** Modelled from the spec: the engine's error taxonomy (section 7) with
    the bit packer's [TruncatedDataError] (section 4.1).  The engine
    rejects an empty payload during validation without the specification
    naming the error; [EmptyPayloadError] stands for it.  Carriers are
    modelled after the image codec has decoded them, so
    [UnsupportedCarrierError], raised on the file type, is never produced
    below. *)
Inductive Error :=
| InsufficientCapacityError
| UnknownFormatError
| TerminatorNotFoundError
| PasswordRequiredError
| AuthenticationError
| UnsupportedCarrierError
| TruncatedDataError
| EmptyPayloadError.

Inductive result (A : Type) :=
| Ok (a : A)
| Err (e : Error).
Arguments Err {A} e.

(** ** Carrier families and parameters *)

Inductive Family := PixelFamily | CoefficientFamily.

(** Modelled from the spec: what the specification names without fixing
    it.  [terminator] is the reserved end-of-data byte sequence of a
    family; [deriveKey] is PBKDF2-HMAC-SHA256 (100,000 iterations, 32
    bytes); [aes_cbc_encrypt] and [aes_cbc_decrypt] are AES-256 in CBC
    mode on already padded data, taking key and iv; [coef_min] and
    [coef_max] bound the valid range of a quantized coefficient. *)
Class Params := {
  terminator : Family -> list byte;
  deriveKey : list byte -> list byte -> list byte;
  aes_cbc_encrypt : list byte -> list byte -> list byte -> list byte;
  aes_cbc_decrypt : list byte -> list byte -> list byte -> list byte;
  coef_min : Z;
  coef_max : Z
}.

(** The contract of the block cipher the round trip relies on: on data
    made of whole 16-byte blocks, decryption under the same key and iv
    undoes encryption. *)
Definition cipher_inverts (P : Params) : Prop :=
  forall key iv data,
    length data mod 16 = 0 ->
    aes_cbc_decrypt key iv (aes_cbc_encrypt key iv data) = data.

(** ** Bit Packer (section 4.1) *)

(** Modelled from the spec: the bits of one byte, most significant
    first. *)
Definition bits_of_byte (b : byte) : list bool :=
  let '(b0, (b1, (b2, (b3, (b4, (b5, (b6, b7))))))) := Byte.to_bits b in
  [b7; b6; b5; b4; b3; b2; b1; b0].

(** Modelled from the spec: [bitsOf(bytes)], most-significant-bit first
    per byte. *)
Definition bitsOf (bs : list byte) : list bool := flat_map bits_of_byte bs.

(** Modelled from the spec: [bytesOf(bits)], failing with
    [TruncatedDataError] when the bit count is not a multiple of 8. *)
Fixpoint bytesOf (bits : list bool) : result (list byte) :=
  match bits with
  | [] => Ok []
  | b7 :: b6 :: b5 :: b4 :: b3 :: b2 :: b1 :: b0 :: rest =>
      match bytesOf rest with
      | Ok bs => Ok (Byte.of_bits (b0, (b1, (b2, (b3, (b4, (b5, (b6, b7))))))) :: bs)
      | Err e => Err e
      end
  | _ => Err TruncatedDataError
  end.

(** Modelled from the spec: the bytes a reader obtains from the extracted
    bit stream, eight bits at a time; bits after the last whole byte
    never form a byte. *)
Fixpoint whole_bytes (bits : list bool) : list byte :=
  match bits with
  | b7 :: b6 :: b5 :: b4 :: b3 :: b2 :: b1 :: b0 :: rest =>
      Byte.of_bits (b0, (b1, (b2, (b3, (b4, (b5, (b6, b7))))))) :: whole_bytes rest
  | _ => []
  end.

(** ** Cryptographic Layer (section 4.2) *)

Definition block_size : nat := 16.

Definition byte_of_nat (n : nat) : byte :=
  match Byte.of_nat n with Some b => b | None => x00 end.

(** Modelled from the spec: PKCS#7 padding to a multiple of the cipher
    block size; between 1 and 16 bytes are always added. *)
Definition pkcs7_pad (data : list byte) : list byte :=
  let n := block_size - length data mod block_size in
  data ++ repeat (byte_of_nat n) n.

(** Modelled from the spec: PKCS#7 unpadding; [None] when the padding
    bytes are invalid. *)
Definition pkcs7_unpad (data : list byte) : option (list byte) :=
  match rev data with
  | [] => None
  | b :: _ =>
      let n := Byte.to_nat b in
      if (1 <=? n) && (n <=? block_size) && (n <=? length data)
         && forallb (Byte.eqb b) (skipn (length data - n) data)
      then Some (firstn (length data - n) data)
      else None
  end.

(** Modelled from the spec: the system's secure random source, as a
    stream of bytes with a read position. *)
Record Rng := mkRng {
  rng_stream : nat -> byte;
  rng_pos : nat
}.

Definition random_bytes (n : nat) (g : Rng) : list byte * Rng :=
  (map (rng_stream g) (seq (rng_pos g) n), mkRng (rng_stream g) (rng_pos g + n)).

(** Modelled from the spec: a password is [bytes|empty]; the empty byte
    string is the absent password. *)
Definition absent (password : list byte) : bool :=
  match password with [] => true | _ :: _ => false end.

Section Crypto.
Context {P : Params}.

(** Modelled from the spec: [encrypt(plaintext, password)] draws a fresh
    16-byte salt and a fresh 16-byte iv, derives the key, pads and
    encrypts; it returns [(salt, iv, ciphertext)] and the advanced random
    source. *)
Definition encrypt (plaintext password : list byte) (g : Rng)
  : (list byte * list byte * list byte) * Rng :=
  let (salt, g1) := random_bytes 16 g in
  let (iv, g2) := random_bytes 16 g1 in
  let key := deriveKey password salt in
  ((salt, iv, aes_cbc_encrypt key iv (pkcs7_pad plaintext)), g2).

(** Modelled from the spec: [decrypt(salt, iv, ciphertext, password)]
    derives the key, decrypts and strips the padding, failing with
    [AuthenticationError] when the padding bytes are invalid. *)
Definition decrypt (salt iv ciphertext password : list byte) : result (list byte) :=
  let key := deriveKey password salt in
  match pkcs7_unpad (aes_cbc_decrypt key iv ciphertext) with
  | Some plaintext => Ok plaintext
  | None => Err AuthenticationError
  end.

End Crypto.

(** ** Frame Codec (section 4.3) *)

Definition bytes (s : string) : list byte := list_byte_of_string s.

(** Modelled from the spec: the ASCII tag
    ["<FAMILY>:<MAJOR>.<MINOR>:<E|P>|"], [PV] for pixel carriers and
    [JPG] for coefficient carriers, version [1.0]. *)
Definition tag (fam : Family) (encrypted : bool) : list byte :=
  bytes (match fam, encrypted with
         | PixelFamily, true => "PV:1.0:E|"
         | PixelFamily, false => "PV:1.0:P|"
         | CoefficientFamily, true => "JPG:1.0:E|"
         | CoefficientFamily, false => "JPG:1.0:P|"
         end).

(** The fixed tag length of a family. *)
Definition tag_length (fam : Family) : nat := length (tag fam false).

Definition bytes_eqb (a b : list byte) : bool :=
  if list_eq_dec Byte.byte_eq_dec a b then true else false.

(** Does [l] begin with [pat]? *)
Fixpoint starts_with (pat l : list byte) : bool :=
  match pat, l with
  | [], _ => true
  | _ :: _, [] => false
  | p :: pat', x :: l' => Byte.eqb p x && starts_with pat' l'
  end.

(** Modelled from the spec: read until the terminator pattern is
    matched; the bytes before its first occurrence are returned, [None]
    when the stream is exhausted first. *)
Fixpoint scan (term l : list byte) : option (list byte) :=
  if starts_with term l then Some []
  else match l with
       | [] => None
       | x :: l' => option_map (cons x) (scan term l')
       end.

Section Frame.
Context {P : Params}.

(** Modelled from the spec: [frame] prepends the tag and appends the
    terminator. *)
Definition frame (inner : list byte) (encrypted : bool) (fam : Family) : list byte :=
  tag fam encrypted ++ inner ++ terminator fam.

(** Modelled from the spec: [unframe] reads the fixed-length tag, fails
    with [UnknownFormatError] when it is not one of the family's two
    tags, then reads until the terminator, failing with
    [TerminatorNotFoundError] when the carrier is exhausted first. *)
Definition unframe (bits : list bool) (fam : Family) : result (bool * list byte) :=
  let stream := whole_bytes bits in
  let head := firstn (tag_length fam) stream in
  let body := skipn (tag_length fam) stream in
  if bytes_eqb head (tag fam true) then
    match scan (terminator fam) body with
    | Some inner => Ok (true, inner)
    | None => Err TerminatorNotFoundError
    end
  else if bytes_eqb head (tag fam false) then
    match scan (terminator fam) body with
    | Some inner => Ok (false, inner)
    | None => Err TerminatorNotFoundError
    end
  else Err UnknownFormatError.

(** Modelled from the spec: the overhead in bytes, tag length plus
    terminator length plus 32 bytes when encryption is requested. *)
Definition overhead_bytes (fam : Family) (encrypted : bool) : nat :=
  tag_length fam + length (terminator fam) + (if encrypted then 32 else 0).

End Frame.

(** ** Carrier Adapter (section 4.4) *)

(** Modelled from the spec: an embeddable unit carries one payload bit in
    its least significant bit. *)
Definition lsb (v : Z) : bool := Z.testbit v 0.

(** Modelled from the spec: write the payload bit into the least
    significant bit, leaving all other bits untouched. *)
Definition set_lsb (v : Z) (bit : bool) : Z :=
  Z.lor (Z.land v (Z.lnot 1)) (Z.b2z bit).

(** Modelled from the spec: the capability set of a carrier.  [units]
    enumerates the embeddable units in the carrier's fixed order, as
    references into the carrier; [unitValue] reads a unit and
    [setUnitBit] writes one bit into it. *)
Class Carrier (C : Type) := {
  unit_ref : Type;
  family : Family;
  units : C -> list unit_ref;
  unitValue : C -> unit_ref -> Z;
  setUnitBit : C -> unit_ref -> bool -> C
}.

(** Modelled from the spec: [length()], the number of embeddable
    units. *)
Definition unit_count {C} `{Carrier C} (c : C) : nat := length (units c).

(** Modelled from the spec: [capacity()], one bit per unit. *)
Definition capacity {C} `{Carrier C} (c : C) : nat := unit_count c.

(** Modelled from the spec: [unitAt(i)], the value of the [i]-th unit in
    enumeration order. *)
Definition unitAt {C} `{Carrier C} (c : C) (i : nat) : option Z :=
  option_map (unitValue c) (nth_error (units c) i).

(** [l] with [f] applied to the element at index [i]; out of range
    nothing changes. *)
Fixpoint upd {A} (l : list A) (i : nat) (f : A -> A) : list A :=
  match l, i with
  | [], _ => []
  | x :: l', O => f x :: l'
  | x :: l', S i' => x :: upd l' i' f
  end.

(** *** Pixel carriers *)

Record Pixel := mkPixel {
  red : Z;
  green : Z;
  blue : Z;
  alpha : Z
}.

Inductive Channel := R | G | B.

(** Modelled from the spec: the pixel carrier, a decoded pixel grid with
    rows from top to bottom and pixels from left to right. *)
Record PixelCarrier := mkPixelCarrier {
  rows : list (list Pixel)
}.

Definition black : Pixel := mkPixel 0 0 0 0.

Definition sample (p : Pixel) (ch : Channel) : Z :=
  match ch with R => red p | G => green p | B => blue p end.

Definition set_sample (ch : Channel) (f : Z -> Z) (p : Pixel) : Pixel :=
  match ch with
  | R => mkPixel (f (red p)) (green p) (blue p) (alpha p)
  | G => mkPixel (red p) (f (green p)) (blue p) (alpha p)
  | B => mkPixel (red p) (green p) (f (blue p)) (alpha p)
  end.

Definition PixelRef : Type := nat * nat * Channel.

Definition pixel_refs (y x : nat) : list PixelRef := [(y, x, R); (y, x, G); (y, x, B)].

Definition row_refs (y : nat) (row : list Pixel) : list PixelRef :=
  flat_map (pixel_refs y) (seq 0 (length row)).

(** Modelled from the spec: raster order, row-major, channels R, G, B,
    alpha skipped. *)
Definition pixel_units (c : PixelCarrier) : list PixelRef :=
  flat_map (fun y => row_refs y (nth y (rows c) [])) (seq 0 (length (rows c))).

(** Modelled from the spec: reading the sample a reference
    designates. *)
Definition pixel_value (c : PixelCarrier) (r : PixelRef) : Z :=
  let '(y, x, ch) := r in sample (nth x (nth y (rows c) []) black) ch.

(** Modelled from the spec: [setUnitBit] on a pixel carrier rewrites
    the least significant bit of the designated sample. *)
Definition pixel_set (c : PixelCarrier) (r : PixelRef) (bit : bool) : PixelCarrier :=
  let '(y, x, ch) := r in
  mkPixelCarrier
    (upd (rows c) y (fun row => upd row x (set_sample ch (fun v => set_lsb v bit)))).

#[export] Instance PixelCarrier_Carrier : Carrier PixelCarrier := {
  unit_ref := PixelRef;
  family := PixelFamily;
  units := pixel_units;
  unitValue := pixel_value;
  setUnitBit := pixel_set
}.

(** *** Coefficient carriers *)

(** Modelled from the spec: the coefficient carrier, the decoded
    quantized DCT coefficients, blocks in raster order, each block in
    block-scan order with the DC coefficient at index 0. *)
Record CoefficientCarrier := mkCoefficientCarrier {
  blocks : list (list Z)
}.

Definition CoefRef : Type := nat * nat.

Section Coefficients.
Context {P : Params}.

(** Modelled from the spec: a coefficient is embeddable when it is not
    zero and no value its least significant bit can be set to leaves the
    valid quantized range. *)
Definition embeddable (v : Z) : bool :=
  negb (v =? 0)%Z && (coef_min <=? set_lsb v false)%Z && (set_lsb v true <=? coef_max)%Z.

Definition coef (c : CoefficientCarrier) (i j : nat) : Z :=
  nth j (nth i (blocks c) []) 0%Z.

Definition block_refs (c : CoefficientCarrier) (i : nat) : list CoefRef :=
  map (fun j => (i, j))
      (filter (fun j => embeddable (coef c i j))
              (seq 1 (length (nth i (blocks c) []) - 1))).

(** Modelled from the spec: the non-zero AC coefficients, in block-scan
    order within a block, blocks in raster order. *)
Definition coef_units (c : CoefficientCarrier) : list CoefRef :=
  flat_map (block_refs c) (seq 0 (length (blocks c))).

(** Modelled from the spec: reading the coefficient a reference
    designates. *)
Definition coef_value (c : CoefficientCarrier) (r : CoefRef) : Z :=
  coef c (fst r) (snd r).

(** Modelled from the spec: [setUnitBit] on a coefficient carrier
    rewrites the least significant bit of the designated coefficient,
    the only mutation permitted. *)
Definition coef_set (c : CoefficientCarrier) (r : CoefRef) (bit : bool) : CoefficientCarrier :=
  mkCoefficientCarrier
    (upd (blocks c) (fst r) (fun blk => upd blk (snd r) (fun v => set_lsb v bit))).

#[export] Instance CoefficientCarrier_Carrier : Carrier CoefficientCarrier := {
  unit_ref := CoefRef;
  family := CoefficientFamily;
  units := coef_units;
  unitValue := coef_value;
  setUnitBit := coef_set
}.

End Coefficients.

(** ** Capacity Planner (section 4.5) *)

(** Modelled from the spec:
    [usable_bytes = floor(capacity / 8) - overhead_bytes]. *)
Definition plan {C} `{Carrier C} (c : C) (overhead : nat) : Z :=
  (Z.of_nat (capacity c / 8) - Z.of_nat overhead)%Z.

(** ** Embedding Pipeline (section 4.6) *)

(** Modelled from the spec: a pipeline step runs on the caller-owned
    carrier, which encode mutates in place, and either yields a value or
    fails terminally. *)
Definition Pipeline (C A : Type) : Type := C -> result A * C.

Definition ret {C A} (a : A) : Pipeline C A := fun c => (Ok a, c).

Definition fail {C A} (e : Error) : Pipeline C A := fun c => (Err e, c).

Definition bind {C A B} (m : Pipeline C A) (k : A -> Pipeline C B) : Pipeline C B :=
  fun c => match m c with
           | (Ok a, c') => k a c'
           | (Err e, c') => (Err e, c')
           end.

Definition inspect {C A} (f : C -> A) : Pipeline C A := fun c => (Ok (f c), c).

Definition mutate {C} (f : C -> C) : Pipeline C unit := fun c => (Ok tt, f c).

Notation "x <- m ;; k" := (bind m (fun x => k))
  (at level 61, m at next level, right associativity).
Notation "m ;;; k" := (bind m (fun _ => k))
  (at level 61, right associativity).

Section Pipeline.
Context {P : Params} {C : Type} {HC : Carrier C}.

(** Modelled from the spec: write each bit into successive units, in
    enumeration order.  The specification gives this stage no failure:
    bits left over when the units run out are not written. *)
Fixpoint write_bits (c : C) (refs : list unit_ref) (bits : list bool) : C :=
  match refs, bits with
  | r :: refs', b :: bits' => write_bits (setUnitBit c r b) refs' bits'
  | _, _ => c
  end.

(** Modelled from the spec: decode reads the least significant bit of
    every unit, in enumeration order. *)
Definition read_bits (c : C) : list bool :=
  map (fun r => lsb (unitValue c r)) (units c).

(** Modelled from the spec: validation, the payload must be
    non-empty. *)
Definition validate (message : list byte) : Pipeline C unit :=
  match message with
  | [] => fail EmptyPayloadError
  | _ :: _ => ret tt
  end.

(** Modelled from the spec: the capacity check, made before any
    mutation. *)
Definition usable_bytes (c : C) (encrypted : bool) : Z :=
  plan c (overhead_bytes family encrypted).

Definition check_capacity (message : list byte) (encrypted : bool) : Pipeline C unit :=
  usable <- inspect (fun c => usable_bytes c encrypted) ;;
  if (usable <? Z.of_nat (length message))%Z
  then fail InsufficientCapacityError
  else ret tt.

(** Modelled from the spec: the bytes placed between tag and
    terminator, the message, or [salt ++ iv ++ ciphertext] when a
    password is given. *)
Definition inner_bytes (message password : list byte) (g : Rng) : list byte :=
  if absent password then message
  else let '(salt, iv, ciphertext) := fst (encrypt message password g) in
       salt ++ iv ++ ciphertext.

(** Modelled from the spec: the frame encode embeds, with the
    encryption flag set when a password is given. *)
Definition framed_bytes (message password : list byte) (g : Rng) : list byte :=
  frame (inner_bytes message password g) (negb (absent password)) family.

(** Modelled from the spec: encode validates, checks the capacity,
    encrypts when a password is given, frames, packs to bits and writes
    them into the units. *)
Definition encode (message password : list byte) (g : Rng) : Pipeline C unit :=
  validate message ;;;
  check_capacity message (negb (absent password)) ;;;
  refs <- inspect units ;;
  mutate (fun c => write_bits c refs (bitsOf (framed_bytes message password g))).

(** Modelled from the spec: decode extracts the bits, unframes, and when
    the flag says encrypted requires a password and decrypts. *)
Definition decode (password : list byte) : Pipeline C (list byte) :=
  bits <- inspect read_bits ;;
  match unframe bits family with
  | Err e => fail e
  | Ok (true, inner) =>
      if absent password then fail PasswordRequiredError
      else match decrypt (firstn 16 inner) (firstn 16 (skipn 16 inner))
                         (skipn 32 inner) password with
           | Ok plaintext => ret plaintext
           | Err e => fail e
           end
  | Ok (false, inner) => ret inner
  end.

(** Modelled from the spec: the external interface of encode, a new
    carrier or an error. *)
Definition encode_carrier (c : C) (message password : list byte) (g : Rng) : result C :=
  match encode message password g c with
  | (Ok _, c') => Ok c'
  | (Err e, _) => Err e
  end.

(** Modelled from the spec: the external interface of decode, the
    message or an error. *)
Definition decode_carrier (c : C) (password : list byte) : result (list byte) :=
  fst (decode password c).

End Pipeline.

End Engine.

(* ================================================================== *)
(** * Part III.  Notions in which the properties are stated            *)
(* ================================================================== *)

Module Laws.
Import Engine.
Local Open Scope Z_scope.

(** The further contract of the block cipher: the ciphertext of whole
    blocks is as long as the plaintext. *)
Definition cipher_keeps_length (P : Params) : Prop :=
  forall key iv data,
    (length data mod 16 = 0)%nat ->
    length (aes_cbc_encrypt key iv data) = length data.

(** The number of padding bytes: between 1 and 16. *)
Definition pad_length (data : list byte) : nat := block_size - length data mod block_size.

(** The values of the units after the bits are written into them in
    order; units beyond the bits keep their value. *)
Fixpoint put_bits (vs : list Z) (bits : list bool) : list Z :=
  match vs, bits with
  | v :: vs', b :: bits' => set_lsb v b :: put_bits vs' bits'
  | _, _ => vs
  end.

(** A grid is a list of rows; [gupd] applies [f] to the cell in row [i],
    column [j]. *)
Definition cell {A} (g : list (list A)) (i j : nat) (d : A) : A := nth j (nth i g []) d.

Definition gupd {A} (g : list (list A)) (i j : nat) (f : A -> A) : list (list A) :=
  upd g i (fun row => upd row j f).

Definition in_grid {A} (g : list (list A)) (i j : nat) : Prop :=
  (i < length g)%nat /\ (j < length (nth i g []))%nat.

(** A reference is valid when it designates a cell of the grid. *)
Definition pixel_valid (c : PixelCarrier) (r : PixelRef) : Prop :=
  in_grid (rows c) (fst (fst r)) (snd (fst r)).

Definition coef_valid (c : CoefficientCarrier) (r : CoefRef) : Prop :=
  in_grid (blocks c) (fst r) (snd r).

Section Steady.
Context {P : Params}.

(** A coefficient carrier is steady when none of its embeddable
    coefficients equals 1: only such a coefficient can be zeroed by a
    write, which would drop it from the enumeration. *)
Definition coef_steady (c : CoefficientCarrier) : Prop :=
  forall r, In r (coef_units c) -> coef_value c r <> 1.

End Steady.

(** What the pipeline relies on: references designate distinct cells,
    [setUnitBit] rewrites the least significant bit of the designated
    cell and no other cell, and on a [steady] carrier writing a unit
    leaves the enumeration as it is. *)
Class CarrierLaws (C : Type) {HC : Carrier C} := {
  valid : C -> unit_ref -> Prop;
  steady : C -> Prop;
  ref_eq_dec : forall r r' : unit_ref, {r = r'} + {r <> r'};
  units_valid : forall c r, In r (units c) -> valid c r;
  units_NoDup : forall c, NoDup (units c);
  valid_setUnitBit : forall c r r' b, valid c r -> valid (setUnitBit c r' b) r;
  unitValue_same : forall c r b,
    valid c r -> unitValue (setUnitBit c r b) r = set_lsb (unitValue c r) b;
  unitValue_other : forall c r r' b,
    r <> r' -> unitValue (setUnitBit c r b) r' = unitValue c r';
  units_steady : forall c r b,
    steady c -> In r (units c) -> units (setUnitBit c r b) = units c;
  steady_setUnitBit : forall c r b,
    steady c -> In r (units c) -> steady (setUnitBit c r b)
}.
Arguments CarrierLaws C {HC}.

(** The conditions under which a frame can be read back: the stored
    payload (the message, or the padded message when a password is
    given) is within the usable bytes, and scanning the inner bytes
    followed by the terminator stops at that terminator. *)
Definition readable {P : Params} {C : Type} {HC : Carrier C}
  (c : C) (message password : list byte) (g : Rng) : Prop :=
  Z.of_nat (length message) <= usable_bytes c (negb (absent password))
  /\ (absent password = false ->
      Z.of_nat (length (pkcs7_pad message)) <= usable_bytes c true)
  /\ scan (terminator family) (inner_bytes message password g ++ terminator family)
     = Some (inner_bytes message password g).

(** The channel visited at position [n] within a pixel. *)
Definition channel_of (n : nat) : Channel :=
  match n with
  | O => R
  | S O => G
  | _ => B
  end.

End Laws.

(* ================================================================== *)
(** * Part IV.  A small instance of the engine parameters              *)
(* ================================================================== *)

(** Concrete parameters on which the engine can be evaluated.  The
    terminator of the coefficient family is the one the repository's
    JPEGVault notes show, the one of the pixel family is a stand-in of
    the same shape; the key derivation concatenates password and salt;
    the cipher masks each byte with one byte made from the key.  They are
    chosen because they meet the cipher contract and can be run, not
    because they are PBKDF2 or AES. *)
Module Sample.
Import Engine.

Definition xor_bits (a b : bool * (bool * (bool * (bool * (bool * (bool * (bool * bool)))))))
  : bool * (bool * (bool * (bool * (bool * (bool * (bool * bool)))))) :=
  let '(a0, (a1, (a2, (a3, (a4, (a5, (a6, a7))))))) := a in
  let '(b0, (b1, (b2, (b3, (b4, (b5, (b6, b7))))))) := b in
  (xorb a0 b0, (xorb a1 b1, (xorb a2 b2, (xorb a3 b3,
   (xorb a4 b4, (xorb a5 b5, (xorb a6 b6, xorb a7 b7))))))).

Definition byte_xor (a b : byte) : byte :=
  Byte.of_bits (xor_bits (Byte.to_bits a) (Byte.to_bits b)).

(** The mask of a key: the exclusive or of its bytes. *)
Definition mask (key : list byte) : byte := fold_right byte_xor x00 key.

(** The mask cipher: every byte of the data is masked with the key's
    mask; it is its own inverse. *)
Definition mask_cipher (key iv data : list byte) : list byte :=
  map (byte_xor (mask key)) data.

Definition sample_terminator (fam : Family) : list byte :=
  match fam with
  | PixelFamily => bytes "<<PV_END>>"
  | CoefficientFamily => bytes "<<JPEG_END>>"
  end.

Definition sampleParams : Params := {|
  terminator := sample_terminator;
  deriveKey := fun password salt => password ++ salt;
  aes_cbc_encrypt := mask_cipher;
  aes_cbc_decrypt := mask_cipher;
  coef_min := -1024;
  coef_max := 1023
|}.

(** A random source that counts upwards from zero. *)
Definition counter : Rng := mkRng (fun n => byte_of_nat (n mod 256)) 0.

(** A [w] by [h] pixel grid filled with one pixel. *)
Definition solid (w h : nat) (p : Pixel) : PixelCarrier :=
  mkPixelCarrier (repeat (repeat p w) h).

Definition grey : Pixel := mkPixel 128 128 128 255.

(** [n] blocks of 64 coefficients, all equal to [v]. *)
Definition flat_blocks (n : nat) (v : Z) : CoefficientCarrier :=
  mkCoefficientCarrier (repeat (repeat v 64) n).

#[local] Existing Instance sampleParams.

(** A 20 by 20 grey image: 1200 units, 150 bytes. *)
Definition card : PixelCarrier := solid 20 20 grey.

(** The carrier obtained by encoding ["secret"] under ["pw1"]. *)
Definition locked : PixelCarrier :=
  write_bits card (units card)
             (bitsOf (framed_bytes (C := PixelCarrier) (bytes "secret") (bytes "pw1") counter)).

(** The inner bytes of the frame found in [locked]. *)
Definition locked_inner : list byte :=
  match unframe (read_bits locked) PixelFamily with
  | Ok (_, inner) => inner
  | Err _ => []
  end.

(** Six blocks of coefficients 3, and the same after encoding ["AB"]. *)
Definition plate : CoefficientCarrier := flat_blocks 6 3.

Definition stego_plate : CoefficientCarrier :=
  write_bits plate (units plate)
             (bitsOf (framed_bytes (C := CoefficientCarrier) (bytes "AB") [] counter)).

End Sample.

(* ================================================================== *)
(** * Part IV-b.  The rest of the PixelVault page (from the source)    *)
(* ================================================================== *)

(** The functions of [app/pixel_vault/page.js] around the two submit
    handlers: the class-name helper [cn], [switchTab],
    [handleFileSelect] with [checkCapacity], the click on the submit
    button, and what the page renders from the state. *)
Module PixelVaultControls.
Import PixelVaultPage.
Local Open Scope string_scope.

(** An argument of [cn]: a string, or a falsy non-string ([undefined],
    [null], [false]), written [None]. *)
Definition ClassValue := option string.

(** [Boolean(c)] for an argument of [cn]. *)
Definition keeps (c : ClassValue) : bool :=
  match c with
  | Some s => truthy s
  | None => false
  end.

(** The strings that [classes.filter(Boolean)] keeps, in order. *)
Fixpoint kept (classes : list ClassValue) : list string :=
  match classes with
  | [] => []
  | Some s :: rest => if truthy s then s :: kept rest else kept rest
  | None :: rest => kept rest
  end.

(** [function cn(...classes) { return classes.filter(Boolean).join(" "); }] *)
Definition cn (classes : list ClassValue) : string :=
  String.concat " " (kept classes).

(** The [className] of [Card]: [cn(base, className)]. *)
Definition cardClass (className : ClassValue) : string :=
  cn [Some "rounded-xl border border-slate-200 bg-white/80 backdrop-blur-sm shadow-sm";
      className].

(** What the page observes of [data.capacity_chars]: whether it is
    truthy, and the text React renders for it. *)
Record CapacityValue := mkCapacityValue {
  cap_truthy : bool;
  cap_text : string
}.

(** What the page observes of the [/capacity] response; [res.ok] is not
    looked at. *)
Record CapacityResponse := mkCapacityResponse {
  cap_json : Promise CapacityValue
}.

(** The effects of the handlers of the page: those of the submit
    handlers, the remaining state setters, the file reader and the
    console. *)
Inductive PageEffect :=
| Basic (e : Effect)
| SetActiveTab (tab : string)
| SetFile (f : option File)
| SetPreview (p : option string)
| SetMessage (m : string)
| SetPassword (p : string)
| SetCapacity (c : option string)
| ReadAsDataURL (f : File)
| ConsoleError (label : string).

(** The state setters applied to the component state. *)
Definition step (st : State) (e : PageEffect) : State :=
  match e with
  | Basic b => apply st b
  | SetActiveTab t =>
      mkState t (isLoading st) (error st) (capacity st) (file st) (preview st)
              (message st) (password st) (resultImage st) (resultMessage st)
  | SetFile f =>
      mkState (activeTab st) (isLoading st) (error st) (capacity st) f (preview st)
              (message st) (password st) (resultImage st) (resultMessage st)
  | SetPreview p =>
      mkState (activeTab st) (isLoading st) (error st) (capacity st) (file st) p
              (message st) (password st) (resultImage st) (resultMessage st)
  | SetMessage m =>
      mkState (activeTab st) (isLoading st) (error st) (capacity st) (file st)
              (preview st) m (password st) (resultImage st) (resultMessage st)
  | SetPassword p =>
      mkState (activeTab st) (isLoading st) (error st) (capacity st) (file st)
              (preview st) (message st) p (resultImage st) (resultMessage st)
  | SetCapacity c =>
      mkState (activeTab st) (isLoading st) (error st) c (file st) (preview st)
              (message st) (password st) (resultImage st) (resultMessage st)
  | ReadAsDataURL _ => st
  | ConsoleError _ => st
  end.

Definition play (st : State) (tr : list PageEffect) : State := fold_left step tr st.

(** The requests a trace sends. *)
Fixpoint sends (tr : list PageEffect) : list Request :=
  match tr with
  | [] => []
  | Basic (Fetch r) :: tr' => r :: sends tr'
  | _ :: tr' => sends tr'
  end.

(** [switchTab]: the tab is set, every input and output is reset. *)
Definition switchTab (tab : string) : list PageEffect :=
  [SetActiveTab tab; SetFile None; SetPreview None; SetMessage EmptyString;
   SetPassword EmptyString; Basic (SetResultImage None); Basic (SetResultMessage None);
   Basic (SetError None); SetCapacity None].

(** The form built by [checkCapacity]. *)
Definition capacityForm (f : File) : FormData := append [] "image" (FFile f).

(** The request [checkCapacity] sends. *)
Definition capacityRequest (f : File) : Request :=
  mkRequest (API_BASE ++ "/capacity") "POST" (capacityForm f).

(** What [checkCapacity] does once the request has settled: the capacity
    is set when [data.capacity_chars] is truthy; any failure is only
    logged. *)
Definition capacitySettled (net : Promise CapacityResponse) : list PageEffect :=
  match net with
  | Rejects m => [ConsoleError "Capacity check failed"]
  | Resolves res =>
      match cap_json res with
      | Rejects m => [ConsoleError "Capacity check failed"]
      | Resolves data =>
          if cap_truthy data then [SetCapacity (Some (cap_text data))] else []
      end
  end.

(** [checkCapacity]. *)
Definition checkCapacity (f : File) (net : Promise CapacityResponse) : list PageEffect :=
  Basic (Fetch (capacityRequest f)) :: capacitySettled net.

(** [selected.type.startsWith("image/")]. *)
Definition isImage (f : File) : bool := String.prefix "image/" (file_type f).

(** [handleFileSelect], with [selected = e.target.files?.[0]].  [read]
    is the data URL the file reader loads, [None] when it never fires
    [onload].  On the encode tab [checkCapacity(selected)] is started
    without being awaited: its request leaves at once, and what it does
    on the response comes, like the reader's [onload], after the handler
    has returned. *)
Definition handleFileSelect (st : State) (selected : option File)
  (read : option string) (net : Promise CapacityResponse) : list PageEffect :=
  match selected with
  | None => []
  | Some f =>
      if negb (isImage f) then
        [Basic (SetError (Some "Please select a valid image file"))]
      else
        ([SetFile (Some f); Basic (SetError None); Basic (SetResultImage None);
          Basic (SetResultMessage None); ReadAsDataURL f]
         ++ (if String.eqb (activeTab st) "encode"
             then [Basic (Fetch (capacityRequest f))] else [])
         ++ match read with
            | Some url => [SetPreview (Some url)]
            | None => []
            end
         ++ (if String.eqb (activeTab st) "encode"
             then capacitySettled net else []))%list
  end.

(** A click on the submit button: nothing when the button is disabled,
    otherwise [activeTab === "encode" ? handleEncode : handleDecode]. *)
Definition click (st : State) (enc : Promise EncodeResponse)
  (dec : Promise DecodeResponse) : list Effect :=
  if buttonDisabled st then []
  else if String.eqb (activeTab st) "encode" then handleEncode st enc
  else handleDecode st dec.

(** JavaScript truthiness of a state value that is [null] or a string. *)
Definition shown (x : option string) : option string :=
  match x with
  | Some s => if truthy s then Some s else None
  | None => None
  end.

(** The right-hand column. *)
Inductive Panel :=
| ImageSecured (url : string)
| DecodedMessage (msg : string)
| ReadyToProcess.

(** [activeTab === "encode" && resultImage ? ... :
     activeTab === "decode" && resultMessage ? ... : ...]. *)
Definition resultPanel (st : State) : Panel :=
  match (if String.eqb (activeTab st) "encode" then shown (resultImage st) else None) with
  | Some url => ImageSecured url
  | None =>
      match (if String.eqb (activeTab st) "decode" then shown (resultMessage st) else None) with
      | Some msg => DecodedMessage msg
      | None => ReadyToProcess
      end
  end.

(** [{error && <div>... {error}</div>}]: the text of the error box, when
    there is one. *)
Definition errorBox (st : State) : option string := shown (error st).

(** [{capacity && <p>Capacity: {capacity} chars</p>}], on the encode
    tab.  Only truthy values are ever stored in [capacity]. *)
Definition capacityLine (st : State) : option string :=
  if String.eqb (activeTab st) "encode" then
    match capacity st with
    | Some c => Some ("Capacity: " ++ c ++ " chars")
    | None => None
    end
  else None.

(** A state that shows the capacity of an earlier file. *)
Definition measured : State :=
  mkState "encode" false None (Some "3731") (Some photo) None "Hello" EmptyString None None.

(** A trace that sets the loading flag first and clears it last, and
    does not touch it in between. *)
Definition bracketed (tr : list Effect) : Prop :=
  exists mid, tr = (SetIsLoading true :: mid ++ [SetIsLoading false])%list
              /\ forall b, ~ In (SetIsLoading b) mid.

(** A decode page that still shows an earlier decoded message, and an
    encode page that still shows an earlier encoded image. *)
Definition decoded : State :=
  mkState "decode" false None None (Some photo) None EmptyString "Pass123"
          None (Some "old secret").

Definition secured : State :=
  mkState "encode" false None None (Some photo) None "Hello" "Pass123"
          (Some "blob:previous") None.

(** A handler awaits its request: what it has done when the request
    leaves, and what it does once the request has settled. *)
Fixpoint untilFetch (tr : list Effect) : list Effect :=
  match tr with
  | [] => []
  | Fetch r :: _ => [Fetch r]
  | e :: tr' => e :: untilFetch tr'
  end.

Fixpoint afterFetch (tr : list Effect) : list Effect :=
  match tr with
  | [] => []
  | Fetch _ :: tr' => tr'
  | _ :: tr' => afterFetch tr'
  end.

End PixelVaultControls.

(* ================================================================== *)
(** * Part IV-c.  JavaScript strings, as the other pages inspect them  *)
(* ================================================================== *)

(** The PhishyWishy and QR Shield pages look inside the strings they are
    given ([includes], [startsWith], [split], [length], regular
    expressions).  Here a JavaScript string is the sequence of its
    UTF-16 code units, and the string methods the pages call are
    functions on such sequences. *)

Module JsStrings.

Definition JsString := list N.

(** A code unit written as an ASCII character, and a string literal of
    the source (all literals of the pages are ASCII). *)
Definition unit_of (a : ascii) : N := N_of_ascii a.

Definition lit (s : string) : JsString := map N_of_ascii (list_ascii_of_string s).

(** Truthiness of a string: only the empty string is falsy. *)
Definition truthy (s : JsString) : bool :=
  match s with [] => false | _ :: _ => true end.

(** [x || dflt] for a possibly missing string [x]. *)
Definition js_or (x : option JsString) (dflt : JsString) : JsString :=
  match x with
  | Some s => if truthy s then s else dflt
  | None => dflt
  end.

(** [a === b] on strings. *)
Fixpoint strictEquals (a b : JsString) : bool :=
  match a, b with
  | [], [] => true
  | c :: a', d :: b' => N.eqb c d && strictEquals a' b'
  | _, _ => false
  end.

(** [s.length]. *)
Definition jsLength (s : JsString) : Z := Z.of_nat (length s).

(** [s.startsWith(p)]. *)
Fixpoint startsWith (s p : JsString) {struct p} : bool :=
  match p with
  | [] => true
  | c :: p' =>
      match s with
      | [] => false
      | d :: s' => N.eqb c d && startsWith s' p'
      end
  end.

(** [s.includes(p)]. *)
Fixpoint includes (s p : JsString) : bool :=
  startsWith s p
  || match s with
     | [] => false
     | _ :: s' => includes s' p
     end.

(** [(s.match(/c/g) || []).length] for a pattern that is the single
    code unit [c]. *)
Definition countUnit (c : N) (s : JsString) : Z :=
  Z.of_nat (length (filter (N.eqb c) s)).

(** [s.split(sep)] for a separator that is the single code unit [sep]. *)
Fixpoint split (sep : N) (s : JsString) : list JsString :=
  match s with
  | [] => [[]]
  | c :: s' =>
      if N.eqb c sep then [] :: split sep s'
      else match split sep s' with
           | piece :: pieces => (c :: piece) :: pieces
           | [] => [[c]]
           end
  end.

(** [xs.join(sep)]. *)
Fixpoint join (sep : JsString) (xs : list JsString) : JsString :=
  match xs with
  | [] => []
  | x :: rest =>
      match rest with
      | [] => x
      | _ :: _ => (x ++ sep ++ join sep rest)%list
      end
  end.

(** ** Regular expressions *)

(** The regular expressions of the pages use character classes,
    sequence, alternation and repetition.  A class is given by its test
    on a code unit. *)
Inductive Regex :=
| Never
| Empty
| Class (p : N -> bool)
| Seq (r1 r2 : Regex)
| Or (r1 r2 : Regex)
| Star (r : Regex).

(** The strings a regular expression matches as a whole. *)
Inductive Matches : Regex -> JsString -> Prop :=
| MEmpty : Matches Empty []
| MClass p c : p c = true -> Matches (Class p) [c]
| MSeq r1 r2 s1 s2 : Matches r1 s1 -> Matches r2 s2 -> Matches (Seq r1 r2) (s1 ++ s2)
| MOrL r1 r2 s : Matches r1 s -> Matches (Or r1 r2) s
| MOrR r1 r2 s : Matches r2 s -> Matches (Or r1 r2) s
| MStarNil r : Matches (Star r) []
| MStarApp r s1 s2 : Matches r s1 -> Matches (Star r) s2 -> Matches (Star r) (s1 ++ s2).

(** Matching by derivatives. *)
Fixpoint nullable (r : Regex) : bool :=
  match r with
  | Never => false
  | Empty => true
  | Class _ => false
  | Seq r1 r2 => nullable r1 && nullable r2
  | Or r1 r2 => nullable r1 || nullable r2
  | Star _ => true
  end.

Definition mkSeq (r1 r2 : Regex) : Regex :=
  match r1 with
  | Never => Never
  | Empty => r2
  | _ => match r2 with Never => Never | _ => Seq r1 r2 end
  end.

Definition mkOr (r1 r2 : Regex) : Regex :=
  match r1 with
  | Never => r2
  | _ => match r2 with Never => r1 | _ => Or r1 r2 end
  end.

Fixpoint deriv (c : N) (r : Regex) : Regex :=
  match r with
  | Never => Never
  | Empty => Never
  | Class p => if p c then Empty else Never
  | Seq r1 r2 =>
      mkOr (mkSeq (deriv c r1) r2) (if nullable r1 then deriv c r2 else Never)
  | Or r1 r2 => mkOr (deriv c r1) (deriv c r2)
  | Star r' => mkSeq (deriv c r') (Star r')
  end.

(** [/^r$/.test(s)]: the whole of [s] matches [r]. *)
Definition matchesWhole (r : Regex) (s : JsString) : bool :=
  nullable (fold_left (fun r' c => deriv c r') s r).

Definition anyUnit : Regex := Class (fun _ => true).

(** [s.match(/r/)] is not [null]: some part of [s] matches [r]. *)
Definition matchesSomewhere (r : Regex) (s : JsString) : bool :=
  matchesWhole (Seq (Star anyUnit) (Seq r (Star anyUnit))) s.

(** [\d], a literal character, [r+], [r{1,3}] and [r{3}]. *)
Definition isDigit (c : N) : bool := (48 <=? c)%N && (c <=? 57)%N.

Definition digit : Regex := Class isDigit.

Definition chr (a : ascii) : Regex := Class (N.eqb (unit_of a)).

Definition oneOrMore (r : Regex) : Regex := Seq r (Star r).

Definition oneToThree (r : Regex) : Regex := Seq r (Or Empty (Seq r (Or Empty r))).

Definition thrice (r : Regex) : Regex := Seq r (Seq r r).

(** ** What the host provides *)

(** [String.prototype.toLowerCase] follows the Unicode case tables, and
    the message of the [TypeError] raised on reading a property of
    [undefined] is the engine's own; both are taken from the host. *)
Class Host := mkHost {
  toLowerCase : JsString -> JsString;
  typeErrorMessage : JsString
}.

(** On ASCII text [toLowerCase] maps [A]-[Z] to [a]-[z] and keeps every
    other code unit. *)
Definition lowerUnit (c : N) : N :=
  if (65 <=? c)%N && (c <=? 90)%N then (c + 32)%N else c.

Definition isAscii (s : JsString) : bool := forallb (fun c => (c <? 128)%N) s.

Definition lowers_ascii (H : Host) : Prop :=
  forall s, isAscii s = true -> toLowerCase s = map lowerUnit s.

(** A host for ASCII text. *)
Definition asciiHost : Host :=
  mkHost (map lowerUnit) (lit "Cannot read properties of undefined (reading 'length')").

End JsStrings.

(* ================================================================== *)
(** * Part IV-d.  The PhishyWishy page (from the JavaScript source)    *)
(* ================================================================== *)

Module PhishyWishy.
Import JsStrings.
Local Open Scope Z_scope.

(** The object [analyzePhishingRisk] returns. *)
Record Report := mkReport {
  score : Z;
  verdict : JsString;
  spf : bool;
  dkim : bool;
  dmarc : bool;
  factors : list JsString
}.

(** [riskScore] and [riskFactors], which the analysis updates together. *)
Definition Tally : Type := Z * list JsString.

(** [if (cond) { riskScore += points; riskFactors.push(factor); }]. *)
Definition flag (cond : bool) (points : Z) (factor : JsString) (t : Tally) : Tally :=
  if cond then (fst t + points, (snd t ++ [factor])%list) else t.

(** [/\d+\.\d+\.\d+\.\d+/]. *)
Definition ipPattern : Regex :=
  Seq (oneOrMore digit)
    (Seq (chr ".") (Seq (oneOrMore digit)
       (Seq (chr ".") (Seq (oneOrMore digit)
          (Seq (chr ".") (oneOrMore digit)))))).

Definition urgentKeywords : list JsString :=
  map lit ["urgent"; "immediately"; "suspend"; "verify"; "bank"; "password"]%string.

Section Analysis.
Context {host : Host}.

(** [urgentKeywords.filter(k => body.toLowerCase().includes(k))]. *)
Definition foundKeywords (body : JsString) : list JsString :=
  filter (fun k => includes (toLowerCase body) k) urgentKeywords.

(** [analyzePhishingRisk(header, body, url)], once its timer has fired. *)
Definition analyzePhishingRisk (header body url : JsString) : Report :=
  let spfPass := includes (toLowerCase header) (lit "spf=pass") in
  let dkimPass := includes (toLowerCase header) (lit "dkim=pass") in
  let dmarcPass := includes (toLowerCase header) (lit "dmarc=pass") in
  let t : Tally := (10, []) in
  let t := flag (negb spfPass) 20 (lit "SPF Record Missing or Failed") t in
  let t := flag (negb dkimPass) 15 (lit "DKIM Signature Missing or Invalid") t in
  let t :=
    if truthy url then
      let t := flag (includes url (lit "http:") && negb (includes url (lit "https:")))
                    30 (lit "Insecure URL Protocol (HTTP)") t in
      let t := flag (jsLength url >? 50) 10 (lit "Suspiciously Long URL") t in
      flag (includes url (lit "@") || matchesSomewhere ipPattern url)
           40 (lit "URL contains IP address or obfuscated credentials") t
    else t in
  let found := foundKeywords body in
  let t := flag (Z.of_nat (length found) >? 0) (15 * Z.of_nat (length found))
                (lit "Urgency/Threat keywords detected: " ++ join (lit ", ") found)%list t in
  let riskScore := Z.min (fst t) 99 in
  let verdict := lit "Safe" in
  let verdict := if riskScore >? 40 then lit "Suspicious" else verdict in
  let verdict := if riskScore >? 75 then lit "High Risk" else verdict in
  mkReport riskScore verdict spfPass dkimPass dmarcPass (snd t).

(** The component state. *)
Record State := mkState {
  header : JsString;
  body : JsString;
  url : JsString;
  isAnalyzing : bool;
  result : option Report
}.

Definition initialState : State := mkState [] [] [] false None.

(** The effects of [handleAnalyze], in program order. *)
Inductive Effect :=
| SetIsAnalyzing (b : bool)
| SetResult (r : option Report)
| Wait (ms : Z).

Definition apply (st : State) (e : Effect) : State :=
  match e with
  | SetIsAnalyzing b => mkState (header st) (body st) (url st) b (result st)
  | SetResult r => mkState (header st) (body st) (url st) (isAnalyzing st) r
  | Wait _ => st
  end.

Definition run (st : State) (tr : list Effect) : State := fold_left apply tr st.

(** [!header && !body && !url]. *)
Definition nothingEntered (st : State) : bool :=
  negb (truthy (header st)) && negb (truthy (body st)) && negb (truthy (url st)).

(** [handleAnalyze].  The analysis only calls string methods on the
    three strings of the state, so nothing is thrown inside [try]; the
    [catch] branch, which would only log, has no trace. *)
Definition handleAnalyze (st : State) : list Effect :=
  if nothingEntered st then []
  else [SetIsAnalyzing true; SetResult None; Wait 1800;
        SetResult (Some (analyzePhishingRisk (header st) (body st) (url st)));
        SetIsAnalyzing false].

(** The button: [disabled={!header && !body && !url}] with
    [loading={isAnalyzing}], that is [disabled || loading]. *)
Definition buttonDisabled (st : State) : bool := nothingEntered st || isAnalyzing st.

Definition click (st : State) : list Effect :=
  if buttonDisabled st then [] else handleAnalyze st.

End Analysis.

(** [getRiskColor] and [getRiskBg]. *)
Definition getRiskColor (score : Z) : JsString :=
  if score <? 40 then lit "text-emerald-600"
  else if score <? 75 then lit "text-amber-600"
  else lit "text-rose-600".

Definition getRiskBg (score : Z) : JsString :=
  if score <? 40 then lit "bg-emerald-500"
  else if score <? 75 then lit "bg-amber-500"
  else lit "bg-rose-500".

(** The badge of the URL scan: [result.score > 40 ? "Unsafe" : "Clean"],
    shown when a URL was entered. *)
Definition urlBadge (r : Report) : JsString :=
  if score r >? 40 then lit "Unsafe" else lit "Clean".

(** The sentence of the forensic summary chosen by [result.score > 50]. *)
Definition summaryTail (r : Report) : JsString :=
  if score r >? 50 then lit " Several high-risk patterns were identified."
  else lit " Basic checks appear normal, but always verify the sender manually.".

(** The results column: the skeleton while analysing, else the report
    when there is one, else the empty state. *)
Inductive Column :=
| Skeleton
| ReportCard (r : Report)
| ReadyToScan.

Definition resultsColumn (st : State) : Column :=
  if isAnalyzing st then Skeleton
  else match result st with
       | Some r => ReportCard r
       | None => ReadyToScan
       end.

End PhishyWishy.

(* ================================================================== *)
(** * Part IV-e.  The QR Shield page (from the JavaScript source)      *)
(* ================================================================== *)

Module QRShield.
Import JsStrings.
Local Open Scope Z_scope.

(** [const DEMO_MODE = true]. *)
Definition DEMO_MODE : bool := true.

(** A browser [File]. *)
Record File := mkFile {
  file_name : JsString;
  file_type : JsString;
  file_size : Z
}.

(** The [features] object of [analyzeUrlClientSide]. *)
Record Features := mkFeatures {
  url_length : Z;
  num_dots : Z;
  num_slashes : Z;
  is_https : Z;
  has_ip : Z
}.

(** The object [analyzeUrlClientSide] returns.  [probability] is a
    multiple of 1/100 here and is kept in hundredths:
    [Math.min(Math.max(riskScore / 100, 0.01), 0.99)]. *)
Record Analysis := mkAnalysis {
  prediction : JsString;
  probability_percent : Z;
  features : Features;
  url : JsString
}.

(** [/^\d{1,3}(\.\d{1,3}){3}$/]. *)
Definition hostPattern : Regex :=
  Seq (oneToThree digit) (thrice (Seq (chr ".") (oneToThree digit))).

Definition suspicious_keywords : list JsString :=
  map lit ["login"; "verify"; "secure"; "update"; "bank"; "account"; "reset";
           "alert"; "confirm"; "billing"; "webscr"; "signin"; "auth"; "wp-admin";
           "approve"]%string.

(** [url.split("/")[2] || ""]: the third piece, the empty string when
    there is none. *)
Definition hostPiece (url : JsString) : JsString := nth 2 (split (unit_of "/") url) [].

Definition extractFeatures (url : JsString) : Features :=
  mkFeatures (jsLength url)
             (countUnit (unit_of ".") url)
             (countUnit (unit_of "/") url)
             (if startsWith url (lit "https") then 1 else 0)
             (if matchesWhole hostPattern (hostPiece url) then 1 else 0).

(** The settlement of an awaited promise. *)
Inductive Promise (A : Type) :=
| Resolves (a : A)
| Rejects (message : JsString).

Arguments Resolves {A} a.
Arguments Rejects {A} message.

Section Analysis.
Context {host : Host}.

(** [suspicious_keywords.some((k) => url.toLowerCase().includes(k))]. *)
Definition has_keyword (url : JsString) : bool :=
  existsb (fun k => includes (toLowerCase url) k) suspicious_keywords.

(** The local [riskScore] of [analyzeUrlClientSide]. *)
Definition riskScore (url : JsString) : Z :=
  let features := extractFeatures url in
  let riskScore := 0 in
  let riskScore := if has_keyword url then riskScore + 40 else riskScore in
  let riskScore := if negb (has_ip features =? 0) then riskScore + 30 else riskScore in
  let riskScore := if jsLength url >? 70 then riskScore + 20 else riskScore in
  let riskScore := if is_https features =? 0 then riskScore + 10 else riskScore in
  let riskScore := if countUnit (unit_of "-") url >? 3 then riskScore + 15 else riskScore in
  riskScore.

(** [analyzeUrlClientSide(url)]. *)
Definition analyzeUrlClientSide (url : JsString) : Analysis :=
  let probability := Z.min (Z.max (riskScore url) 1) 99 in
  let prediction := if riskScore url >? 40 then lit "malicious" else lit "benign" in
  mkAnalysis prediction probability (extractFeatures url) url.

(** What [setResult] stores: [{ success: true, ...analysis }] in demo
    mode, the JSON body of the backend otherwise. *)
Record Result := mkResult {
  success : bool;
  analysis : Analysis
}.

(** The JSON body of the backend's reply, and the reply. *)
Record BackendData := mkBackendData {
  data_success : bool;
  data_error : option JsString;
  data_analysis : Analysis
}.

Record BackendResponse := mkBackendResponse {
  res_json : Promise BackendData
}.

Record Request := mkRequest {
  req_url : JsString;
  req_method : JsString;
  req_body : list (JsString * File)
}.

(** The component state. *)
Record State := mkState {
  file : option File;
  preview : option JsString;
  analyzing : bool;
  result : option Result;
  error : option JsString
}.

Definition initialState : State := mkState None None false None None.

(** The effects of the handlers, in program order. *)
Inductive Effect :=
| SetFile (f : option File)
| SetPreview (p : option JsString)
| SetAnalyzing (b : bool)
| SetResult (r : option Result)
| SetError (e : option JsString)
| ReadAsDataURL (f : File)
| Wait (ms : Z)
| Fetch (r : Request)
| ConsoleError
| ClearInput
| PreventDefault
| StopPropagation.

Definition apply (st : State) (e : Effect) : State :=
  match e with
  | SetFile f => mkState f (preview st) (analyzing st) (result st) (error st)
  | SetPreview p => mkState (file st) p (analyzing st) (result st) (error st)
  | SetAnalyzing b => mkState (file st) (preview st) b (result st) (error st)
  | SetResult r => mkState (file st) (preview st) (analyzing st) r (error st)
  | SetError e => mkState (file st) (preview st) (analyzing st) (result st) e
  | _ => st
  end.

Definition run (st : State) (tr : list Effect) : State := fold_left apply tr st.

(** The requests a trace sends. *)
Fixpoint requests (tr : list Effect) : list Request :=
  match tr with
  | [] => []
  | Fetch r :: tr' => r :: requests tr'
  | _ :: tr' => requests tr'
  end.

(** [handleFileSelect], with [selected = e.target.files?.[0]].  [read]
    is [reader.result] when the reader fires [onloadend]: the data URL,
    or [null] when reading failed. *)
Definition handleFileSelect (selected : option File) (read : option JsString)
  : list Effect :=
  match selected with
  | None => []
  | Some f =>
      if file_size f >? 5 * 1024 * 1024 then
        [SetError (Some (lit "File size too large. Max 5MB."))]
      else
        [SetFile (Some f); SetResult None; SetError None; ReadAsDataURL f;
         SetPreview read]
  end.

(** [handleDrop], with [dropped = e.dataTransfer.files?.[0]]. *)
Definition handleDrop (dropped : option File) (read : option JsString) : list Effect :=
  PreventDefault :: StopPropagation ::
  match dropped with
  | Some f =>
      if startsWith (file_type f) (lit "image/")
      then handleFileSelect (Some f) read
      else []
  | None => []
  end.

Definition mockUrls : list JsString :=
  map lit ["https://secure-bank-login.update-account.com/verify";
           "https://www.google.com";
           "http://192.168.1.1/admin.php";
           "https://example-shop.xyz/promo"]%string.

(** The [catch] block: [console.error(err)], then
    [setError(err.message || "An error occurred during analysis")]. *)
Definition caught (message : option JsString) : list Effect :=
  [ConsoleError; SetError (Some (js_or message (lit "An error occurred during analysis")))].

(** The request of the backend branch. *)
Definition analyzeRequest (f : File) : Request :=
  mkRequest (lit "http://localhost:8000/analyze_qr") (lit "POST") [(lit "file", f)].

(** [handleAnalyze].  [draw] is
    [Math.floor(Math.random() * mockUrls.length)]; an index outside the
    array gives [undefined], on which [analyzeUrlClientSide] raises a
    [TypeError].  [net] is the outcome of the request of the backend
    branch. *)
Definition handleAnalyze (st : State) (draw : nat) (net : Promise BackendResponse)
  : list Effect :=
  match file st with
  | None => []
  | Some f =>
      ([SetAnalyzing true; SetError None]
       ++ (if DEMO_MODE then
             Wait 1500 ::
             match nth_error mockUrls draw with
             | Some randomUrl =>
                 [SetResult (Some (mkResult true (analyzeUrlClientSide randomUrl)))]
             | None => caught (Some typeErrorMessage)
             end
           else
             Fetch (analyzeRequest f) ::
             match net with
             | Rejects m => caught (Some m)
             | Resolves response =>
                 match res_json response with
                 | Rejects m => caught (Some m)
                 | Resolves data =>
                     if negb (data_success data)
                     then caught (Some (js_or (data_error data)
                                          (lit "Failed to analyze QR code")))
                     else [SetResult (Some (mkResult (data_success data)
                                              (data_analysis data)))]
                 end
             end)
       ++ [SetAnalyzing false])%list
  end.

(** The file input is rendered only while no file is selected, so
    [fileInputRef.current] is set exactly then. *)
Definition inputMounted (st : State) : bool :=
  match file st with
  | None => true
  | Some _ => false
  end.

(** [reset]. *)
Definition reset (st : State) : list Effect :=
  ([SetFile None; SetPreview None; SetResult None; SetError None]
   ++ (if inputMounted st then [ClearInput] else []))%list.

(** What the card shows: the upload area while no file is selected,
    else the preview with the Remove and Analyze buttons; the Analyze
    button is disabled while analysing, the Remove button never. *)
Definition analyzeDisabled (st : State) : bool := analyzing st.

Definition clickAnalyze (st : State) (draw : nat) (net : Promise BackendResponse)
  : list Effect :=
  match file st with
  | None => []
  | Some _ => if analyzeDisabled st then [] else handleAnalyze st draw net
  end.

Definition clickRemove (st : State) : list Effect :=
  match file st with
  | None => []
  | Some _ => reset st
  end.

(** The colour of the probability figure and bar:
    [result.probability > 0.5]. *)
Definition barIsRed (r : Result) : bool := probability_percent (analysis r) >? 50.

(** The card's warning style: [result.prediction === "malicious"]. *)
Definition cardIsRed (r : Result) : bool :=
  strictEquals (prediction (analysis r)) (lit "malicious").

End Analysis.

End QRShield.

(* ================================================================== *)
(** * Part IV-f.  The sidebar (from the JavaScript source)             *)
(* ================================================================== *)

Module SidebarNav.
Import JsStrings.

Record NavItem := mkNavItem {
  label : JsString;
  href : JsString
}.

Definition navItems : list NavItem :=
  [mkNavItem (lit "Dashboard") (lit "/");
   mkNavItem (lit "QR Shield") (lit "/qr_shield");
   mkNavItem (lit "PixelVault") (lit "/pixel_vault");
   mkNavItem (lit "PhishyWishy") (lit "/phishy_wishy")].

(** [const active = pathname === item.href] in [NavLink]. *)
Definition active (pathname : JsString) (item : NavItem) : bool :=
  strictEquals pathname (href item).

(** The state of the mobile drawer and its setter. *)
Inductive Effect :=
| SetOpen (b : bool).

Definition apply (open : bool) (e : Effect) : bool :=
  match e with SetOpen b => b end.

Definition run (open : bool) (tr : list Effect) : bool := fold_left apply tr open.

(** The [onClick] of a [NavLink]: [if (mobile) setOpen(false)]. *)
Definition linkClicked (mobile : bool) : list Effect :=
  if mobile then [SetOpen false] else [].

(** The menu button of the top bar: [setOpen((s) => !s)]. *)
Definition menuClicked (open : bool) : list Effect := [SetOpen (negb open)].

(** The links on the page: those of the desktop sidebar, and those of
    the drawer while it is open. *)
Definition links (open : bool) : list (NavItem * bool) :=
  (map (fun item => (item, false)) navItems
   ++ (if open then map (fun item => (item, true)) navItems else []))%list.

End SidebarNav.

(* ================================================================== *)
(** * Part V.  Properties of the PixelVault page                       *)
(* ================================================================== *)

Module PixelVaultPageFacts.
Import PixelVaultPage.
Local Open Scope string_scope.

Lemma truthy_true_iff (s : string) : truthy s = true <-> s <> EmptyString.
Proof.
  destruct s; simpl; split; intro H; try discriminate; try reflexivity.
  now elim H.
Qed.

Lemma truthy_false_iff (s : string) : truthy s = false <-> s = EmptyString.
Proof.
  destruct s; simpl; split; intro H; try discriminate; reflexivity.
Qed.

(** The fetches of [handleEncode]: at most the one request built from the
    state. *)
Lemma handleEncode_fetch (st : State) (net : Promise EncodeResponse) (r : Request) :
  In (Fetch r) (handleEncode st net) ->
  exists f, file st = Some f /\ truthy (message st) = true
            /\ r = mkRequest (API_BASE ++ "/encode") "POST"
                             (encodeForm f (message st) (password st)).
Proof.
  unfold handleEncode.
  destruct (file st) as [f|]; [|intros []].
  destruct (truthy (message st)) eqn:Hm; simpl; [|intros []].
  intros [H|[H|[H|H]]]; try discriminate.
  - exists f. injection H as <-. auto.
  - exfalso. apply in_app_or in H. destruct H as [H|H].
    + destruct net as [res|m]; simpl in H.
      * destruct (enc_ok res); simpl in H.
        -- destruct (enc_blob_url res); simpl in H;
             destruct H as [H|[]]; discriminate.
        -- destruct (enc_json_detail res); simpl in H;
             destruct H as [H|[]]; discriminate.
      * destruct H as [H|[]]; discriminate.
    + destruct H as [H|[]]; discriminate.
Qed.

Lemma handleDecode_fetch (st : State) (net : Promise DecodeResponse) (r : Request) :
  In (Fetch r) (handleDecode st net) ->
  exists f, file st = Some f
            /\ r = mkRequest (API_BASE ++ "/decode") "POST"
                             (decodeForm f (password st)).
Proof.
  unfold handleDecode.
  destruct (file st) as [f|]; [|intros []].
  simpl. intros [H|[H|[H|[H|H]]]]; try discriminate.
  - exists f. injection H as <-. auto.
  - exfalso. apply in_app_or in H. destruct H as [H|H].
    + destruct net as [res|m]; simpl in H.
      * destruct (dec_json res) as [data|m]; simpl in H.
        -- destruct (negb (dec_ok res) || negb (data_success data)); simpl in H;
             destruct H as [H|[]]; discriminate.
        -- destruct H as [H|[]]; discriminate.
      * destruct H as [H|[]]; discriminate.
    + destruct H as [H|[]]; discriminate.
Qed.

Lemma encodeForm_password (f : File) (msg pw : string) :
  has (encodeForm f msg pw) "password" = truthy pw
  /\ getAll (encodeForm f msg pw) "password"
     = if truthy pw then [FText pw] else [].
Proof.
  unfold encodeForm. destruct (truthy pw); split; reflexivity.
Qed.

Lemma decodeForm_password (f : File) (pw : string) :
  has (decodeForm f pw) "password" = truthy pw
  /\ getAll (decodeForm f pw) "password"
     = if truthy pw then [FText pw] else [].
Proof.
  unfold decodeForm. destruct (truthy pw); split; reflexivity.
Qed.

(** C9.  Every encode request and every decode request the page builds
    carries a ["password"] form field if and only if the password entered
    is not the empty string; when present the field occurs once and holds
    the entered password, so an empty password is never transmitted. *)
Theorem password_field_iff_entered (st : State) (r : Request) :
  sent st r ->
  (has (req_body r) "password" = true <-> password st <> EmptyString)
  /\ getAll (req_body r) "password"
     = if truthy (password st) then [FText (password st)] else [].
Proof.
  intros [[net H]|[net H]].
  - apply handleEncode_fetch in H. destruct H as (f & _ & _ & ->). simpl.
    destruct (encodeForm_password f (message st) (password st)) as [-> ->].
    split; [apply truthy_true_iff | reflexivity].
  - apply handleDecode_fetch in H. destruct H as (f & _ & ->). simpl.
    destruct (decodeForm_password f (password st)) as [-> ->].
    split; [apply truthy_true_iff | reflexivity].
Qed.

Lemma password_field_iff_entered_filled :
  (has (encodeForm photo "Hello" "Pass123") "password" = true
   <-> password filled <> EmptyString)
  /\ getAll (encodeForm photo "Hello" "Pass123") "password" = [FText "Pass123"].
Proof.
  apply (@password_field_iff_entered filled
           (mkRequest (API_BASE ++ "/encode") "POST"
                      (encodeForm photo "Hello" "Pass123"))).
  left. exists (Rejects "offline"). simpl. auto.
Defined.

(** With the password field empty the decode request has no such entry. *)
Example decode_request_without_password :
  requests (handleDecode unlocked (Rejects "offline"))
  = [mkRequest (API_BASE ++ "/decode") "POST" [("image", FFile photo)]].
Proof. reflexivity. Qed.

(** C10.  When no file is selected or the message is empty,
    [handleEncode] performs no effect at all: no request is sent and
    neither the loading flag nor the error is set, so the state is left
    as it was, and the submit button is disabled on the encode tab.
    Conversely every request [handleEncode] sends comes from a state
    with a selected file and a non-empty message, and carries exactly
    that file and that message. *)
Theorem handleEncode_guard (st : State) (net : Promise EncodeResponse) :
  (file st = None \/ message st = EmptyString ->
     handleEncode st net = []
     /\ requests (handleEncode st net) = []
     /\ existsb touchesLoadingOrError (handleEncode st net) = false
     /\ run st (handleEncode st net) = st
     /\ (activeTab st = "encode" -> buttonDisabled st = true))
  /\ (forall r, In (Fetch r) (handleEncode st net) ->
        exists f, file st = Some f /\ message st <> EmptyString
                  /\ req_url r = API_BASE ++ "/encode"
                  /\ getAll (req_body r) "image" = [FFile f]
                  /\ getAll (req_body r) "message" = [FText (message st)]).
Proof.
  split.
  - intros H.
    assert (E : handleEncode st net = []).
    { unfold handleEncode. destruct H as [H|H].
      - now rewrite H.
      - rewrite H. simpl. now destruct (file st). }
    rewrite E. repeat split; try reflexivity.
    intros Ht. unfold buttonDisabled. rewrite Ht.
    destruct H as [H|H]; rewrite H; simpl.
    + reflexivity.
    + now destruct (file st).
  - intros r H. apply handleEncode_fetch in H.
    destruct H as (f & Hf & Hm & ->).
    exists f. split; [exact Hf|]. split; [now apply truthy_true_iff|].
    split; [reflexivity|]. simpl.
    unfold encodeForm. destruct (truthy (password st)); split; reflexivity.
Qed.

Lemma handleEncode_guard_initial :
  handleEncode initialState (Rejects "offline") = []
  /\ requests (handleEncode initialState (Rejects "offline")) = []
  /\ existsb touchesLoadingOrError (handleEncode initialState (Rejects "offline")) = false
  /\ run initialState (handleEncode initialState (Rejects "offline")) = initialState
  /\ (activeTab initialState = "encode" -> buttonDisabled initialState = true).
Proof.
  apply (proj1 (handleEncode_guard initialState (Rejects "offline"))).
  left. reflexivity.
Defined.

(** When the guard passes, the request is sent between the two loading
    updates. *)
Example handleEncode_filled :
  handleEncode filled (Resolves (mkEncodeResponse true (Rejects "unused") (Resolves "blob:1")))
  = [SetIsLoading true; SetError None;
     Fetch (mkRequest (API_BASE ++ "/encode") "POST"
              [("image", FFile photo); ("message", FText "Hello");
               ("password", FText "Pass123")]);
     SetResultImage (Some "blob:1"); SetIsLoading false].
Proof. reflexivity. Qed.

End PixelVaultPageFacts.

(* ================================================================== *)
(** * Part VI.  Properties of the engine                               *)
(* ================================================================== *)

Module EngineFacts.
Import Engine Laws.
Local Open Scope Z_scope.

(** ** Bit packer *)

Lemma bits_of_byte_length (b : byte) : length (bits_of_byte b) = 8%nat.
Proof.
  unfold bits_of_byte.
  destruct (Byte.to_bits b) as [b0 [b1 [b2 [b3 [b4 [b5 [b6 b7]]]]]]].
  reflexivity.
Qed.

Lemma bitsOf_length (bs : list byte) : length (bitsOf bs) = (8 * length bs)%nat.
Proof.
  induction bs as [|a bs IH]; simpl; [reflexivity|].
  rewrite length_app, bits_of_byte_length, IH. lia.
Qed.

Lemma bitsOf_app (a b : list byte) : bitsOf (a ++ b) = (bitsOf a ++ bitsOf b)%list.
Proof. unfold bitsOf. now rewrite flat_map_app. Qed.

(** Reading whole bytes back from packed bits, whatever follows. *)
Lemma whole_bytes_bitsOf (bs : list byte) (rest : list bool) :
  whole_bytes (bitsOf bs ++ rest) = (bs ++ whole_bytes rest)%list.
Proof.
  induction bs as [|a bs IH]; [reflexivity|].
  cbn [bitsOf flat_map]. fold (bitsOf bs).
  pose proof (Byte.of_bits_to_bits a) as E.
  unfold bits_of_byte.
  destruct (Byte.to_bits a) as [b0 [b1 [b2 [b3 [b4 [b5 [b6 b7]]]]]]].
  cbn [app whole_bytes]. rewrite IH, E. reflexivity.
Qed.

(** [bytesOf] inverts [bitsOf]. *)
Lemma bytesOf_bitsOf (bs : list byte) : bytesOf (bitsOf bs) = Ok bs.
Proof.
  induction bs as [|a bs IH]; [reflexivity|].
  cbn [bitsOf flat_map]. fold (bitsOf bs).
  pose proof (Byte.of_bits_to_bits a) as E.
  unfold bits_of_byte.
  destruct (Byte.to_bits a) as [b0 [b1 [b2 [b3 [b4 [b5 [b6 b7]]]]]]].
  cbn [app bytesOf]. rewrite IH, E. reflexivity.
Qed.

(** ** The least significant bit *)

Lemma set_lsb_spec (v : Z) (bit : bool) : set_lsb v bit = 2 * (v / 2) + Z.b2z bit.
Proof.
  unfold set_lsb. apply Z.bits_inj'. intros n Hn.
  rewrite Z.lor_spec, Z.land_spec, Z.lnot_spec by assumption.
  destruct (Z.eq_dec n 0) as [->|Hn0].
  - rewrite Z.testbit_0_r, Z.b2z_bit0.
    change (Z.testbit 1 0) with true. now rewrite andb_false_r.
  - set (m := n - 1). replace n with (Z.succ m) by (unfold m; lia).
    assert (Hm : 0 <= m) by (unfold m; lia).
    rewrite (Z.testbit_succ_r (v / 2) bit m Hm).
    assert (H1 : Z.testbit 1 (Z.succ m) = false).
    { change 1 with (2 * 0 + Z.b2z true).
      rewrite Z.testbit_succ_r by assumption. apply Z.bits_0. }
    assert (Hb : Z.testbit (Z.b2z bit) (Z.succ m) = false).
    { replace (Z.b2z bit) with (2 * 0 + Z.b2z bit) by lia.
      rewrite Z.testbit_succ_r by assumption. apply Z.bits_0. }
    rewrite H1, Hb. cbn [negb]. rewrite andb_true_r, orb_false_r.
    rewrite Z.div2_bits by assumption. reflexivity.
Qed.

Lemma lsb_set_lsb (v : Z) (bit : bool) : lsb (set_lsb v bit) = bit.
Proof. unfold lsb. rewrite set_lsb_spec. apply Z.testbit_0_r. Qed.

(** Rewriting the least significant bit moves a value by at most one. *)
Lemma set_lsb_close (v : Z) (bit : bool) : Z.abs (set_lsb v bit - v) <= 1.
Proof.
  rewrite set_lsb_spec.
  pose proof (Z.div_mod v 2 ltac:(lia)). pose proof (Z.mod_pos_bound v 2 ltac:(lia)).
  destruct bit; cbn [Z.b2z]; lia.
Qed.

Lemma set_lsb_set_lsb (v : Z) (b b' : bool) : set_lsb (set_lsb v b) b' = set_lsb v b'.
Proof.
  rewrite (set_lsb_spec (set_lsb v b)), (set_lsb_spec v b), (set_lsb_spec v b').
  replace (2 * (v / 2) + Z.b2z b) with (Z.b2z b + 2 * (v / 2)) by lia.
  now rewrite Z.add_b2z_double_div2.
Qed.

(** A unit is zeroed only when it held 0 or 1 and a 0 bit is written. *)
Lemma set_lsb_zero (v : Z) (bit : bool) :
  set_lsb v bit = 0 <-> (v = 0 \/ v = 1) /\ bit = false.
Proof.
  rewrite set_lsb_spec.
  pose proof (Z.div_mod v 2 ltac:(lia)). pose proof (Z.mod_pos_bound v 2 ltac:(lia)).
  destruct bit; cbn [Z.b2z]; split.
  - intros; lia.
  - intros [_ ?]; discriminate.
  - intros; split; [lia|reflexivity].
  - intros [[->| ->] _]; reflexivity.
Qed.

(** Pixel samples stay within a byte. *)
Lemma set_lsb_byte_range (v : Z) (bit : bool) :
  0 <= v <= 255 -> 0 <= set_lsb v bit <= 255.
Proof.
  intros Hv. rewrite set_lsb_spec.
  pose proof (Z.div_mod v 2 ltac:(lia)). pose proof (Z.mod_pos_bound v 2 ltac:(lia)).
  destruct bit; cbn [Z.b2z]; lia.
Qed.

(** ** Writing bits into a list of unit values *)

Lemma put_bits_length (vs : list Z) (bits : list bool) :
  length (put_bits vs bits) = length vs.
Proof.
  revert bits. induction vs as [|v vs IH]; intros [|b bits]; simpl; auto.
Qed.

(** Reading after writing: the written bits come first, then the bits
    the remaining units already held. *)
Lemma lsb_put_bits (vs : list Z) (bits : list bool) :
  (length bits <= length vs)%nat ->
  map lsb (put_bits vs bits) = (bits ++ map lsb (skipn (length bits) vs))%list.
Proof.
  revert bits. induction vs as [|v vs IH]; intros [|b bits] Hl; simpl in *;
    try reflexivity; try lia.
  rewrite lsb_set_lsb, IH by lia. reflexivity.
Qed.

(** ** Writing through the laws of a carrier *)

Section Writing.
Context {P : Params} {C : Type} {HC : Carrier C} {HL : CarrierLaws C}.

(** A cell that is not among the written references keeps its value. *)
Lemma write_bits_other (refs : list unit_ref) (bits : list bool) (c : C) (r : unit_ref) :
  ~ In r refs -> unitValue (write_bits c refs bits) r = unitValue c r.
Proof.
  revert bits c. induction refs as [|r0 refs IH]; intros [|b bits] c Hr;
    cbn [write_bits]; try reflexivity.
  rewrite IH by (intro; apply Hr; now right).
  apply unitValue_other. intros ->. apply Hr. now left.
Qed.

(** The written references hold the old values with the bits put in. *)
Lemma write_bits_values (refs : list unit_ref) (bits : list bool) (c : C) :
  NoDup refs -> (forall r, In r refs -> valid c r) ->
  map (unitValue (write_bits c refs bits)) refs = put_bits (map (unitValue c) refs) bits.
Proof.
  revert bits c. induction refs as [|r0 refs IH]; intros [|b bits] c Hnd Hv;
    cbn [write_bits map put_bits]; try reflexivity.
  inversion Hnd as [|? ? Hnot Hnd']; subst.
  f_equal.
  - rewrite write_bits_other by assumption.
    apply unitValue_same. apply Hv. now left.
  - rewrite IH; [|assumption|].
    + f_equal. apply map_ext_in. intros r Hr.
      apply unitValue_other. intros ->. contradiction.
    + intros r Hr. apply valid_setUnitBit. apply Hv. now right.
Qed.

(** Every cell is either left alone or has had its least significant bit
    rewritten once. *)
Lemma write_bits_cell (refs : list unit_ref) (bits : list bool) (c : C) (r : unit_ref) :
  NoDup refs -> (forall r, In r refs -> valid c r) ->
  unitValue (write_bits c refs bits) r = unitValue c r
  \/ (In r refs /\ exists b, unitValue (write_bits c refs bits) r = set_lsb (unitValue c r) b).
Proof.
  revert bits c. induction refs as [|r0 refs IH]; intros [|b bits] c Hnd Hv;
    cbn [write_bits]; try (now left).
  inversion Hnd as [|? ? Hnot Hnd']; subst.
  destruct (ref_eq_dec r0 r) as [->|Hne].
  - right. split; [now left|]. exists b.
    rewrite write_bits_other by assumption.
    apply unitValue_same. apply Hv. now left.
  - destruct (IH bits (setUnitBit c r0 b) Hnd') as [E|[Hin [b' E]]].
    + intros r' Hr'. apply valid_setUnitBit. apply Hv. now right.
    + left. rewrite E. now apply unitValue_other.
    + right. split; [now right|]. exists b'.
      rewrite E. f_equal. now apply unitValue_other.
Qed.

(** On a steady carrier the enumeration survives the writes. *)
Lemma write_bits_steady (refs : list unit_ref) (bits : list bool) (c : C) :
  steady c -> incl refs (units c) ->
  units (write_bits c refs bits) = units c /\ steady (write_bits c refs bits).
Proof.
  revert bits c. induction refs as [|r0 refs IH]; intros [|b bits] c Hs Hi;
    cbn [write_bits]; auto.
  assert (H0 : In r0 (units c)) by (apply Hi; now left).
  destruct (IH bits (setUnitBit c r0 b)) as [E S].
  - now apply steady_setUnitBit.
  - rewrite units_steady by assumption. intros r Hr. apply Hi. now right.
  - rewrite E. split; [now apply units_steady | exact S].
Qed.

(** Whatever property [setUnitBit] keeps, [write_bits] keeps. *)
Lemma write_bits_keeps (Q : C -> Prop) (refs : list unit_ref) (bits : list bool) (c : C) :
  (forall c r b, Q c -> Q (setUnitBit c r b)) -> Q c -> Q (write_bits c refs bits).
Proof.
  intros Hq. revert bits c.
  induction refs as [|r0 refs IH]; intros [|b bits] c Hc; cbn [write_bits]; auto.
Qed.

(** What decode reads from a steady carrier after the bits were written
    into its units: the bits, then what the remaining units held. *)
Lemma read_bits_write_bits (c : C) (bits : list bool) :
  steady c -> (length bits <= capacity c)%nat ->
  read_bits (write_bits c (units c) bits)
  = (bits ++ skipn (length bits) (read_bits c))%list.
Proof.
  intros Hs Hl. unfold read_bits.
  destruct (@write_bits_steady (units c) bits c Hs (incl_refl _)) as [-> _].
  rewrite <- (map_map (unitValue (write_bits c (units c) bits)) lsb).
  rewrite write_bits_values; [|apply units_NoDup|apply units_valid].
  rewrite lsb_put_bits by (rewrite length_map; exact Hl).
  rewrite skipn_map, map_map, skipn_map. reflexivity.
Qed.

End Writing.

(** ** Lists updated at an index, and grids *)

Lemma upd_length {A} (l : list A) (i : nat) (f : A -> A) : length (upd l i f) = length l.
Proof.
  revert i. induction l as [|x l IH]; intros [|i]; simpl; auto.
Qed.

Lemma nth_upd_same {A} (l : list A) (i : nat) (f : A -> A) (d : A) :
  (i < length l)%nat -> nth i (upd l i f) d = f (nth i l d).
Proof.
  revert i. induction l as [|x l IH]; intros [|i] Hi; simpl in *; try lia; auto.
  apply IH. lia.
Qed.

Lemma nth_upd_other {A} (l : list A) (i j : nat) (f : A -> A) (d : A) :
  i <> j -> nth j (upd l i f) d = nth j l d.
Proof.
  revert i j. induction l as [|x l IH]; intros [|i] [|j] Hij; simpl;
    try reflexivity; try (now elim Hij).
  apply IH. intros ->. now apply Hij.
Qed.

Lemma upd_beyond {A} (l : list A) (i : nat) (f : A -> A) :
  (length l <= i)%nat -> upd l i f = l.
Proof.
  revert i. induction l as [|x l IH]; intros [|i] Hi; simpl in *; try lia; auto.
  f_equal. apply IH. lia.
Qed.

Lemma gupd_length {A} (g : list (list A)) (i j : nat) (f : A -> A) :
  length (gupd g i j f) = length g.
Proof. apply upd_length. Qed.

Lemma gupd_row_length {A} (g : list (list A)) (i j i' : nat) (f : A -> A) :
  length (nth i' (gupd g i j f) []) = length (nth i' g []).
Proof.
  unfold gupd. destruct (Nat.eq_dec i i') as [->|Hne].
  - destruct (Nat.lt_ge_cases i' (length g)) as [Hlt|Hge].
    + rewrite nth_upd_same by assumption. apply upd_length.
    + now rewrite upd_beyond.
  - now rewrite nth_upd_other.
Qed.

Lemma in_grid_gupd {A} (g : list (list A)) (i j i' j' : nat) (f : A -> A) :
  in_grid g i' j' -> in_grid (gupd g i j f) i' j'.
Proof.
  unfold in_grid. now rewrite gupd_length, gupd_row_length.
Qed.

Lemma cell_gupd_same {A} (g : list (list A)) (i j : nat) (f : A -> A) (d : A) :
  in_grid g i j -> cell (gupd g i j f) i j d = f (cell g i j d).
Proof.
  intros [Hi Hj]. unfold cell, gupd.
  rewrite nth_upd_same by assumption. now apply nth_upd_same.
Qed.

Lemma cell_gupd_other {A} (g : list (list A)) (i j i' j' : nat) (f : A -> A) (d : A) :
  (i, j) <> (i', j') -> cell (gupd g i j f) i' j' d = cell g i' j' d.
Proof.
  intros Hne. unfold cell, gupd.
  destruct (Nat.eq_dec i i') as [->|Hi].
  - destruct (Nat.lt_ge_cases i' (length g)) as [Hlt|Hge].
    + rewrite nth_upd_same by assumption.
      apply nth_upd_other. intros ->. now apply Hne.
    + now rewrite upd_beyond.
  - now rewrite nth_upd_other.
Qed.

(** Outside the grid nothing is written. *)
Lemma gupd_outside {A} (g : list (list A)) (i j : nat) (f : A -> A) :
  ~ in_grid g i j -> gupd g i j f = g.
Proof.
  unfold in_grid, gupd. intros Hout.
  destruct (Nat.lt_ge_cases i (length g)) as [Hlt|Hge]; [|now apply upd_beyond].
  assert (Hj : (length (nth i g []) <= j)%nat) by lia. clear Hout.
  revert i Hlt Hj. induction g as [|row g IH]; intros [|i] Hlt Hj; simpl in *; try lia.
  - f_equal. now apply upd_beyond.
  - f_equal. apply IH; [lia|assumption].
Qed.

(** ** Lists without duplicates *)

Lemma NoDup_map_injective {A B} (f : A -> B) (l : list A) :
  (forall x y, f x = f y -> x = y) -> NoDup l -> NoDup (map f l).
Proof.
  intros Hinj Hnd. induction Hnd as [|x l Hx _ IH]; simpl; constructor; auto.
  intros Hin. apply in_map_iff in Hin. destruct Hin as (y & Hy & Hin).
  apply Hinj in Hy. now subst.
Qed.

(** Lists made for distinct keys, each without duplicates and each
    remembering its key, concatenate without duplicates. *)
Lemma NoDup_flat_map_keyed {A B} (key : B -> A) (f : A -> list B) (l : list A) :
  NoDup l -> (forall a, NoDup (f a)) -> (forall a b, In b (f a) -> key b = a) ->
  NoDup (flat_map f l).
Proof.
  intros Hnd Hf Hkey. induction Hnd as [|a l Ha _ IH]; simpl; [constructor|].
  apply NoDup_app; auto.
  intros b Hb Hin. apply in_flat_map in Hin. destruct Hin as (a' & Ha' & Hb').
  apply Hkey in Hb, Hb'. congruence.
Qed.

Lemma in_grid_dec {A} (g : list (list A)) (i j : nat) : {in_grid g i j} + {~ in_grid g i j}.
Proof.
  unfold in_grid.
  destruct (lt_dec i (length g)); [|right; tauto].
  destruct (lt_dec j (length (nth i g []))); [left|right]; tauto.
Qed.

(** ** Pixel carriers obey the laws *)

Lemma PixelRef_eq_dec (r r' : PixelRef) : {r = r'} + {r <> r'}.
Proof. repeat decide equality. Qed.

Lemma sample_set_sample_same (ch : Channel) (f : Z -> Z) (p : Pixel) :
  sample (set_sample ch f p) ch = f (sample p ch).
Proof. now destruct ch. Qed.

Lemma sample_set_sample_other (ch ch' : Channel) (f : Z -> Z) (p : Pixel) :
  ch <> ch' -> sample (set_sample ch f p) ch' = sample p ch'.
Proof. destruct ch, ch'; intros H; try reflexivity; now elim H. Qed.

(** Writing never touches the alpha sample. *)
Lemma alpha_set_sample (ch : Channel) (f : Z -> Z) (p : Pixel) :
  alpha (set_sample ch f p) = alpha p.
Proof. now destruct ch. Qed.

Lemma pixel_refs_key (y x : nat) (r : PixelRef) :
  In r (pixel_refs y x) -> fst (fst r) = y /\ snd (fst r) = x.
Proof.
  unfold pixel_refs. intros [<-|[<-|[<-|[]]]]; auto.
Qed.

Lemma row_refs_key (y : nat) (row : list Pixel) (r : PixelRef) :
  In r (row_refs y row) -> fst (fst r) = y /\ (snd (fst r) < length row)%nat.
Proof.
  unfold row_refs. intros H. apply in_flat_map in H. destruct H as (x & Hx & Hr).
  apply in_seq in Hx. apply pixel_refs_key in Hr. destruct Hr as [-> ->]. split; [reflexivity|lia].
Qed.

Lemma pixel_units_valid (c : PixelCarrier) (r : PixelRef) :
  In r (pixel_units c) -> pixel_valid c r.
Proof.
  unfold pixel_units, pixel_valid, in_grid. intros H.
  apply in_flat_map in H. destruct H as (y & Hy & Hr).
  apply in_seq in Hy. apply row_refs_key in Hr. destruct Hr as [-> Hx].
  split; [lia|assumption].
Qed.

Lemma pixel_units_NoDup (c : PixelCarrier) : NoDup (pixel_units c).
Proof.
  unfold pixel_units.
  apply NoDup_flat_map_keyed with (key := fun r : PixelRef => fst (fst r)).
  - apply seq_NoDup.
  - intros y. unfold row_refs.
    apply NoDup_flat_map_keyed with (key := fun r : PixelRef => snd (fst r)).
    + apply seq_NoDup.
    + intros x. unfold pixel_refs.
      repeat constructor; simpl; intuition congruence.
    + intros x r Hr. now apply pixel_refs_key in Hr.
  - intros y r Hr. now apply row_refs_key in Hr.
Qed.

(** The enumeration of a pixel carrier depends on the shape of the grid
    alone. *)
Lemma pixel_units_shape (c c' : PixelCarrier) :
  length (rows c) = length (rows c') ->
  (forall y, length (nth y (rows c) []) = length (nth y (rows c') [])) ->
  pixel_units c = pixel_units c'.
Proof.
  intros Hh Hw. unfold pixel_units. rewrite Hh.
  apply flat_map_ext. intros y. unfold row_refs. now rewrite Hw.
Qed.

Lemma pixel_set_units (c : PixelCarrier) (r : PixelRef) (b : bool) :
  pixel_units (pixel_set c r b) = pixel_units c.
Proof.
  destruct r as [[y x] ch]. apply pixel_units_shape; cbn [pixel_set rows].
  - apply (@gupd_length _ (rows c) y x).
  - intros y'. apply (@gupd_row_length _ (rows c) y x).
Qed.

Lemma pixel_valid_set (c : PixelCarrier) (r r' : PixelRef) (b : bool) :
  pixel_valid c r -> pixel_valid (pixel_set c r' b) r.
Proof.
  destruct r' as [[y x] ch]. unfold pixel_valid. cbn [pixel_set rows].
  apply (@in_grid_gupd _ (rows c) y x).
Qed.

Lemma pixel_value_same (c : PixelCarrier) (r : PixelRef) (b : bool) :
  pixel_valid c r -> pixel_value (pixel_set c r b) r = set_lsb (pixel_value c r) b.
Proof.
  destruct r as [[y x] ch]. unfold pixel_valid. cbn [fst snd pixel_value pixel_set rows].
  intros Hin.
  change (sample (cell (gupd (rows c) y x (set_sample ch (fun v => set_lsb v b))) y x black) ch
          = set_lsb (sample (cell (rows c) y x black) ch) b).
  rewrite cell_gupd_same by assumption. apply sample_set_sample_same.
Qed.

Lemma pixel_value_other (c : PixelCarrier) (r r' : PixelRef) (b : bool) :
  r <> r' -> pixel_value (pixel_set c r b) r' = pixel_value c r'.
Proof.
  destruct r as [[y x] ch], r' as [[y' x'] ch']. cbn [pixel_value pixel_set rows].
  intros Hne.
  change (sample (cell (gupd (rows c) y x (set_sample ch (fun v => set_lsb v b))) y' x' black) ch'
          = sample (cell (rows c) y' x' black) ch').
  destruct (PixelRef_eq_dec (y, x, ch') (y', x', ch')) as [E|Hyx].
  - injection E as <- <-.
    destruct (in_grid_dec (rows c) y x) as [Hin|Hout].
    + rewrite cell_gupd_same by assumption.
      apply sample_set_sample_other. intros ->. now apply Hne.
    + now rewrite gupd_outside.
  - rewrite cell_gupd_other; [reflexivity|]. intros E. apply Hyx. congruence.
Qed.

#[export] Instance PixelCarrier_Laws
  : @CarrierLaws PixelCarrier PixelCarrier_Carrier := {|
  valid := pixel_valid;
  steady := fun _ => True;
  ref_eq_dec := PixelRef_eq_dec;
  units_valid := pixel_units_valid;
  units_NoDup := pixel_units_NoDup;
  valid_setUnitBit := pixel_valid_set;
  unitValue_same := pixel_value_same;
  unitValue_other := pixel_value_other;
  units_steady := fun c r b _ _ => pixel_set_units c r b;
  steady_setUnitBit := fun _ _ _ _ _ => I
|}.

(** ** Coefficient carriers obey the laws *)

Lemma set_lsb_one (v : Z) (bit : bool) : set_lsb v bit = 1 -> v = 0 \/ v = 1.
Proof.
  rewrite set_lsb_spec.
  pose proof (Z.div_mod v 2 ltac:(lia)). pose proof (Z.mod_pos_bound v 2 ltac:(lia)).
  destruct bit; cbn [Z.b2z]; lia.
Qed.

Lemma CoefRef_eq_dec (r r' : CoefRef) : {r = r'} + {r <> r'}.
Proof. repeat decide equality. Qed.

Section CoefficientLaws.
Context {P : Params}.

Lemma embeddable_nonzero (v : Z) : embeddable v = true -> v <> 0.
Proof.
  unfold embeddable. intros H.
  apply andb_prop in H. destruct H as [H _].
  apply andb_prop in H. destruct H as [H _].
  apply negb_true_iff, Z.eqb_neq in H. exact H.
Qed.

Lemma embeddable_set_lsb (v : Z) (bit : bool) :
  embeddable v = true -> v <> 1 -> embeddable (set_lsb v bit) = true.
Proof.
  intros He H1. pose proof (embeddable_nonzero He) as H0.
  unfold embeddable in *. rewrite !set_lsb_set_lsb.
  apply andb_prop in He. destruct He as [He Hmax].
  apply andb_prop in He. destruct He as [_ Hmin].
  rewrite Hmin, Hmax, !andb_true_r.
  apply negb_true_iff, Z.eqb_neq. intros Hz.
  apply set_lsb_zero in Hz. tauto.
Qed.

Lemma in_block_refs (c : CoefficientCarrier) (i : nat) (r : CoefRef) :
  In r (block_refs c i) <->
  fst r = i /\ (1 <= snd r < length (nth i (blocks c) []))%nat
  /\ embeddable (coef c i (snd r)) = true.
Proof.
  unfold block_refs. rewrite in_map_iff. split.
  - intros (j & <- & Hj). apply filter_In in Hj. destruct Hj as [Hj He].
    apply in_seq in Hj. cbn [fst snd]. repeat split; try lia. exact He.
  - intros (Hi & Hj & He). exists (snd r). split.
    + destruct r; cbn [fst snd] in *; now subst.
    + apply filter_In. split; [apply in_seq; lia | exact He].
Qed.

Lemma in_coef_units (c : CoefficientCarrier) (r : CoefRef) :
  In r (coef_units c) <->
  (fst r < length (blocks c))%nat
  /\ (1 <= snd r < length (nth (fst r) (blocks c) []))%nat
  /\ embeddable (coef_value c r) = true.
Proof.
  unfold coef_units, coef_value. rewrite in_flat_map. split.
  - intros (i & Hi & Hr). apply in_seq in Hi. apply in_block_refs in Hr.
    destruct Hr as (-> & Hj & He). repeat split; try lia. exact He.
  - intros (Hi & Hj & He). exists (fst r). split.
    + apply in_seq. lia.
    + apply in_block_refs. auto.
Qed.

Lemma coef_units_valid (c : CoefficientCarrier) (r : CoefRef) :
  In r (coef_units c) -> coef_valid c r.
Proof.
  intros H. apply in_coef_units in H. unfold coef_valid, in_grid. lia.
Qed.

Lemma coef_units_NoDup (c : CoefficientCarrier) : NoDup (coef_units c).
Proof.
  unfold coef_units.
  apply NoDup_flat_map_keyed with (key := fun r : CoefRef => fst r).
  - apply seq_NoDup.
  - intros i. unfold block_refs. apply NoDup_map_injective.
    + intros x y E. now injection E.
    + apply NoDup_filter, seq_NoDup.
  - intros i r Hr. now apply in_block_refs in Hr.
Qed.

Lemma coef_valid_set (c : CoefficientCarrier) (r r' : CoefRef) (b : bool) :
  coef_valid c r -> coef_valid (coef_set c r' b) r.
Proof.
  unfold coef_valid. cbn [coef_set blocks].
  apply (@in_grid_gupd _ (blocks c) (fst r') (snd r')).
Qed.

Lemma coef_value_same (c : CoefficientCarrier) (r : CoefRef) (b : bool) :
  coef_valid c r -> coef_value (coef_set c r b) r = set_lsb (coef_value c r) b.
Proof.
  unfold coef_valid. intros Hin.
  change (cell (gupd (blocks c) (fst r) (snd r) (fun v => set_lsb v b)) (fst r) (snd r) 0
          = set_lsb (cell (blocks c) (fst r) (snd r) 0) b).
  now rewrite cell_gupd_same.
Qed.

Lemma coef_value_other (c : CoefficientCarrier) (r r' : CoefRef) (b : bool) :
  r <> r' -> coef_value (coef_set c r b) r' = coef_value c r'.
Proof.
  intros Hne.
  change (cell (gupd (blocks c) (fst r) (snd r) (fun v => set_lsb v b)) (fst r') (snd r') 0
          = cell (blocks c) (fst r') (snd r') 0).
  apply cell_gupd_other. destruct r, r'. exact Hne.
Qed.

Lemma coef_set_units (c : CoefficientCarrier) (r : CoefRef) (b : bool) :
  coef_steady c -> In r (coef_units c) -> coef_units (coef_set c r b) = coef_units c.
Proof.
  intros Hs Hr. unfold coef_units. cbn [coef_set blocks].
  change (upd (blocks c) (fst r) (fun blk => upd blk (snd r) (fun v => set_lsb v b)))
    with (gupd (blocks c) (fst r) (snd r) (fun v => set_lsb v b)).
  rewrite gupd_length. apply flat_map_ext. intros i.
  unfold block_refs. cbn [coef_set blocks].
  change (upd (blocks c) (fst r) (fun blk => upd blk (snd r) (fun v => set_lsb v b)))
    with (gupd (blocks c) (fst r) (snd r) (fun v => set_lsb v b)).
  rewrite gupd_row_length. f_equal. apply filter_ext. intros j.
  destruct (CoefRef_eq_dec r (i, j)) as [E|Hne].
  - change (coef (coef_set c r b) i j) with (coef_value (coef_set c r b) (i, j)).
    change (coef c i j) with (coef_value c (i, j)).
    rewrite <- E, coef_value_same by now apply coef_units_valid.
    pose proof (proj1 (in_coef_units c r) Hr) as (_ & _ & He).
    rewrite He. apply embeddable_set_lsb; auto.
  - change (coef (coef_set c r b) i j) with (coef_value (coef_set c r b) (i, j)).
    now rewrite coef_value_other.
Qed.

Lemma coef_steady_set (c : CoefficientCarrier) (r : CoefRef) (b : bool) :
  coef_steady c -> In r (coef_units c) -> coef_steady (coef_set c r b).
Proof.
  intros Hs Hr r' Hr'. rewrite coef_set_units in Hr' by assumption.
  destruct (CoefRef_eq_dec r r') as [<-|Hne].
  - rewrite coef_value_same by now apply coef_units_valid.
    intros H1. apply set_lsb_one in H1.
    pose proof (proj1 (in_coef_units c r) Hr) as (_ & _ & He).
    apply embeddable_nonzero in He. specialize (Hs r Hr). tauto.
  - rewrite coef_value_other by assumption. now apply Hs.
Qed.

#[export] Instance CoefficientCarrier_Laws
  : @CarrierLaws CoefficientCarrier (@CoefficientCarrier_Carrier P) :=
  @Build_CarrierLaws CoefficientCarrier (@CoefficientCarrier_Carrier P)
    coef_valid coef_steady CoefRef_eq_dec
    coef_units_valid coef_units_NoDup coef_valid_set
    coef_value_same coef_value_other coef_set_units coef_steady_set.

End CoefficientLaws.

(** ** Frame codec *)

Lemma firstn_length_app {A} (a b : list A) : firstn (length a) (a ++ b) = a.
Proof. induction a as [|x a IH]; simpl; [reflexivity|now rewrite IH]. Qed.

Lemma skipn_length_app {A} (a b : list A) : skipn (length a) (a ++ b) = b.
Proof. induction a as [|x a IH]; simpl; auto. Qed.

Lemma scan_eq (term l : list byte) :
  scan term l = if starts_with term l then Some []
                else match l with
                     | [] => None
                     | x :: l' => option_map (cons x) (scan term l')
                     end.
Proof. destruct l; reflexivity. Qed.

Lemma starts_with_self (pat rest : list byte) : starts_with pat (pat ++ rest) = true.
Proof.
  induction pat as [|p pat IH]; simpl; [reflexivity|].
  rewrite IH, andb_true_r. now apply Byte.byte_dec_lb.
Qed.

Lemma starts_with_app_false (pat l rest : list byte) :
  (length pat <= length l)%nat -> starts_with pat l = false ->
  starts_with pat (l ++ rest) = false.
Proof.
  revert l. induction pat as [|p pat IH]; intros [|x l] Hl H; simpl in *;
    try discriminate; try lia.
  destruct (Byte.eqb p x); simpl in *; [|reflexivity].
  apply IH; [lia|assumption].
Qed.

(** When the first terminator in [inner ++ term] is the appended one, it
    is still the first one with more bytes behind it. *)
Lemma scan_app (term inner rest : list byte) :
  scan term (inner ++ term) = Some inner ->
  scan term ((inner ++ term) ++ rest) = Some inner.
Proof.
  induction inner as [|x inner IH]; intros H.
  - rewrite scan_eq. cbn [app]. now rewrite starts_with_self.
  - rewrite scan_eq in H. rewrite scan_eq. cbn [app] in *.
    destruct (starts_with term (x :: inner ++ term)) eqn:Hs; [discriminate|].
    change (x :: (inner ++ term) ++ rest) with ((x :: inner ++ term) ++ rest).
    rewrite starts_with_app_false; [|idtac|assumption].
    + cbn [app]. destruct (scan term (inner ++ term)) as [found|] eqn:Hf;
        [|discriminate].
      injection H as ->. now rewrite IH.
    + clear -Hs. cbn [length]. rewrite length_app. lia.
Qed.

(** What [scan] returns is followed by the terminator in the stream. *)
Lemma scan_sound (term l found : list byte) :
  scan term l = Some found -> exists rest, l = (found ++ term ++ rest)%list.
Proof.
  assert (Hsw : forall pat l, starts_with pat l = true -> exists rest, l = (pat ++ rest)%list).
  { induction pat as [|p pat IHp]; intros [|x l'] H; simpl in H; try discriminate.
    - now exists [].
    - now exists (x :: l').
    - apply andb_prop in H. destruct H as [Hp H].
      apply Byte.byte_dec_bl in Hp. subst.
      destruct (IHp l' H) as [rest ->]. now exists rest. }
  revert found. induction l as [|x l IH]; intros found H; rewrite scan_eq in H.
  - destruct (starts_with term []) eqn:Hs; [|discriminate].
    injection H as <-. now apply Hsw.
  - destruct (starts_with term (x :: l)) eqn:Hs.
    + injection H as <-. now apply Hsw.
    + destruct (scan term l) as [f|]; [|discriminate].
      injection H as <-. destruct (IH f eq_refl) as [rest ->]. now exists rest.
Qed.

Lemma tag_length_eq (fam : Family) (encrypted : bool) :
  length (tag fam encrypted) = tag_length fam.
Proof. now destruct fam, encrypted. Qed.

Section FrameFacts.
Context {P : Params}.

Lemma frame_length (inner : list byte) (encrypted : bool) (fam : Family) :
  length (frame inner encrypted fam)
  = (tag_length fam + length inner + length (terminator fam))%nat.
Proof.
  unfold frame. rewrite !length_app, tag_length_eq. lia.
Qed.

(** Unframing the bits of a frame, whatever follows them in the
    carrier. *)
Lemma unframe_frame (fam : Family) (encrypted : bool) (inner : list byte) (rest : list bool) :
  scan (terminator fam) (inner ++ terminator fam) = Some inner ->
  unframe (bitsOf (frame inner encrypted fam) ++ rest) fam = Ok (encrypted, inner).
Proof.
  intros Hscan. unfold unframe, frame.
  rewrite whole_bytes_bitsOf, <- app_assoc.
  rewrite <- (tag_length_eq fam encrypted).
  rewrite firstn_length_app, skipn_length_app.
  rewrite scan_app by assumption.
  now destruct fam, encrypted.
Qed.

End FrameFacts.

(** ** Padding *)

Lemma forallb_repeat (b : byte) (n : nat) : forallb (Byte.eqb b) (repeat b n) = true.
Proof.
  induction n as [|n IH]; simpl; [reflexivity|].
  rewrite IH, andb_true_r. now apply Byte.byte_dec_lb.
Qed.

Lemma to_nat_byte_of_nat (n : nat) : (n <= 255)%nat -> Byte.to_nat (byte_of_nat n) = n.
Proof.
  intros Hn. unfold byte_of_nat.
  destruct (Byte.of_nat n) as [b|] eqn:E.
  - now apply Byte.to_of_nat.
  - apply Byte.of_nat_None_iff in E. lia.
Qed.

Lemma pad_length_bounds (data : list byte) : (1 <= pad_length data <= 16)%nat.
Proof.
  unfold pad_length, block_size.
  pose proof (Nat.mod_upper_bound (length data) 16 ltac:(lia)). lia.
Qed.

Lemma pkcs7_pad_length (data : list byte) :
  length (pkcs7_pad data) = (length data + pad_length data)%nat.
Proof.
  unfold pkcs7_pad. fold (pad_length data). now rewrite length_app, repeat_length.
Qed.

(** Padded data is made of whole blocks. *)
Lemma pkcs7_pad_aligned (data : list byte) : (length (pkcs7_pad data) mod 16 = 0)%nat.
Proof.
  rewrite pkcs7_pad_length. unfold pad_length, block_size.
  pose proof (Nat.div_mod_eq (length data) 16) as E.
  pose proof (Nat.mod_upper_bound (length data) 16 ltac:(lia)) as Hlt.
  replace (length data + (16 - length data mod 16))%nat
    with ((length data / 16 + 1) * 16)%nat by lia.
  apply Nat.Div0.mod_mul.
Qed.

(** Unpadding undoes padding. *)
Lemma pkcs7_unpad_pad (data : list byte) : pkcs7_unpad (pkcs7_pad data) = Some data.
Proof.
  pose proof (pad_length_bounds data) as Hn.
  unfold pkcs7_unpad. rewrite pkcs7_pad_length.
  unfold pkcs7_pad. fold (pad_length data).
  set (n := pad_length data) in *.
  rewrite rev_app_distr, rev_repeat.
  destruct n as [|n'] eqn:En; [lia|]. cbn [repeat app].
  rewrite to_nat_byte_of_nat by lia.
  replace (length data + S n' - S n')%nat with (length data) by lia.
  rewrite firstn_length_app.
  change (byte_of_nat (S n') :: repeat (byte_of_nat (S n')) n')
    with (repeat (byte_of_nat (S n')) (S n')).
  rewrite skipn_length_app, forallb_repeat.
  replace (S n' <=? block_size)%nat with true
    by (symmetry; apply Nat.leb_le; unfold block_size; lia).
  replace (S n' <=? length data + S n')%nat with true
    by (symmetry; apply Nat.leb_le; lia).
  reflexivity.
Qed.

(** ** The pipeline, step by step *)

Section PipelineFacts.
Context {P : Params} {C : Type} {HC : Carrier C}.

(** The three outcomes of encode. *)
Lemma encode_run (message password : list byte) (g : Rng) (c : C) :
  encode message password g c =
  match message with
  | [] => (Err EmptyPayloadError, c)
  | _ :: _ =>
      if usable_bytes c (negb (absent password)) <? Z.of_nat (length message)
      then (Err InsufficientCapacityError, c)
      else (Ok tt, write_bits c (units c) (bitsOf (framed_bytes message password g)))
  end.
Proof.
  unfold encode, check_capacity, validate, bind, inspect, mutate, ret, fail.
  destruct message as [|x message]; [reflexivity|].
  destruct (usable_bytes c (negb (absent password)) <? Z.of_nat (length (x :: message)));
    reflexivity.
Qed.

Lemma encode_carrier_run (message password : list byte) (g : Rng) (c : C) :
  encode_carrier c message password g =
  match message with
  | [] => Err EmptyPayloadError
  | _ :: _ =>
      if usable_bytes c (negb (absent password)) <? Z.of_nat (length message)
      then Err InsufficientCapacityError
      else Ok (write_bits c (units c) (bitsOf (framed_bytes message password g)))
  end.
Proof.
  unfold encode_carrier. rewrite encode_run.
  destruct message as [|x message]; [reflexivity|].
  destruct (usable_bytes c (negb (absent password)) <? Z.of_nat (length (x :: message)));
    reflexivity.
Qed.

(** Decode leaves the carrier as it found it. *)
Lemma decode_run (password : list byte) (c : C) :
  decode password c = (decode_carrier c password, c).
Proof.
  unfold decode_carrier, decode, bind, inspect, ret, fail.
  destruct (unframe (read_bits c) family) as [[[|] inner]|e]; try reflexivity.
  destruct (absent password); [reflexivity|].
  destruct (decrypt _ _ _ password); reflexivity.
Qed.

(** Decode as a function of the unframed stream. *)
Lemma decode_carrier_run (password : list byte) (c : C) :
  decode_carrier c password =
  match unframe (read_bits c) family with
  | Err e => Err e
  | Ok (true, inner) =>
      if absent password then Err PasswordRequiredError
      else decrypt (firstn 16 inner) (firstn 16 (skipn 16 inner)) (skipn 32 inner) password
  | Ok (false, inner) => Ok inner
  end.
Proof.
  unfold decode_carrier, decode, bind, inspect, ret, fail.
  destruct (unframe (read_bits c) family) as [[[|] inner]|e]; try reflexivity.
  destruct (absent password); [reflexivity|].
  destruct (decrypt _ _ _ password); reflexivity.
Qed.

Lemma usable_bytes_eq (c : C) (encrypted : bool) :
  usable_bytes c encrypted
  = Z.of_nat (capacity c / 8)
    - Z.of_nat (tag_length family + length (terminator family)
                + (if encrypted then 32 else 0)).
Proof. reflexivity. Qed.

Lemma random_bytes_length (n : nat) (g : Rng) : length (fst (random_bytes n g)) = n.
Proof. unfold random_bytes. cbn [fst]. now rewrite length_map, length_seq. Qed.

(** Decode splits the inner bytes of an encrypted frame at 16 and 32. *)
Lemma split_inner (salt iv ciphertext : list byte) :
  length salt = 16%nat -> length iv = 16%nat ->
  firstn 16 (salt ++ iv ++ ciphertext) = salt
  /\ firstn 16 (skipn 16 (salt ++ iv ++ ciphertext)) = iv
  /\ skipn 32 (salt ++ iv ++ ciphertext) = ciphertext.
Proof.
  intros Hs Hi.
  assert (E : skipn 16 (salt ++ iv ++ ciphertext) = (iv ++ ciphertext)%list)
    by (rewrite <- Hs; apply skipn_length_app).
  split; [rewrite <- Hs; apply firstn_length_app|].
  split; [rewrite E, <- Hi; apply firstn_length_app|].
  change 32%nat with (16 + 16)%nat. rewrite <- skipn_skipn, E, <- Hi.
  apply skipn_length_app.
Qed.

(** The inner bytes of an encrypted frame: salt, iv, ciphertext. *)
Lemma inner_bytes_encrypted (message password : list byte) (g : Rng) :
  absent password = false ->
  exists salt iv,
    length salt = 16%nat /\ length iv = 16%nat
    /\ inner_bytes message password g
       = (salt ++ iv ++ aes_cbc_encrypt (deriveKey password salt) iv (pkcs7_pad message))%list.
Proof.
  intros Hp. unfold inner_bytes, encrypt. rewrite Hp.
  pose proof (random_bytes_length 16 g) as Hs.
  destruct (random_bytes 16 g) as [salt g1]. cbn [fst] in Hs.
  pose proof (random_bytes_length 16 g1) as Hi.
  destruct (random_bytes 16 g1) as [iv g2]. cbn [fst] in Hi.
  exists salt, iv. auto.
Qed.

Lemma framed_bytes_length (message password : list byte) (g : Rng) :
  length (framed_bytes message password g)
  = (tag_length family + length (inner_bytes message password g)
     + length (terminator family))%nat.
Proof. unfold framed_bytes. apply frame_length. Qed.

(** Without a password the capacity check guarantees the frame fits. *)
Lemma plain_frame_fits (c : C) (message : list byte) (g : Rng) :
  Z.of_nat (length message) <= usable_bytes c false ->
  (length (bitsOf (framed_bytes message [] g)) <= capacity c)%nat.
Proof.
  rewrite usable_bytes_eq, bitsOf_length, framed_bytes_length. cbn [inner_bytes absent].
  intros H. pose proof (Nat.Div0.mul_div_le (capacity c) 8). lia.
Qed.

(** With a password the frame fits when the padded message does. *)
Lemma encrypted_frame_fits (c : C) (message password : list byte) (g : Rng) :
  cipher_keeps_length P -> absent password = false ->
  Z.of_nat (length (pkcs7_pad message)) <= usable_bytes c true ->
  (length (bitsOf (framed_bytes message password g)) <= capacity c)%nat.
Proof.
  intros Hk Hp. rewrite usable_bytes_eq, bitsOf_length, framed_bytes_length.
  destruct (@inner_bytes_encrypted message password g Hp) as (salt & iv & Hs & Hi & ->).
  rewrite !length_app, Hk, Hs, Hi by apply pkcs7_pad_aligned.
  intros H. pose proof (Nat.Div0.mul_div_le (capacity c) 8). lia.
Qed.

Context {HL : CarrierLaws C}.

(** The round trip, given that the frame fits in the carrier, that the
    enumeration is steady, and that the terminator does not occur in the
    inner bytes followed by the terminator before its end. *)
Lemma round_trip_framed (c : C) (message password : list byte) (g : Rng) :
  cipher_inverts P -> steady c -> message <> [] ->
  Z.of_nat (length message) <= usable_bytes c (negb (absent password)) ->
  (length (bitsOf (framed_bytes message password g)) <= capacity c)%nat ->
  scan (terminator family) (inner_bytes message password g ++ terminator family)
  = Some (inner_bytes message password g) ->
  exists c', encode_carrier c message password g = Ok c'
             /\ decode_carrier c' password = Ok message.
Proof.
  intros Hinv Hs Hne Hcap Hfit Hscan.
  eexists. split.
  - rewrite encode_carrier_run. destruct message as [|x message]; [now elim Hne|].
    apply Z.ltb_ge in Hcap. rewrite Hcap. reflexivity.
  - rewrite decode_carrier_run, read_bits_write_bits by assumption.
    unfold framed_bytes. rewrite unframe_frame by assumption.
    destruct (absent password) eqn:Hp; cbn [negb].
    + unfold inner_bytes. now rewrite Hp.
    + destruct (@inner_bytes_encrypted message password g Hp) as (salt & iv & Hls & Hli & ->).
      destruct (split_inner salt iv
                  (aes_cbc_encrypt (deriveKey password salt) iv (pkcs7_pad message))
                  Hls Hli) as (-> & -> & ->).
      unfold decrypt.
      now rewrite Hinv, pkcs7_unpad_pad by apply pkcs7_pad_aligned.
Qed.

End PipelineFacts.

(** ** The sample parameters meet the cipher contract *)

Lemma byte_xor_involutive (m x : byte) : Sample.byte_xor m (Sample.byte_xor m x) = x.
Proof.
  unfold Sample.byte_xor. rewrite Byte.to_bits_of_bits.
  pose proof (Byte.of_bits_to_bits x) as E.
  destruct (Byte.to_bits x) as [x0 [x1 [x2 [x3 [x4 [x5 [x6 x7]]]]]]].
  destruct (Byte.to_bits m) as [m0 [m1 [m2 [m3 [m4 [m5 [m6 m7]]]]]]].
  cbn [Sample.xor_bits].
  rewrite <- !xorb_assoc, !xorb_nilpotent, !xorb_false_l. exact E.
Qed.

Lemma sample_cipher_inverts : cipher_inverts Sample.sampleParams.
Proof.
  intros key iv data _. cbn. unfold Sample.mask_cipher. rewrite map_map.
  rewrite <- (map_id data) at 2. apply map_ext. intros x.
  apply byte_xor_involutive.
Qed.

Lemma sample_cipher_keeps_length : cipher_keeps_length Sample.sampleParams.
Proof. intros key iv data _. cbn. unfold Sample.mask_cipher. apply length_map. Qed.

(** ** Round trip *)

Section RoundTrip.
Context {P : Params}.

Lemma round_trip_lawful {C : Type} {HC : Carrier C} {HL : CarrierLaws C}
  (c : C) (message password : list byte) (g : Rng) :
  cipher_inverts P -> cipher_keeps_length P -> message <> [] ->
  steady c -> readable c message password g ->
  exists c', encode_carrier c message password g = Ok c'
             /\ decode_carrier c' password = Ok message.
Proof.
  intros Hinv Hk Hne Hs (Hcap & Hpad & Hscan).
  apply round_trip_framed; auto.
  destruct (absent password) eqn:Hp.
  - destruct password; [|discriminate]. now apply plain_frame_fits.
  - apply encrypted_frame_fits; auto.
Qed.


End RoundTrip.

(** Deciding steadiness of a concrete coefficient carrier. *)
Lemma coef_steady_check {P : Params} (c : CoefficientCarrier) :
  forallb (fun r => negb (coef_value c r =? 1)) (coef_units c) = true -> coef_steady c.
Proof.
  intros H r Hr. rewrite forallb_forall in H. specialize (H r Hr).
  apply negb_true_iff, Z.eqb_neq in H. exact H.
Qed.

(** ** Capacity boundary *)

Section Outcomes.
Context {P : Params} {C : Type} {HC : Carrier C}.


(** ** All or nothing *)


(** ** Passwords *)

(** C6.  When the frame in the carrier says encrypted, decoding with the
    empty password fails with [PasswordRequiredError]; when it says
    plain, decode returns the inner bytes whatever password is given, and
    so never asks for one. *)
Theorem missing_password (c : C) (encrypted : bool) (inner password : list byte) :
  unframe (read_bits c) family = Ok (encrypted, inner) ->
  (encrypted = true -> decode_carrier c [] = Err PasswordRequiredError)
  /\ (encrypted = false ->
      decode_carrier c password = Ok inner
      /\ decode_carrier c password <> Err PasswordRequiredError).
Proof.
  intros Hu. rewrite !decode_carrier_run, Hu.
  split; intros ->; [reflexivity|]. split; [reflexivity|discriminate].
Qed.


End Outcomes.

(** ** The coefficient invariant *)

Lemma gupd_shape {A} (g : list (list A)) (i j : nat) (f : A -> A) :
  map (@length A) (gupd g i j f) = map (@length A) g.
Proof.
  unfold gupd. revert i. induction g as [|row g IH]; intros [|i]; simpl; auto.
  - now rewrite upd_length.
  - now rewrite IH.
Qed.

Section CoefficientInvariant.
Context {P : Params}.

(** C4.  After a successful encode of a coefficient carrier the block
    structure is the same, every coefficient differs from its original
    value by 0, +1 or -1, no DC coefficient (index 0 of a block) and no
    zero-valued coefficient has changed, and every coefficient that did
    change was an embeddable unit of the original carrier. *)
Theorem coefficient_invariant (c c' : CoefficientCarrier)
  (message password : list byte) (g : Rng) :
  encode_carrier c message password g = Ok c' ->
  map (@length Z) (blocks c') = map (@length Z) (blocks c)
  /\ forall i j,
       (coef c' i j - coef c i j = 0
        \/ coef c' i j - coef c i j = 1
        \/ coef c' i j - coef c i j = -1)
       /\ (j = 0%nat -> coef c' i j = coef c i j)
       /\ (coef c i j = 0 -> coef c' i j = 0)
       /\ (coef c' i j <> coef c i j -> In (i, j) (coef_units c)).
Proof.
  rewrite encode_carrier_run.
  destruct message as [|x message]; [discriminate|].
  destruct (usable_bytes c (negb (absent password)) <? Z.of_nat (length (x :: message)));
    [discriminate|].
  intros [= <-].
  set (bits := bitsOf (framed_bytes (x :: message) password g)).
  split.
  - apply (write_bits_keeps
             (fun d : CoefficientCarrier => map (@length Z) (blocks d) = map (@length Z) (blocks c))).
    + intros d r b Hd. rewrite <- Hd. apply (@gupd_shape Z (blocks d) (fst r) (snd r)).
    + reflexivity.
  - intros i j.
    destruct (@write_bits_cell CoefficientCarrier _ CoefficientCarrier_Laws
                (units c) bits c (i, j) (units_NoDup c) (units_valid c))
      as [E|[Hin [b E]]].
    + change (coef (write_bits c (coef_units c) bits) i j = coef c i j) in E.
      rewrite E. repeat split; auto; try lia; intros H; now elim H.
    + change (coef (write_bits c (coef_units c) bits) i j = set_lsb (coef c i j) b) in E.
      pose proof (proj1 (in_coef_units c (i, j)) Hin) as (_ & Hj & He).
      apply embeddable_nonzero in He. change (coef c i j <> 0) in He.
      cbn [fst snd] in Hj.
      pose proof (set_lsb_close (coef c i j) b) as Hclose.
      rewrite E. split; [lia|]. split; [lia|].
      split; [intros H0; contradiction | intros _; exact Hin].
Qed.

End CoefficientInvariant.

(** ** Enumeration order *)

(** Indexing a concatenation of lists of one common length. *)
Lemma nth_error_flat_map_const {A B} (f : A -> list B) (m : nat) (l : list A) (k : nat) :
  (0 < m)%nat -> (forall a, In a l -> length (f a) = m) ->
  nth_error (flat_map f l) k
  = match nth_error l (k / m) with
    | Some a => nth_error (f a) (k mod m)
    | None => None
    end.
Proof.
  intros Hm. revert k. induction l as [|a l IH]; intros k Hlen.
  - cbn [flat_map]. destruct (k / m)%nat; now destruct k.
  - cbn [flat_map]. assert (Ha : length (f a) = m) by (apply Hlen; now left).
    destruct (lt_dec k m) as [Hlt|Hge].
    + rewrite nth_error_app1 by lia.
      now rewrite Nat.div_small, Nat.mod_small by assumption.
    + set (k' := (k - m)%nat). replace k with (k' + 1 * m)%nat by (unfold k'; lia).
      rewrite nth_error_app2 by lia.
      rewrite Nat.div_add, Nat.Div0.mod_add by lia.
      replace (k' + 1 * m - length (f a))%nat with k' by lia.
      replace (k' / m + 1)%nat with (S (k' / m)) by lia. cbn [nth_error].
      apply IH. intros a' Ha'. apply Hlen. now right.
Qed.

Lemma row_refs_length (y : nat) (row : list Pixel) :
  length (row_refs y row) = (3 * length row)%nat.
Proof.
  unfold row_refs. rewrite flat_map_constant_length with (c := 3%nat).
  - rewrite length_seq. lia.
  - reflexivity.
Qed.

Lemma nth_error_row_refs (y : nat) (row : list Pixel) (k : nat) :
  (k < 3 * length row)%nat ->
  nth_error (row_refs y row) k = Some (y, (k / 3)%nat, channel_of (k mod 3)).
Proof.
  intros Hk. unfold row_refs.
  rewrite nth_error_flat_map_const with (m := 3%nat) by (auto; lia).
  rewrite nth_error_seq.
  assert (Hx : (k / 3 < length row)%nat) by (apply Nat.Div0.div_lt_upper_bound; lia).
  apply Nat.ltb_lt in Hx. rewrite Hx. cbn [Nat.add].
  pose proof (Nat.mod_upper_bound k 3 ltac:(lia)) as Hc.
  destruct (k mod 3)%nat as [|[|[|n]]]; try reflexivity. lia.
Qed.

Section Raster.
Variables (c : PixelCarrier) (w h : nat).
Hypothesis height_is : length (rows c) = h.
Hypothesis width_is : forall row, In row (rows c) -> length row = w.

Lemma row_width (y : nat) : (y < h)%nat -> length (nth y (rows c) []) = w.
Proof. intros Hy. apply width_is, nth_In. lia. Qed.

(** A [w] by [h] grid offers three units per pixel. *)
Lemma pixel_capacity : length (pixel_units c) = (3 * w * h)%nat.
Proof.
  unfold pixel_units. rewrite flat_map_constant_length with (c := (3 * w)%nat).
  - rewrite length_seq. lia.
  - intros y Hy. apply in_seq in Hy. rewrite row_refs_length, row_width; lia.
Qed.

(** The [k]-th unit is channel [k mod 3] of the pixel in row
    [k / (3 w)], column [(k / 3) mod w]. *)
Lemma pixel_units_raster (k : nat) :
  (k < 3 * w * h)%nat ->
  nth_error (pixel_units c) k
  = Some ((k / (3 * w))%nat, ((k / 3) mod w)%nat, channel_of (k mod 3)).
Proof.
  intros Hk. assert (Hw : (0 < w)%nat) by (destruct w; lia).
  unfold pixel_units.
  rewrite nth_error_flat_map_const with (m := (3 * w)%nat); [|lia|].
  - rewrite nth_error_seq.
    assert (Hy : (k / (3 * w) < h)%nat) by (apply Nat.Div0.div_lt_upper_bound; lia).
    rewrite height_is. rewrite (proj2 (Nat.ltb_lt _ _) Hy). cbn [Nat.add].
    pose proof (Nat.mod_upper_bound k (3 * w) ltac:(lia)) as Hm.
    rewrite nth_error_row_refs by (rewrite row_width by assumption; lia).
    rewrite Nat.Div0.mod_mul_r.
    pose proof (Nat.mod_upper_bound k 3 ltac:(lia)) as H3.
    f_equal. f_equal; [f_equal|].
    + symmetry. apply Nat.div_unique with (r := (k mod 3)%nat); lia.
    + f_equal. symmetry.
      apply Nat.mod_unique with (q := ((k / 3) mod w)%nat); lia.
  - intros y Hy. apply in_seq in Hy. rewrite row_refs_length, row_width; lia.
Qed.

End Raster.

(** Writing never touches an alpha sample. *)
Lemma pixel_set_alpha (c : PixelCarrier) (r : PixelRef) (b : bool) (y x : nat) :
  alpha (cell (rows (pixel_set c r b)) y x black) = alpha (cell (rows c) y x black).
Proof.
  destruct r as [[y0 x0] ch]. cbn [pixel_set rows].
  change (upd (rows c) y0 (fun row => upd row x0 (set_sample ch (fun v => set_lsb v b))))
    with (gupd (rows c) y0 x0 (set_sample ch (fun v => set_lsb v b))).
  destruct (CoefRef_eq_dec (y0, x0) (y, x)) as [E|Hne].
  - injection E as -> ->.
    destruct (in_grid_dec (rows c) y x) as [Hin|Hout].
    + rewrite cell_gupd_same by assumption. apply alpha_set_sample.
    + now rewrite gupd_outside.
  - now rewrite cell_gupd_other.
Qed.

Section Enumeration.
Context {P : Params}.


End Enumeration.

(** ** The 100 by 100 scenario *)

Section Scenario.
Context {P : Params}.


End Scenario.

(** ** The engine on the sample parameters *)

Section OnSample.
Import Sample.
#[local] Existing Instance sampleParams.





(** 131 bytes are usable in [card]: 131 go in, 132 do not. *)
Example boundary_accepts :
  usable_bytes card false = 131
  /\ (exists c', encode_carrier card (repeat x41 131) [] counter = Ok c')
  /\ encode_carrier card (repeat x41 132) [] counter = Err InsufficientCapacityError.
Proof.
  split; [reflexivity|]. split; [eexists|]; vm_compute; reflexivity.
Qed.



Lemma missing_password_sample :
  decode_carrier locked [] = Err PasswordRequiredError.
Proof.
  assert (Hu : unframe (read_bits locked) family = Ok (true, locked_inner))
    by (vm_compute; reflexivity).
  apply (proj1 (@missing_password sampleParams PixelCarrier _ locked true
                  locked_inner [] Hu)).
  reflexivity.
Defined.

(** A plain carrier is decoded whatever password is offered. *)
Example plain_needs_no_password :
  decode_carrier stego_plate [] = Ok (bytes "AB")
  /\ decode_carrier stego_plate (bytes "anything") = Ok (bytes "AB").
Proof. split; vm_compute; reflexivity. Qed.

Lemma coefficient_invariant_sample :
  map (@length Z) (blocks stego_plate) = map (@length Z) (blocks plate)
  /\ forall i j,
       (coef stego_plate i j - coef plate i j = 0
        \/ coef stego_plate i j - coef plate i j = 1
        \/ coef stego_plate i j - coef plate i j = -1)
       /\ (j = 0%nat -> coef stego_plate i j = coef plate i j)
       /\ (coef plate i j = 0 -> coef stego_plate i j = 0)
       /\ (coef stego_plate i j <> coef plate i j -> In (i, j) (coef_units plate)).
Proof.
  apply (@coefficient_invariant sampleParams plate stego_plate (bytes "AB") [] counter).
  vm_compute. reflexivity.
Defined.

Lemma solid_rows (w h : nat) (p : Pixel) :
  length (rows (solid w h p)) = h
  /\ forall row, In row (rows (solid w h p)) -> length row = w.
Proof.
  cbn [solid rows]. split; [apply repeat_length|].
  intros row Hr. apply repeat_spec in Hr. subst. apply repeat_length.
Qed.


(** The first units of a 3 by 2 grid. *)
Example raster_prefix :
  firstn 7 (units (solid 3 2 grey))
  = [(0, 0, R); (0, 0, G); (0, 0, B); (0, 1, R); (0, 1, G); (0, 1, B); (0, 2, R)]%nat
  /\ nth_error (units (solid 3 2 grey)) 9 = Some (1, 0, R)%nat.
Proof. split; reflexivity. Qed.


End OnSample.

End EngineFacts.

(* ================================================================== *)
(** * Part VII.  Properties of the rest of the PixelVault page         *)
(* ================================================================== *)

Module PixelVaultControlsFacts.
Import PixelVaultPage PixelVaultControls.
Local Open Scope string_scope.

(** ** Class names *)

Lemma string_app_assoc (a b c : string) : (a ++ b) ++ c = a ++ (b ++ c).
Proof. induction a as [|x a IH]; simpl; [reflexivity|now rewrite IH]. Qed.

Lemma truthy_app_l (a b : string) : truthy a = true -> truthy (a ++ b) = true.
Proof. destruct a; simpl; [discriminate|reflexivity]. Qed.

Lemma kept_app (a b : list ClassValue) : kept (a ++ b) = (kept a ++ kept b)%list.
Proof.
  induction a as [|[s|] a IH]; simpl; auto.
  destruct (truthy s); simpl; now rewrite IH.
Qed.

Lemma kept_truthy (l : list ClassValue) : Forall (fun s => truthy s = true) (kept l).
Proof.
  induction l as [|[s|] l IH]; simpl; auto.
  destruct (truthy s) eqn:E; auto.
Qed.

Lemma kept_nil_iff (l : list ClassValue) :
  kept l = [] <-> forall c, In c l -> keeps c = false.
Proof.
  induction l as [|[s|] l IH]; simpl.
  - split; [intros _ c []|reflexivity].
  - destruct (truthy s) eqn:E.
    + split; [discriminate|]. intros H.
      specialize (H (Some s) (or_introl eq_refl)). simpl in H. congruence.
    + rewrite IH. split.
      * intros H c [<-|Hc]; [exact E|now apply H].
      * intros H c Hc. apply H. now right.
  - rewrite IH. split.
    + intros H c [<-|Hc]; [reflexivity|now apply H].
    + intros H c Hc. apply H. now right.
Qed.

(** Joining two non-empty lists joins their joins. *)
Lemma concat_app (sep : string) (a b : list string) :
  a <> [] -> b <> [] ->
  String.concat sep (a ++ b) = String.concat sep a ++ sep ++ String.concat sep b.
Proof.
  intros Ha Hb. induction a as [|x a IH]; [now elim Ha|].
  destruct a as [|y a].
  - destruct b as [|z b]; [now elim Hb|]. reflexivity.
  - change (String.concat sep ((x :: y :: a) ++ b))
      with (x ++ sep ++ String.concat sep ((y :: a) ++ b)).
    rewrite IH by discriminate.
    change (String.concat sep (x :: y :: a)) with (x ++ sep ++ String.concat sep (y :: a)).
    now rewrite !string_app_assoc.
Qed.

(** A join of non-empty strings is empty only for the empty list. *)
Lemma concat_truthy (sep : string) (l : list string) :
  l <> [] -> Forall (fun s => truthy s = true) l -> truthy (String.concat sep l) = true.
Proof.
  intros Hl Hall. destruct l as [|x l]; [now elim Hl|].
  inversion Hall as [|? ? Hx _]; subst.
  destruct l; simpl; [exact Hx|now apply truthy_app_l].
Qed.

Lemma cn_truthy_iff (l : list ClassValue) : truthy (cn l) = true <-> kept l <> [].
Proof.
  unfold cn. split.
  - intros H E. rewrite E in H. discriminate.
  - intros H. apply concat_truthy; [exact H|apply kept_truthy].
Qed.

(** X1.  [cn] ignores every falsy argument wherever it stands, returns
    the empty string exactly when all its arguments are falsy, and
    nests: passing the results of two calls to a third call gives the
    same class string as one call on all the arguments, which is how
    [Card] receives a [className] built by [cn]. *)
Theorem cn_nests (xs ys : list ClassValue) :
  (forall c, keeps c = false -> cn (xs ++ c :: ys) = cn (xs ++ ys))
  /\ (cn xs = EmptyString <-> forall c, In c xs -> keeps c = false)
  /\ cn [Some (cn xs); Some (cn ys)] = cn (xs ++ ys).
Proof.
  split; [|split].
  - intros c Hc. unfold cn. rewrite !kept_app. f_equal. f_equal.
    destruct c as [s|]; simpl in *; [now rewrite Hc|reflexivity].
  - rewrite <- kept_nil_iff. split.
    + intros H. destruct (kept xs) eqn:E; [reflexivity|].
      assert (T : truthy (cn xs) = true) by (apply cn_truthy_iff; rewrite E; discriminate).
      rewrite H in T. discriminate.
    + intros H. unfold cn. now rewrite H.
  - unfold cn at 1. cbn [kept].
    destruct (kept xs) as [|x xs'] eqn:Ex; destruct (kept ys) as [|y ys'] eqn:Ey.
    + unfold cn. rewrite kept_app, Ex, Ey. reflexivity.
    + assert (Tx : truthy (cn xs) = false) by (unfold cn; now rewrite Ex).
      assert (Ty : truthy (cn ys) = true) by (apply cn_truthy_iff; rewrite Ey; discriminate).
      rewrite Tx, Ty. unfold cn. rewrite kept_app, Ex, Ey. reflexivity.
    + assert (Tx : truthy (cn xs) = true) by (apply cn_truthy_iff; rewrite Ex; discriminate).
      assert (Ty : truthy (cn ys) = false) by (unfold cn; now rewrite Ey).
      rewrite Tx, Ty. unfold cn. rewrite kept_app, Ex, Ey, app_nil_r. reflexivity.
    + assert (Tx : truthy (cn xs) = true) by (apply cn_truthy_iff; rewrite Ex; discriminate).
      assert (Ty : truthy (cn ys) = true) by (apply cn_truthy_iff; rewrite Ey; discriminate).
      rewrite Tx, Ty. unfold cn. rewrite kept_app, Ex, Ey.
      rewrite concat_app by discriminate. reflexivity.
Qed.

(** The card in the page: no class name given, and one given. *)
Example cardClass_values :
  cardClass None = "rounded-xl border border-slate-200 bg-white/80 backdrop-blur-sm shadow-sm"
  /\ cardClass (Some "overflow-hidden")
     = "rounded-xl border border-slate-200 bg-white/80 backdrop-blur-sm shadow-sm overflow-hidden".
Proof. split; reflexivity. Qed.

(** ** Switching tabs *)

(** X2.  [switchTab] sends nothing and leaves the page on the requested
    tab with every input, output, error and capacity reset; only the
    loading flag keeps its value.  In the state it leaves, the submit
    button is disabled and neither submit handler does anything. *)
Theorem switchTab_resets (st : State) (tab : string)
  (enc : Promise EncodeResponse) (dec : Promise DecodeResponse) :
  play st (switchTab tab)
  = mkState tab (isLoading st) None None None None EmptyString EmptyString None None
  /\ sends (switchTab tab) = []
  /\ buttonDisabled (play st (switchTab tab)) = true
  /\ click (play st (switchTab tab)) enc dec = []
  /\ handleEncode (play st (switchTab tab)) enc = []
  /\ handleDecode (play st (switchTab tab)) dec = [].
Proof. repeat split. Qed.

(** ** Selecting a file *)

Lemma play_app (st : State) (a b : list PageEffect) :
  play st (a ++ b) = play (play st a) b.
Proof. unfold play. apply fold_left_app. Qed.

Lemma sends_app (a b : list PageEffect) : sends (a ++ b) = (sends a ++ sends b)%list.
Proof.
  induction a as [|e a IH]; simpl; [reflexivity|].
  destruct e as [[]| | | | | | | |]; simpl; now rewrite IH.
Qed.

Lemma sends_capacitySettled (net : Promise CapacityResponse) : sends (capacitySettled net) = [].
Proof.
  unfold capacitySettled. destruct net as [res|m]; [|reflexivity].
  destruct (cap_json res) as [data|m]; [|reflexivity].
  now destruct (cap_truthy data).
Qed.

(** What settling the capacity check changes: the capacity, and only
    when the value received is truthy. *)
Lemma play_capacitySettled (st : State) (net : Promise CapacityResponse) :
  play st (capacitySettled net)
  = mkState (activeTab st) (isLoading st) (error st)
            (match net with
             | Resolves res =>
                 match cap_json res with
                 | Resolves data =>
                     if cap_truthy data then Some (cap_text data) else capacity st
                 | Rejects _ => capacity st
                 end
             | Rejects _ => capacity st
             end)
            (file st) (preview st) (message st) (password st)
            (resultImage st) (resultMessage st).
Proof.
  unfold capacitySettled. destruct st. destruct net as [res|m]; [|reflexivity].
  destruct (cap_json res) as [data|m]; [|reflexivity].
  now destruct (cap_truthy data).
Qed.

(** X3.  When nothing was picked [handleFileSelect] does nothing; when
    the picked file's type does not start with ["image/"] it only sets
    the error message: nothing is sent, nothing is read, and the file
    selected before, its preview, the results and the capacity all stay,
    so a later submit still uses the earlier file. *)
Theorem handleFileSelect_rejects (st : State) (f : File)
  (read : option string) (net : Promise CapacityResponse) :
  isImage f = false ->
  handleFileSelect st None read net = []
  /\ handleFileSelect st (Some f) read net
     = [Basic (SetError (Some "Please select a valid image file"))]
  /\ play st (handleFileSelect st (Some f) read net)
     = mkState (activeTab st) (isLoading st) (Some "Please select a valid image file")
               (capacity st) (file st) (preview st) (message st) (password st)
               (resultImage st) (resultMessage st)
  /\ errorBox (play st (handleFileSelect st (Some f) read net))
     = Some "Please select a valid image file".
Proof.
  intros Hf. unfold handleFileSelect. rewrite Hf. cbn [negb].
  repeat split.
Qed.

Lemma handleFileSelect_rejects_pdf :
  handleFileSelect filled None None (Rejects "offline") = []
  /\ handleFileSelect filled (Some (mkFile "notes.pdf" "application/pdf" [])) None
                      (Rejects "offline")
     = [Basic (SetError (Some "Please select a valid image file"))]
  /\ play filled (handleFileSelect filled (Some (mkFile "notes.pdf" "application/pdf" []))
                                   None (Rejects "offline"))
     = mkState (activeTab filled) (isLoading filled)
               (Some "Please select a valid image file")
               (capacity filled) (file filled) (preview filled) (message filled)
               (password filled) (resultImage filled) (resultMessage filled)
  /\ errorBox (play filled (handleFileSelect filled
                              (Some (mkFile "notes.pdf" "application/pdf" []))
                              None (Rejects "offline")))
     = Some "Please select a valid image file".
Proof.
  apply (@handleFileSelect_rejects filled (mkFile "notes.pdf" "application/pdf" [])
           None (Rejects "offline")).
  reflexivity.
Defined.

(** X4.  When the picked file is an image, [handleFileSelect] selects
    it, clears the error and both results, and keeps the message, the
    password, the tab and the loading flag; the preview becomes the data
    URL the reader loads and stays as it was when the reader loads
    nothing.  On the encode tab exactly one request is sent, to
    [/capacity], whose form holds the image and nothing else; on any
    other tab nothing is sent. *)
Theorem handleFileSelect_accepts (st : State) (f : File)
  (read : option string) (net : Promise CapacityResponse) :
  isImage f = true ->
  let tr := handleFileSelect st (Some f) read net in
  file (play st tr) = Some f
  /\ error (play st tr) = None
  /\ resultImage (play st tr) = None
  /\ resultMessage (play st tr) = None
  /\ message (play st tr) = message st
  /\ password (play st tr) = password st
  /\ activeTab (play st tr) = activeTab st
  /\ isLoading (play st tr) = isLoading st
  /\ preview (play st tr) = match read with Some url => Some url | None => preview st end
  /\ sends tr
     = (if String.eqb (activeTab st) "encode"
        then [mkRequest (API_BASE ++ "/capacity") "POST" [("image", FFile f)]]
        else []).
Proof.
  intros Hf tr. unfold tr, handleFileSelect. rewrite Hf. cbn [negb].
  destruct (String.eqb (activeTab st) "encode").
  - rewrite !play_app, !sends_app, sends_capacitySettled, play_capacitySettled.
    destruct read; repeat split.
  - rewrite !play_app, !sends_app. destruct read; repeat split.
Qed.

Lemma handleFileSelect_accepts_photo :
  file (play filled (handleFileSelect filled (Some photo) (Some "data:image/png;base64,") (Rejects "offline")))
  = Some photo
  /\ sends (handleFileSelect filled (Some photo) (Some "data:image/png;base64,") (Rejects "offline"))
     = [mkRequest (API_BASE ++ "/capacity") "POST" [("image", FFile photo)]].
Proof.
  pose proof (@handleFileSelect_accepts filled photo (Some "data:image/png;base64,")
                (Rejects "offline") eq_refl) as H.
  cbv zeta in H. destruct H as (H1 & _ & _ & _ & _ & _ & _ & _ & _ & H2).
  split; [exact H1|exact H2].
Defined.

(** X5.  After an image is selected the capacity on display is the one
    just received only if the page is on the encode tab and the value
    received is truthy.  When the request fails, the body is not JSON or
    the value is falsy (zero, missing), the capacity shown before, for
    an earlier file, stays; no error is set for it and the loading flag
    is not touched. *)
Theorem capacity_after_select (st : State) (f : File)
  (read : option string) (net : Promise CapacityResponse) :
  isImage f = true ->
  let st' := play st (handleFileSelect st (Some f) read net) in
  capacity st'
  = (if String.eqb (activeTab st) "encode" then
       match net with
       | Resolves res =>
           match cap_json res with
           | Resolves data =>
               if cap_truthy data then Some (cap_text data) else capacity st
           | Rejects _ => capacity st
           end
       | Rejects _ => capacity st
       end
     else capacity st)
  /\ error st' = None
  /\ isLoading st' = isLoading st.
Proof.
  intros Hf st'. unfold st', handleFileSelect. rewrite Hf. cbn [negb].
  destruct (String.eqb (activeTab st) "encode").
  - rewrite !play_app, play_capacitySettled. destruct read; repeat split.
  - rewrite !play_app. destruct read; repeat split.
Qed.

Lemma capacity_after_select_stale :
  capacity (play measured (handleFileSelect measured (Some (mkFile "tiny.png" "image/png" []))
                             None (Rejects "offline")))
  = Some "3731"
  /\ capacityLine (play measured (handleFileSelect measured
                                    (Some (mkFile "tiny.png" "image/png" []))
                                    None (Rejects "offline")))
     = Some "Capacity: 3731 chars".
Proof.
  pose proof (@capacity_after_select measured (mkFile "tiny.png" "image/png" []) None
                (Rejects "offline") eq_refl) as H.
  cbv zeta in H. destruct H as (H & _ & _).
  split; [exact H|]. unfold capacityLine.
  rewrite H. reflexivity.
Defined.

(** ** Submitting *)

(** The requests of the two submit handlers. *)
Lemma requests_handleEncode (st : State) (enc : Promise EncodeResponse) :
  requests (handleEncode st enc)
  = match file st with
    | Some f =>
        if truthy (message st)
        then [mkRequest (API_BASE ++ "/encode") "POST"
                        (encodeForm f (message st) (password st))]
        else []
    | None => []
    end.
Proof.
  unfold handleEncode. destruct (file st) as [f|]; [|reflexivity].
  destruct (truthy (message st)); [|reflexivity].
  destruct enc as [res|m]; [|reflexivity]. cbn.
  destruct (enc_ok res); cbn.
  - now destruct (enc_blob_url res).
  - now destruct (enc_json_detail res).
Qed.

Lemma requests_handleDecode (st : State) (dec : Promise DecodeResponse) :
  requests (handleDecode st dec)
  = match file st with
    | Some f => [mkRequest (API_BASE ++ "/decode") "POST" (decodeForm f (password st))]
    | None => []
    end.
Proof.
  unfold handleDecode. destruct (file st) as [f|]; [|reflexivity].
  destruct dec as [res|m]; [|reflexivity]. cbn.
  destruct (dec_json res) as [data|m]; [|reflexivity]. cbn.
  now destruct (negb (dec_ok res) || negb (data_success data)).
Qed.

(** X6.  A click on the submit button sends at most one request and
    none while the page is loading.  The request goes to [/encode] when
    the tab is ["encode"] and to [/decode] for any other tab value; a
    decode request carries the file and at most the password, never the
    message. *)
Theorem click_dispatch (st : State) (enc : Promise EncodeResponse)
  (dec : Promise DecodeResponse) :
  (isLoading st = true -> click st enc dec = [])
  /\ (length (requests (click st enc dec)) <= 1)%nat
  /\ (forall r, In r (requests (click st enc dec)) ->
        isLoading st = false
        /\ exists f, file st = Some f
             /\ if String.eqb (activeTab st) "encode"
                then r = mkRequest (API_BASE ++ "/encode") "POST"
                                   (encodeForm f (message st) (password st))
                     /\ message st <> EmptyString
                else r = mkRequest (API_BASE ++ "/decode") "POST"
                                   (decodeForm f (password st))
                     /\ getAll (req_body r) "message" = []).
Proof.
  unfold click, buttonDisabled.
  destruct (isLoading st) eqn:Hl.
  - rewrite orb_true_r. split; [reflexivity|]. split; [simpl; auto|intros r []].
  - rewrite orb_false_r. split; [discriminate|].
    destruct (file st) as [f|] eqn:Hf; cbn [orb];
      [|split; [simpl; auto|intros r []]].
    destruct (String.eqb (activeTab st) "encode") eqn:Ht; cbn [andb].
    + destruct (truthy (message st)) eqn:Hm; cbn [negb];
        [|split; [simpl; auto|intros r []]].
      rewrite requests_handleEncode, Hf, Hm. split; [simpl; auto|].
      intros r [<-|[]]. split; [reflexivity|]. exists f.
      split; [reflexivity|]. split; [reflexivity|].
      now apply PixelVaultPageFacts.truthy_true_iff.
    + rewrite requests_handleDecode, Hf. split; [simpl; auto|].
      intros r [<-|[]]. split; [reflexivity|]. exists f.
      split; [reflexivity|]. split; [reflexivity|].
      cbn [req_body]. unfold decodeForm. now destruct (truthy (password st)).
Qed.

Lemma handleEncode_bracketed (st : State) (enc : Promise EncodeResponse) :
  handleEncode st enc = [] \/ bracketed (handleEncode st enc).
Proof.
  unfold handleEncode. destruct (file st) as [f|]; [|now left].
  destruct (truthy (message st)); [|now left]. right. cbn [negb].
  eexists (_ :: _ :: _). split; [reflexivity|].
  intros b Hin. destruct Hin as [H|[H|H]]; try discriminate.
  destruct enc as [res|m];
    [destruct (negb (enc_ok res));
     [destruct (enc_json_detail res)|destruct (enc_blob_url res)]|];
    destruct H as [H|[]]; discriminate.
Qed.

Lemma handleDecode_bracketed (st : State) (dec : Promise DecodeResponse) :
  handleDecode st dec = [] \/ bracketed (handleDecode st dec).
Proof.
  unfold handleDecode. destruct (file st) as [f|]; [|now left]. right.
  eexists (_ :: _ :: _ :: _). split; [reflexivity|].
  intros b Hin. destruct Hin as [H|[H|[H|H]]]; try discriminate.
  destruct dec as [res|m];
    [destruct (dec_json res) as [data|m];
     [destruct (negb (dec_ok res) || negb (data_success data))|]|];
    destruct H as [H|[]]; discriminate.
Qed.

Lemma run_app (st : State) (a b : list Effect) : run st (a ++ b) = run (run st a) b.
Proof. unfold run. apply fold_left_app. Qed.

(** Effects other than [SetIsLoading] keep the loading flag. *)
Lemma run_keeps_loading (mid : list Effect) (st : State) :
  (forall b, ~ In (SetIsLoading b) mid) -> isLoading (run st mid) = isLoading st.
Proof.
  revert st. induction mid as [|e mid IH]; intros st H; [reflexivity|].
  change (run st (e :: mid)) with (run (PixelVaultPage.apply st e) mid).
  rewrite IH by (intros b Hb; apply (H b); now right).
  destruct e; try reflexivity. elim (H b). now left.
Qed.

(** A list that ends where another one continues is a prefix of it. *)
Lemma prefix_of_snoc {A} (pre post mid : list A) (x : A) :
  (pre ++ post = mid ++ [x])%list -> post <> [] -> exists rest, mid = (pre ++ rest)%list.
Proof.
  revert mid. induction pre as [|a pre IH]; intros mid E Hpost.
  - now exists mid.
  - destruct mid as [|m mid].
    + cbn in E. injection E as -> E.
      destruct pre; [destruct post; [now elim Hpost|discriminate]|discriminate].
    + cbn in E. injection E as -> E.
      destruct (IH mid E Hpost) as [rest ->]. now exists rest.
Qed.

Lemma bracketed_loading (tr pre post : list Effect) (st : State) :
  bracketed tr -> tr = (pre ++ post)%list -> pre <> [] -> post <> [] ->
  isLoading (run st pre) = true.
Proof.
  intros (mid & -> & Hmid) E Hpre Hpost.
  destruct pre as [|e pre]; [now elim Hpre|].
  cbn in E. injection E as <- E. symmetry in E.
  destruct (@prefix_of_snoc _ pre post mid _ E Hpost) as [rest ->].
  change (run st (SetIsLoading true :: pre))
    with (run (PixelVaultPage.apply st (SetIsLoading true)) pre).
  rewrite run_keeps_loading; [reflexivity|].
  intros b Hb. apply (Hmid b). apply in_or_app. now left.
Qed.

(** X7.  From the first effect of a submit handler until its last one
    the loading flag is set: at every point strictly inside the trace of
    [handleEncode] or [handleDecode], so in particular while the request
    is pending, the submit button is disabled and a click does nothing;
    when the handler has finished the flag is cleared again, whatever
    the response was. *)
Theorem no_resubmission_while_pending (st : State)
  (enc : Promise EncodeResponse) (dec : Promise DecodeResponse)
  (tr pre post : list Effect) :
  tr = handleEncode st enc \/ tr = handleDecode st dec ->
  tr = (pre ++ post)%list -> pre <> [] -> post <> [] ->
  isLoading (run st pre) = true
  /\ buttonDisabled (run st pre) = true
  /\ (forall enc' dec', click (run st pre) enc' dec' = [])
  /\ isLoading (run st tr) = false.
Proof.
  intros Htr E Hpre Hpost.
  assert (Hb : bracketed tr).
  { destruct Htr as [->| ->].
    - destruct (handleEncode_bracketed st enc) as [H|H]; [|exact H].
      rewrite H in E. destruct pre; [now elim Hpre|discriminate].
    - destruct (handleDecode_bracketed st dec) as [H|H]; [|exact H].
      rewrite H in E. destruct pre; [now elim Hpre|discriminate]. }
  pose proof (bracketed_loading st Hb E Hpre Hpost) as Hl.
  assert (Hd : buttonDisabled (run st pre) = true)
    by (unfold buttonDisabled; rewrite Hl; apply orb_true_r).
  split; [exact Hl|]. split; [exact Hd|]. split.
  - intros enc' dec'. unfold click. now rewrite Hd.
  - destruct Hb as (mid & -> & _).
    change (SetIsLoading true :: mid ++ [SetIsLoading false])%list
      with ((SetIsLoading true :: mid) ++ [SetIsLoading false])%list.
    now rewrite run_app.
Qed.

Lemma no_resubmission_while_pending_filled :
  isLoading (run filled [SetIsLoading true; SetError None;
                         Fetch (mkRequest (API_BASE ++ "/encode") "POST"
                                  (encodeForm photo "Hello" "Pass123"))]) = true
  /\ buttonDisabled (run filled [SetIsLoading true; SetError None;
                                 Fetch (mkRequest (API_BASE ++ "/encode") "POST"
                                          (encodeForm photo "Hello" "Pass123"))]) = true
  /\ (forall enc' dec',
        click (run filled [SetIsLoading true; SetError None;
                           Fetch (mkRequest (API_BASE ++ "/encode") "POST"
                                    (encodeForm photo "Hello" "Pass123"))]) enc' dec' = [])
  /\ isLoading (run filled (handleEncode filled (Rejects "offline"))) = false.
Proof.
  apply (@no_resubmission_while_pending filled (Rejects "offline") (Rejects "offline")
           (handleEncode filled (Rejects "offline"))
           [SetIsLoading true; SetError None;
            Fetch (mkRequest (API_BASE ++ "/encode") "POST"
                     (encodeForm photo "Hello" "Pass123"))]
           [SetError (Some "offline"); SetIsLoading false]).
  - now left.
  - reflexivity.
  - discriminate.
  - discriminate.
Defined.

(** ** Outcomes *)

(** The fallback of [x || d] is what shows when [x] is empty. *)
Lemma js_or_truthy (x : option string) (d : string) :
  truthy d = true -> truthy (js_or x d) = true.
Proof. unfold js_or. destruct x as [s|]; [destruct (truthy s) eqn:Hx|]; auto. Qed.

(** X8.  When [handleDecode] has run on a page with a file, the page
    shows an error or a decoded message, never both: the error is
    cleared exactly when the response was ok with [success] set, and
    then the decoded message is the [message] field of the reply;
    otherwise the previous decoded message is discarded.  The encoded
    image and the inputs are never touched. *)
Theorem handleDecode_outcome (st : State) (dec : Promise DecodeResponse) (f : File) :
  file st = Some f ->
  let st' := run st (handleDecode st dec) in
  (error st' = None
   <-> exists res data, dec = Resolves res /\ dec_json res = Resolves data
                        /\ dec_ok res = true /\ data_success data = true)
  /\ (forall res data, dec = Resolves res -> dec_json res = Resolves data ->
       dec_ok res = true -> data_success data = true ->
       resultMessage st' = data_message data)
  /\ (error st' <> None -> resultMessage st' = None)
  /\ resultImage st' = resultImage st
  /\ (file st', message st', password st', activeTab st')
     = (file st, message st, password st, activeTab st).
Proof.
  intros Hf st'. subst st'. unfold handleDecode. rewrite Hf.
  destruct dec as [res|m]; [destruct (dec_json res) as [data|m] eqn:Hj;
    [destruct (dec_ok res) eqn:Hok; destruct (data_success data) eqn:Hs|]|];
    cbn; (split; [split; [intros H; try discriminate H;
                          try (exists res, data; repeat split; assumption)
                         |intros (res' & data' & E & Ej & Eo & Es);
                          try discriminate E; injection E as <-;
                          try (rewrite Hj in Ej; try discriminate Ej;
                               injection Ej as <-); congruence]|]);
    (split; [intros res' data' E Ej Eo Es; try discriminate E; injection E as <-;
             rewrite Hj in Ej; try discriminate Ej; injection Ej as <-;
             try reflexivity; congruence|]);
    (split; [intros H; try reflexivity; now elim H|]);
    (split; [reflexivity|congruence]).
Qed.

Lemma handleDecode_outcome_decoded :
  let st' := run decoded (handleDecode decoded (Rejects "Failed to fetch")) in
  (error st' = None
   <-> exists res data, Rejects "Failed to fetch" = Resolves res
                        /\ dec_json res = Resolves data
                        /\ dec_ok res = true /\ data_success data = true)
  /\ (forall res data, Rejects "Failed to fetch" = Resolves res ->
       dec_json res = Resolves data ->
       dec_ok res = true -> data_success data = true ->
       resultMessage st' = data_message data)
  /\ (error st' <> None -> resultMessage st' = None)
  /\ resultImage st' = resultImage decoded
  /\ (file st', message st', password st', activeTab st')
     = (file decoded, message decoded, password decoded, activeTab decoded).
Proof.
  exact (@handleDecode_outcome decoded (Rejects "Failed to fetch") photo eq_refl).
Defined.

(** X9.  When [handleEncode] has run on a page with a file and a
    message, the error is cleared exactly when the response was ok and
    its blob could be read, and then the page holds the new object URL.
    On every failure the previous encoded image is kept, so the result
    panel is the one shown before the click, next to the error. *)
Theorem handleEncode_outcome (st : State) (enc : Promise EncodeResponse) (f : File) :
  file st = Some f -> message st <> EmptyString ->
  let st' := run st (handleEncode st enc) in
  (error st' = None
   <-> exists res url, enc = Resolves res /\ enc_ok res = true
                       /\ enc_blob_url res = Resolves url)
  /\ (forall res url, enc = Resolves res -> enc_ok res = true ->
       enc_blob_url res = Resolves url -> resultImage st' = Some url)
  /\ (error st' <> None ->
       resultImage st' = resultImage st /\ resultPanel st' = resultPanel st)
  /\ resultMessage st' = resultMessage st
  /\ (file st', message st', password st', activeTab st')
     = (file st, message st, password st, activeTab st).
Proof.
  intros Hf Hm st'. subst st'. unfold handleEncode. rewrite Hf.
  apply PixelVaultPageFacts.truthy_true_iff in Hm. rewrite Hm.
  unfold resultPanel.
  destruct enc as [res|m];
    [destruct (enc_ok res) eqn:Hok;
     [destruct (enc_blob_url res) as [url|m] eqn:Hb
     |destruct (enc_json_detail res) as [d|m] eqn:Hd]|];
    cbn; (split; [split; [intros H; try discriminate H;
                          try (exists res, url; repeat split; assumption)
                         |intros (res' & url' & E & Eo & Eb);
                          try discriminate E; injection E as <-; congruence]|]);
    (split; [intros res' url' E Eo Eb; try discriminate E; injection E as <-;
             congruence|]);
    (split; [intros H; try (split; reflexivity); now elim H|]);
    (split; [reflexivity|congruence]).
Qed.

Lemma handleEncode_outcome_secured :
  let st' := run secured (handleEncode secured (Rejects "Failed to fetch")) in
  (error st' = None
   <-> exists res url, Rejects "Failed to fetch" = Resolves res /\ enc_ok res = true
                       /\ enc_blob_url res = Resolves url)
  /\ (forall res url, Rejects "Failed to fetch" = Resolves res -> enc_ok res = true ->
       enc_blob_url res = Resolves url -> resultImage st' = Some url)
  /\ (error st' <> None ->
       resultImage st' = resultImage secured /\ resultPanel st' = resultPanel secured)
  /\ resultMessage st' = resultMessage secured
  /\ (file st', message st', password st', activeTab st')
     = (file secured, message secured, password secured, activeTab secured).
Proof.
  refine (@handleEncode_outcome secured (Rejects "Failed to fetch") photo eq_refl _).
  discriminate.
Defined.

(** The two cases side by side: after a failed request the encode page
    still offers the old image for download, the decode page has dropped
    the old message. *)
Example stale_image_fresh_message :
  resultPanel (run secured (handleEncode secured (Rejects "Failed to fetch")))
  = ImageSecured "blob:previous"
  /\ errorBox (run secured (handleEncode secured (Rejects "Failed to fetch")))
     = Some "Failed to fetch"
  /\ resultPanel (run decoded (handleDecode decoded (Rejects "Failed to fetch")))
     = ReadyToProcess
  /\ errorBox (run decoded (handleDecode decoded (Rejects "Failed to fetch")))
     = Some "Failed to fetch".
Proof. repeat split. Qed.





(** ** Switching tabs while a request is pending *)

Lemma untilFetch_afterFetch (tr : list Effect) :
  (untilFetch tr ++ afterFetch tr)%list = tr.
Proof.
  induction tr as [|e tr IH]; [reflexivity|].
  destruct e; cbn; try (now rewrite IH). reflexivity.
Qed.

(** X12.  A tab switch while a request is pending does not cancel it.
    After the switch the loading flag is still set, so the submit button
    of the new tab is disabled until the old request settles; when it
    does, the flag is cleared and the error of the old request, if any,
    is the error of the new tab, while its result is never shown there. *)
Theorem tab_switch_does_not_cancel (st : State) (enc : Promise EncodeResponse)
  (dec : Promise DecodeResponse) (f : File) (tab : string) (tr : list Effect) :
  file st = Some f ->
  (tr = handleEncode st enc /\ message st <> EmptyString /\ tab <> "encode")
  \/ (tr = handleDecode st dec /\ tab <> "decode") ->
  let waiting := play st (map Basic (untilFetch tr) ++ switchTab tab)%list in
  let st' := play waiting (map Basic (afterFetch tr)) in
  isLoading waiting = true
  /\ buttonDisabled waiting = true
  /\ activeTab st' = tab
  /\ file st' = None
  /\ isLoading st' = false
  /\ error st' = error (run st tr)
  /\ resultPanel st' = ReadyToProcess.
Proof.
  intros Hf [(-> & Hm & Ht)|(-> & Ht)] waiting st'; subst st' waiting.
  - apply PixelVaultPageFacts.truthy_true_iff in Hm.
    apply String.eqb_neq in Ht.
    unfold handleEncode. rewrite Hf, Hm. unfold resultPanel, buttonDisabled.
    destruct enc as [res|m];
      [destruct (enc_ok res);
       [destruct (enc_blob_url res)|destruct (enc_json_detail res)]|];
      cbn; rewrite ?Ht; cbn; try (destruct (String.eqb tab "decode"));
      repeat split; reflexivity.
  - apply String.eqb_neq in Ht.
    unfold handleDecode. rewrite Hf. unfold resultPanel, buttonDisabled.
    destruct dec as [res|m];
      [destruct (dec_json res) as [data|m];
       [destruct (negb (dec_ok res) || negb (data_success data))|]|];
      cbn; rewrite ?Ht; cbn; try (destruct (String.eqb tab "encode"));
      repeat split; reflexivity.
Qed.

Lemma tab_switch_does_not_cancel_decoded :
  let tr := handleDecode decoded (Rejects "Failed to fetch") in
  let waiting := play decoded (map Basic (untilFetch tr) ++ switchTab "encode")%list in
  let st' := play waiting (map Basic (afterFetch tr)) in
  isLoading waiting = true
  /\ buttonDisabled waiting = true
  /\ activeTab st' = "encode"
  /\ file st' = None
  /\ isLoading st' = false
  /\ error st' = error (run decoded tr)
  /\ resultPanel st' = ReadyToProcess.
Proof.
  refine (@tab_switch_does_not_cancel decoded (Rejects "Failed to fetch")
            (Rejects "Failed to fetch") photo "encode" _ eq_refl _).
  right. split; [reflexivity|discriminate].
Defined.

End PixelVaultControlsFacts.

(* ================================================================== *)
(** * Part VIII.  String methods and regular expressions               *)
(* ================================================================== *)

Module JsStringsFacts.
Import JsStrings.

(** ** Matching by derivatives is matching *)

Lemma Matches_Never (s : JsString) : ~ Matches Never s.
Proof. intros H. inversion H. Qed.

Lemma Matches_Empty (s : JsString) : Matches Empty s <-> s = [].
Proof. split; [intros H; now inversion H|intros ->; constructor]. Qed.

Lemma Matches_Seq (r1 r2 : Regex) (s : JsString) :
  Matches (Seq r1 r2) s
  <-> exists s1 s2, s = (s1 ++ s2)%list /\ Matches r1 s1 /\ Matches r2 s2.
Proof.
  split.
  - intros H. inversion H; subst. now exists s1, s2.
  - intros (s1 & s2 & -> & H1 & H2). now constructor.
Qed.

Lemma Matches_Or (r1 r2 : Regex) (s : JsString) :
  Matches (Or r1 r2) s <-> Matches r1 s \/ Matches r2 s.
Proof.
  split.
  - intros H. inversion H; subst; auto.
  - intros [H|H]; [now apply MOrL|now apply MOrR].
Qed.

Lemma Matches_Class (p : N -> bool) (s : JsString) :
  Matches (Class p) s <-> exists c, s = [c] /\ p c = true.
Proof.
  split.
  - intros H. inversion H; subst. now exists c.
  - intros (c & -> & H). now constructor.
Qed.

Lemma nullable_spec (r : Regex) : nullable r = true <-> Matches r [].
Proof.
  induction r as [| |p|r1 IH1 r2 IH2|r1 IH1 r2 IH2|r IH]; cbn.
  - split; [discriminate|intros H; inversion H].
  - split; [constructor|reflexivity].
  - split; [discriminate|intros H; inversion H].
  - rewrite andb_true_iff, IH1, IH2, Matches_Seq. split.
    + intros [H1 H2]. now exists [], [].
    + intros (s1 & s2 & E & H1 & H2). symmetry in E.
      apply app_eq_nil in E as [-> ->]. now split.
  - rewrite orb_true_iff, IH1, IH2, Matches_Or. reflexivity.
  - split; [constructor|reflexivity].
Qed.

Lemma mkSeq_spec (r1 r2 : Regex) (s : JsString) :
  Matches (mkSeq r1 r2) s <-> Matches (Seq r1 r2) s.
Proof.
  rewrite Matches_Seq.
  assert (Hnever : forall r, ~ (exists s1 s2 : JsString,
            s = (s1 ++ s2)%list /\ Matches r s1 /\ Matches Never s2)).
  { intros r (s1 & s2 & _ & _ & H). inversion H. }
  destruct r1; cbn;
    try (destruct r2; cbn; rewrite ?Matches_Seq;
         try reflexivity; split; [intros H; inversion H|intros H; elim (Hnever _ H)]).
  - split; [intros H; inversion H|intros (s1 & s2 & _ & H & _); inversion H].
  - split.
    + intros H. exists [], s. repeat split; [constructor|exact H].
    + intros (s1 & s2 & -> & H1 & H2). apply Matches_Empty in H1. now subst.
Qed.

Lemma mkOr_spec (r1 r2 : Regex) (s : JsString) :
  Matches (mkOr r1 r2) s <-> Matches (Or r1 r2) s.
Proof.
  rewrite Matches_Or.
  destruct r1; cbn;
    try (destruct r2; cbn; rewrite ?Matches_Or; try reflexivity;
         split; [auto|intros [H|H]; [exact H|inversion H]]).
  split; [auto|intros [H|H]; [inversion H|exact H]].
Qed.

(** A non-empty match of [r*] starts with a non-empty match of [r]. *)
Lemma Matches_Star_cons (r : Regex) (c : N) (s : JsString) :
  Matches (Star r) (c :: s)
  <-> exists s1 s2, s = (s1 ++ s2)%list /\ Matches r (c :: s1) /\ Matches (Star r) s2.
Proof.
  split.
  - intros H. remember (Star r) as r' eqn:Er. remember (c :: s) as t eqn:Et.
    revert c s Et.
    induction H as [| | | | | |r0 s1 s2 H1 _ H2 IH2]; try discriminate.
    injection Er as ->. intros c s Et.
    destruct s1 as [|d s1].
    + cbn in Et. now apply IH2.
    + cbn in Et. injection Et as -> <-. now exists s1, s2.
  - intros (s1 & s2 & -> & H1 & H2).
    change (c :: s1 ++ s2)%list with ((c :: s1) ++ s2)%list. now constructor.
Qed.

Lemma deriv_spec (r : Regex) (c : N) (s : JsString) :
  Matches (deriv c r) s <-> Matches r (c :: s).
Proof.
  revert s. induction r as [| |p|r1 IH1 r2 IH2|r1 IH1 r2 IH2|r IH]; intros s; cbn.
  - split; intros H; inversion H.
  - split; intros H; inversion H.
  - destruct (p c) eqn:Hp.
    + rewrite Matches_Empty, Matches_Class. split.
      * intros ->. now exists c.
      * intros (d & E & _). now injection E.
    + rewrite Matches_Class. split; [intros H; inversion H|].
      intros (d & E & Hd). injection E as <- _. congruence.
  - rewrite mkOr_spec, Matches_Or, mkSeq_spec, !Matches_Seq. split.
    + intros [(s1 & s2 & -> & H1 & H2)|H].
      * exists (c :: s1), s2. rewrite <- IH1. now repeat split.
      * destruct (nullable r1) eqn:Hn; [|inversion H].
        exists [], (c :: s). rewrite <- IH2, <- nullable_spec. now repeat split.
    + intros (s1 & s2 & E & H1 & H2). destruct s1 as [|d s1].
      * right. cbn in E. subst s2. apply nullable_spec in H1. rewrite H1.
        now apply IH2.
      * left. cbn in E. injection E as <- ->. exists s1, s2.
        rewrite IH1. now repeat split.
  - rewrite mkOr_spec, !Matches_Or, IH1, IH2. reflexivity.
  - rewrite mkSeq_spec, Matches_Seq, Matches_Star_cons. split.
    + intros (s1 & s2 & -> & H1 & H2). exists s1, s2. rewrite <- IH. now repeat split.
    + intros (s1 & s2 & -> & H1 & H2). exists s1, s2. rewrite IH. now repeat split.
Qed.

Lemma matchesWhole_spec (r : Regex) (s : JsString) :
  matchesWhole r s = true <-> Matches r s.
Proof.
  unfold matchesWhole. revert r. induction s as [|c s IH]; intros r; cbn.
  - apply nullable_spec.
  - rewrite IH. apply deriv_spec.
Qed.

Lemma Matches_anything (s : JsString) : Matches (Star anyUnit) s.
Proof.
  induction s as [|c s IH]; [constructor|].
  change (c :: s) with ([c] ++ s)%list. constructor; [now constructor|exact IH].
Qed.

Lemma matchesSomewhere_spec (r : Regex) (s : JsString) :
  matchesSomewhere r s = true
  <-> exists before part after,
        s = (before ++ part ++ after)%list /\ Matches r part.
Proof.
  unfold matchesSomewhere. rewrite matchesWhole_spec, Matches_Seq. split.
  - intros (s1 & s2 & -> & _ & H). apply Matches_Seq in H as (s3 & s4 & -> & H & _).
    now exists s1, s3, s4.
  - intros (s1 & s3 & s4 & -> & H). exists s1, (s3 ++ s4)%list.
    split; [reflexivity|]. split; [apply Matches_anything|].
    constructor; [exact H|apply Matches_anything].
Qed.

(** ** String methods *)

Lemma startsWith_spec (s p : JsString) :
  startsWith s p = true <-> exists rest, s = (p ++ rest)%list.
Proof.
  revert s. induction p as [|c p IH]; intros s; cbn.
  - split; [intros _; now exists s|reflexivity].
  - destruct s as [|d s].
    + split; [discriminate|intros (rest & E); discriminate].
    + rewrite andb_true_iff, N.eqb_eq, IH. split.
      * intros (-> & rest & ->). now exists rest.
      * intros (rest & E). injection E as -> ->. split; [reflexivity|now exists rest].
Qed.

Lemma includes_spec (s p : JsString) :
  includes s p = true <-> exists before after, s = (before ++ p ++ after)%list.
Proof.
  induction s as [|d s IH]; cbn [includes]; rewrite orb_true_iff, startsWith_spec.
  - split.
    + intros [(rest & E)|H]; [|discriminate]. now exists [], rest.
    + intros (before & after & E). left. destruct before; [now exists after|discriminate].
  - rewrite IH. split.
    + intros [(rest & E)|(before & after & ->)].
      * now exists [], rest.
      * now exists (d :: before), after.
    + intros (before & after & E). destruct before as [|b before].
      * left. now exists after.
      * right. cbn in E. injection E as -> ->. now exists before, after.
Qed.

Lemma strictEquals_spec (a b : JsString) : strictEquals a b = true <-> a = b.
Proof.
  revert b. induction a as [|c a IH]; intros [|d b]; cbn;
    try (split; [discriminate|discriminate]); [split; reflexivity|].
  rewrite andb_true_iff, N.eqb_eq, IH. split.
  - now intros [-> ->].
  - intros E. now injection E.
Qed.

End JsStringsFacts.

(* ================================================================== *)
(** * Part IX.  Properties of the PhishyWishy page                     *)
(* ================================================================== *)

Module PhishyWishyFacts.
Import JsStrings PhishyWishy.
Local Open Scope Z_scope.

Lemma labels_differ :
  lit "Safe" <> lit "Suspicious" /\ lit "Safe" <> lit "High Risk"
  /\ lit "Suspicious" <> lit "High Risk"
  /\ lit "bg-emerald-500" <> lit "bg-amber-500"
  /\ lit "bg-emerald-500" <> lit "bg-rose-500"
  /\ lit "bg-amber-500" <> lit "bg-rose-500"
  /\ lit "Unsafe" <> lit "Clean".
Proof. repeat split; intros H; vm_compute in H; discriminate H. Qed.

Lemma foundKeywords_length {host : Host} (body : JsString) :
  (length (foundKeywords body) <= 6)%nat.
Proof.
  unfold foundKeywords.
  etransitivity; [apply filter_length_le|]. vm_compute. reflexivity.
Qed.

Lemma flag_fst (cond : bool) (p : Z) (f : JsString) (t : Tally) :
  fst (flag cond p f t) = fst t + (if cond then p else 0).
Proof. unfold flag. destruct cond; cbn; lia. Qed.

Lemma flag_snd_length (cond : bool) (p : Z) (f : JsString) (t : Tally) :
  length (snd (flag cond p f t)) = (length (snd t) + (if cond then 1 else 0))%nat.
Proof. unfold flag. destruct cond; cbn; [rewrite length_app; cbn|]; lia. Qed.

Section Scoring.
Context {host : Host}.
Variables header body url : JsString.

(** The score in closed form: the base of 10, the points of the checks
    that fired, 15 for each keyword found, capped at 99. *)
Lemma score_sum :
  score (analyzePhishingRisk header body url)
  = Z.min (10
           + (if spf (analyzePhishingRisk header body url) then 0 else 20)
           + (if dkim (analyzePhishingRisk header body url) then 0 else 15)
           + (if truthy url then
                (if includes url (lit "http:") && negb (includes url (lit "https:"))
                 then 30 else 0)
                + (if jsLength url >? 50 then 10 else 0)
                + (if includes url (lit "@") || matchesSomewhere ipPattern url
                   then 40 else 0)
              else 0)
           + 15 * Z.of_nat (length (foundKeywords body))) 99.
Proof.
  unfold analyzePhishingRisk. cbn [score spf dkim]. f_equal.
  rewrite flag_fst.
  destruct (truthy url); rewrite ?flag_fst; cbn [fst];
    destruct (includes (toLowerCase header) (lit "spf=pass"));
    destruct (includes (toLowerCase header) (lit "dkim=pass"));
    cbn [negb];
    destruct (Z.of_nat (length (foundKeywords body)) >? 0) eqn:Hn;
    try lia;
    apply Z.gtb_ltb in Hn; apply Z.ltb_ge in Hn; lia.
Qed.

(** The number of threat indicators: one for each check that fired, one
    for the keywords together. *)
Lemma factors_count :
  length (factors (analyzePhishingRisk header body url))
  = ((if spf (analyzePhishingRisk header body url) then 0 else 1)
     + (if dkim (analyzePhishingRisk header body url) then 0 else 1)
     + (if truthy url then
          (if includes url (lit "http:") && negb (includes url (lit "https:"))
           then 1 else 0)
          + (if jsLength url >? 50 then 1 else 0)
          + (if includes url (lit "@") || matchesSomewhere ipPattern url
             then 1 else 0)
        else 0)
     + (if Z.of_nat (length (foundKeywords body)) >? 0 then 1 else 0))%nat.
Proof.
  unfold analyzePhishingRisk. cbn [factors spf dkim].
  rewrite flag_snd_length.
  destruct (truthy url); rewrite ?flag_snd_length; cbn [snd length];
    destruct (includes (toLowerCase header) (lit "spf=pass"));
    destruct (includes (toLowerCase header) (lit "dkim=pass"));
    cbn [negb]; lia.
Qed.

Lemma verdict_by_score :
  verdict (analyzePhishingRisk header body url)
  = if score (analyzePhishingRisk header body url) >? 75 then lit "High Risk"
    else if score (analyzePhishingRisk header body url) >? 40 then lit "Suspicious"
    else lit "Safe".
Proof. reflexivity. Qed.

Lemma score_range : 10 <= score (analyzePhishingRisk header body url) <= 99.
Proof.
  rewrite score_sum.
  pose proof (Zle_0_nat (length (foundKeywords body))) as Hn.
  destruct (spf (analyzePhishingRisk header body url));
    destruct (dkim (analyzePhishingRisk header body url));
    destruct (truthy url);
    destruct (includes url (lit "http:") && negb (includes url (lit "https:")));
    destruct (jsLength url >? 50);
    destruct (includes url (lit "@") || matchesSomewhere ipPattern url); lia.
Qed.

End Scoring.

Section Verdicts.
Context {host : Host}.

(** X13.  The score of [analyzePhishingRisk] lies between 10 and 99,
    so the page never shows 100/100; there are at most six threat
    indicators; the list of indicators is empty exactly when the score
    is the base score 10, and then the verdict is "Safe" and both SPF
    and DKIM passed. *)
Theorem score_and_indicators (header body url : JsString) :
  let r := analyzePhishingRisk header body url in
  10 <= score r <= 99
  /\ (length (factors r) <= 6)%nat
  /\ (factors r = [] <-> score r = 10)
  /\ (factors r = [] ->
      verdict r = lit "Safe" /\ spf r = true /\ dkim r = true).
Proof.
  intros r. subst r.
  assert (Hlen : factors (analyzePhishingRisk header body url) = []
                 <-> length (factors (analyzePhishingRisk header body url)) = 0%nat).
  { split; [intros ->; reflexivity|apply length_zero_iff_nil]. }
  rewrite Hlen, verdict_by_score, score_sum, factors_count.
  pose proof (Zle_0_nat (length (foundKeywords body))) as Hn.
  destruct (spf (analyzePhishingRisk header body url));
    destruct (dkim (analyzePhishingRisk header body url));
    destruct (truthy url);
    destruct (includes url (lit "http:") && negb (includes url (lit "https:")));
    destruct (jsLength url >? 50);
    destruct (includes url (lit "@") || matchesSomewhere ipPattern url);
    destruct (Z.gtb_spec (Z.of_nat (length (foundKeywords body))) 0) as [Hp|Hp];
    (split; [lia|]); (split; [cbn; lia|]);
    (split; [split; intros H; try discriminate H; try reflexivity; lia|]);
    intros H; try discriminate H;
    replace (Z.of_nat (length (foundKeywords body))) with 0 by lia;
    repeat split; reflexivity.
Qed.

(** X14.  DMARC is reported but not scored: two headers on which the
    SPF and the DKIM test agree give the same score, verdict and threat
    indicators, whatever they say about DMARC. *)
Theorem dmarc_is_not_scored (header1 header2 body url : JsString) :
  spf (analyzePhishingRisk header1 body url)
  = spf (analyzePhishingRisk header2 body url) ->
  dkim (analyzePhishingRisk header1 body url)
  = dkim (analyzePhishingRisk header2 body url) ->
  score (analyzePhishingRisk header1 body url)
  = score (analyzePhishingRisk header2 body url)
  /\ verdict (analyzePhishingRisk header1 body url)
     = verdict (analyzePhishingRisk header2 body url)
  /\ factors (analyzePhishingRisk header1 body url)
     = factors (analyzePhishingRisk header2 body url).
Proof.
  unfold analyzePhishingRisk. cbn [spf dkim score verdict factors].
  intros -> ->. repeat split; reflexivity.
Qed.

(** X15.  A message whose header shows neither [spf=pass] nor
    [dkim=pass], in particular one analysed without any header, is
    never "Safe": its score is at least 45 and it has at least two
    threat indicators, whatever the body and the URL are. *)
Theorem unauthenticated_never_safe (header body url : JsString) :
  spf (analyzePhishingRisk header body url) = false ->
  dkim (analyzePhishingRisk header body url) = false ->
  45 <= score (analyzePhishingRisk header body url)
  /\ verdict (analyzePhishingRisk header body url) <> lit "Safe"
  /\ (2 <= length (factors (analyzePhishingRisk header body url)))%nat.
Proof.
  intros Hs Hd.
  assert (H45 : 45 <= score (analyzePhishingRisk header body url)).
  { rewrite score_sum, Hs, Hd.
    pose proof (Zle_0_nat (length (foundKeywords body))).
    destruct (truthy url);
      destruct (includes url (lit "http:") && negb (includes url (lit "https:")));
      destruct (jsLength url >? 50);
      destruct (includes url (lit "@") || matchesSomewhere ipPattern url); lia. }
  split; [exact H45|]. split.
  - rewrite verdict_by_score.
    destruct (Z.gtb_spec (score (analyzePhishingRisk header body url)) 75);
      [intros E; symmetry in E; now apply labels_differ in E|].
    destruct (Z.gtb_spec (score (analyzePhishingRisk header body url)) 40);
      [intros E; symmetry in E; now apply labels_differ in E|lia].
  - rewrite factors_count, Hs, Hd. lia.
Qed.

(** X16.  Each urgent keyword counts once, however often it occurs: at
    most six are found, the score is at least 10 plus 15 for each (up
    to the cap), five keywords make any message "High Risk", six give
    the top score 99, and a "Safe" message has at most two. *)
Theorem keywords_weigh (header body url : JsString) :
  let r := analyzePhishingRisk header body url in
  let n := Z.of_nat (length (foundKeywords body)) in
  0 <= n <= 6
  /\ Z.min (10 + 15 * n) 99 <= score r
  /\ (5 <= n -> verdict r = lit "High Risk")
  /\ (n = 6 -> score r = 99)
  /\ (verdict r = lit "Safe" -> n <= 2).
Proof.
  intros r n. subst r n.
  pose proof (foundKeywords_length body) as H6.
  pose proof (Zle_0_nat (length (foundKeywords body))) as H0.
  rewrite verdict_by_score, score_sum.
  destruct (spf (analyzePhishingRisk header body url));
    destruct (dkim (analyzePhishingRisk header body url));
    destruct (truthy url);
    destruct (includes url (lit "http:") && negb (includes url (lit "https:")));
    destruct (jsLength url >? 50);
    destruct (includes url (lit "@") || matchesSomewhere ipPattern url);
    (split; [lia|]); (split; [lia|]);
    (split; [intros H5;
             match goal with
             | |- (if ?a >? 75 then _ else _) = _ =>
                 destruct (Z.gtb_spec a 75); [reflexivity|lia]
             end|]);
    (split; [lia|]);
    match goal with
    | |- (if ?a >? 75 then _ else _) = _ -> _ =>
        destruct (Z.gtb_spec a 75);
        [intros E; symmetry in E; now apply labels_differ in E|];
        destruct (Z.gtb_spec a 40);
        [intros E; symmetry in E; now apply labels_differ in E|lia]
    end.
Qed.

End Verdicts.

Lemma unauthenticated_never_safe_no_header :
  45 <= score (@analyzePhishingRisk asciiHost [] (lit "hello") (lit "https://example.com"))
  /\ verdict (@analyzePhishingRisk asciiHost [] (lit "hello") (lit "https://example.com"))
     <> lit "Safe"
  /\ (2 <= length (factors (@analyzePhishingRisk asciiHost [] (lit "hello")
                              (lit "https://example.com"))))%nat.
Proof.
  apply (@unauthenticated_never_safe asciiHost [] (lit "hello") (lit "https://example.com"));
    vm_compute; reflexivity.
Defined.

Lemma dmarc_is_not_scored_sample :
  score (@analyzePhishingRisk asciiHost (lit "spf=pass; dkim=pass; dmarc=fail")
           (lit "hello") (lit "https://example.com"))
  = score (@analyzePhishingRisk asciiHost (lit "SPF=PASS; DKIM=PASS; DMARC=PASS")
             (lit "hello") (lit "https://example.com"))
  /\ verdict (@analyzePhishingRisk asciiHost (lit "spf=pass; dkim=pass; dmarc=fail")
                (lit "hello") (lit "https://example.com"))
     = verdict (@analyzePhishingRisk asciiHost (lit "SPF=PASS; DKIM=PASS; DMARC=PASS")
                  (lit "hello") (lit "https://example.com"))
  /\ factors (@analyzePhishingRisk asciiHost (lit "spf=pass; dkim=pass; dmarc=fail")
                (lit "hello") (lit "https://example.com"))
     = factors (@analyzePhishingRisk asciiHost (lit "SPF=PASS; DKIM=PASS; DMARC=PASS")
                  (lit "hello") (lit "https://example.com")).
Proof.
  apply (@dmarc_is_not_scored asciiHost (lit "spf=pass; dkim=pass; dmarc=fail")
           (lit "SPF=PASS; DKIM=PASS; DMARC=PASS") (lit "hello")
           (lit "https://example.com"));
    vm_compute; reflexivity.
Defined.

(** ** Verdict and colours *)

Lemma asciiHost_lowers : lowers_ascii asciiHost.
Proof. intros s _. reflexivity. Qed.

(** X17.  The verdict and the colour of the score card use different
    bounds ([> 40], [> 75] against [< 40], [< 75]), and they disagree
    exactly at the scores 40 and 75: at 40 the verdict is "Safe" on an
    amber card, at 75 it is "Suspicious" on a rose card; everywhere
    else "Safe" is emerald, "Suspicious" amber and "High Risk" rose.
    Both scores occur.  The badge of the URL scan always agrees with
    the verdict: "Clean" exactly for "Safe". *)
Theorem verdict_colour_mismatch (host : Host) :
  lowers_ascii host ->
  (forall header body url,
     let r := analyzePhishingRisk header body url in
     (verdict r = lit "Safe" /\ getRiskBg (score r) <> lit "bg-emerald-500"
      <-> score r = 40)
     /\ (verdict r = lit "Suspicious" /\ getRiskBg (score r) <> lit "bg-amber-500"
         <-> score r = 75)
     /\ (verdict r = lit "High Risk" -> getRiskBg (score r) = lit "bg-rose-500")
     /\ (urlBadge r = lit "Clean" <-> verdict r = lit "Safe"))
  /\ (exists header body url, score (analyzePhishingRisk header body url) = 40)
  /\ (exists header body url, score (analyzePhishingRisk header body url) = 75).
Proof.
  intros Hl.
  destruct labels_differ as (L1 & L2 & L3 & L4 & L5 & L6 & L7).
  split; [|split].
  - intros header body url r. subst r.
    rewrite verdict_by_score. unfold getRiskBg, urlBadge.
    generalize (score (analyzePhishingRisk header body url)). intros z.
    destruct (Z.gtb_spec z 75); destruct (Z.gtb_spec z 40);
      destruct (Z.ltb_spec z 40); destruct (Z.ltb_spec z 75); try lia;
      (split; [split; [intros [E1 E2]; try congruence; try lia
                      |intros E; try lia; split; congruence]|]);
      (split; [split; [intros [E1 E2]; try congruence; try lia
                      |intros E; try lia; split; congruence]|]);
      (split; [intros E; try reflexivity; congruence|]);
      (split; intros E; try reflexivity; congruence).
  - exists (lit "spf=pass dkim=pass"), [], (lit "http://a.b").
    unfold analyzePhishingRisk, foundKeywords.
    rewrite (Hl (lit "spf=pass dkim=pass") eq_refl), (Hl [] eq_refl).
    vm_compute. reflexivity.
  - exists [], [], (lit "http://a.b").
    unfold analyzePhishingRisk, foundKeywords.
    rewrite (Hl [] eq_refl).
    vm_compute. reflexivity.
Qed.

Lemma verdict_colour_mismatch_ascii :
  (forall header body url,
     let r := @analyzePhishingRisk asciiHost header body url in
     (verdict r = lit "Safe" /\ getRiskBg (score r) <> lit "bg-emerald-500"
      <-> score r = 40)
     /\ (verdict r = lit "Suspicious" /\ getRiskBg (score r) <> lit "bg-amber-500"
         <-> score r = 75)
     /\ (verdict r = lit "High Risk" -> getRiskBg (score r) = lit "bg-rose-500")
     /\ (urlBadge r = lit "Clean" <-> verdict r = lit "Safe"))
  /\ (exists header body url, score (@analyzePhishingRisk asciiHost header body url) = 40)
  /\ (exists header body url, score (@analyzePhishingRisk asciiHost header body url) = 75).
Proof. exact (@verdict_colour_mismatch asciiHost (fun s _ => eq_refl)). Defined.

(** ** The handler *)

Section Handler.
Context {host : Host}.

(** X18.  [handleAnalyze] does nothing when header, body and URL are
    all empty, and the button is then disabled; a click does nothing
    while an analysis is running.  Otherwise the handler always ends
    with the analysing flag cleared and a report on the page (its
    [catch] branch is never taken), with a score between 10 and 99;
    and at every point strictly inside the handler the results column
    shows the skeleton, not the previous report. *)
Theorem handleAnalyze_outcome (st : State) :
  (nothingEntered st = true ->
   handleAnalyze st = [] /\ buttonDisabled st = true /\ click st = [])
  /\ (isAnalyzing st = true -> click st = [])
  /\ (nothingEntered st = false ->
      let r := analyzePhishingRisk (header st) (body st) (url st) in
      let st' := run st (handleAnalyze st) in
      isAnalyzing st' = false
      /\ result st' = Some r
      /\ resultsColumn st' = ReportCard r
      /\ 10 <= score r <= 99
      /\ (header st', body st', url st') = (header st, body st, url st)
      /\ forall pre post, handleAnalyze st = (pre ++ post)%list ->
           pre <> [] -> post <> [] -> resultsColumn (run st pre) = Skeleton).
Proof.
  split; [|split].
  - intros H. unfold click, buttonDisabled, handleAnalyze. now rewrite H.
  - intros H. unfold click, buttonDisabled. rewrite H, orb_true_r. reflexivity.
  - intros H r st'. subst st' r. unfold handleAnalyze. rewrite H.
    split; [reflexivity|]. split; [reflexivity|]. split; [reflexivity|].
    split; [apply score_range|]. split; [reflexivity|].
    intros pre post E Hpre Hpost.
    destruct pre as [|e pre]; [now elim Hpre|].
    cbn in E. injection E as Ee E. subst e.
    do 4 (destruct pre as [|e pre];
          [reflexivity|cbn in E; injection E as Ee E; subst e]).
    destruct pre; [|discriminate E]. cbn in E. subst post. now elim Hpost.
Qed.

End Handler.

(** ** The URL checks *)

Lemma flag_keeps (cond : bool) (p : Z) (f g : JsString) (t : Tally) :
  In g (snd t) -> In g (snd (flag cond p f t)).
Proof.
  unfold flag. destruct cond; [|auto]. cbn. intros H. apply in_or_app. now left.
Qed.

Lemma flag_adds (p : Z) (f : JsString) (t : Tally) : In f (snd (flag true p f t)).
Proof. unfold flag. cbn. apply in_or_app. right. now left. Qed.

Lemma Matches_digits (x : JsString) :
  x <> [] -> forallb isDigit x = true -> Matches (oneOrMore digit) x.
Proof.
  destruct x as [|c x]; [intros H; now elim H|]. intros _ H.
  cbn in H. apply andb_true_iff in H as [Hc Hx].
  change (c :: x) with ([c] ++ x)%list. constructor; [now constructor|].
  induction x as [|d x IH]; [constructor|].
  cbn in Hx. apply andb_true_iff in Hx as [Hd Hx].
  change (d :: x) with ([d] ++ x)%list. constructor; [now constructor|now apply IH].
Qed.

(** X19.  A URL that contains an [@], or anywhere four non-empty runs
    of digits separated by dots (an IP address, but also a version
    number in a path), gets the 40-point indicator and is never
    "Safe": its score is at least 50. *)
Theorem url_with_address_never_safe (host : Host)
  (header body url before part after a b c d : JsString) :
  url = (before ++ part ++ after)%list ->
  part = lit "@"
  \/ (part = (a ++ lit "." ++ b ++ lit "." ++ c ++ lit "." ++ d)%list
      /\ forall x, In x [a; b; c; d] -> x <> [] /\ forallb isDigit x = true) ->
  let r := analyzePhishingRisk header body url in
  In (lit "URL contains IP address or obfuscated credentials") (factors r)
  /\ 50 <= score r
  /\ verdict r <> lit "Safe".
Proof.
  intros Hurl Hpart r. subst r.
  assert (Hc : includes url (lit "@") || matchesSomewhere ipPattern url = true).
  { apply orb_true_iff. destruct Hpart as [->|[-> Hd]].
    - left. apply JsStringsFacts.includes_spec. now exists before, after.
    - right. apply JsStringsFacts.matchesSomewhere_spec.
      exists before, (a ++ lit "." ++ b ++ lit "." ++ c ++ lit "." ++ d)%list, after.
      split; [exact Hurl|].
      assert (Hdot : Matches (chr ".") (lit ".")) by (now constructor).
      unfold ipPattern.
      repeat (constructor; [first [exact Hdot|apply Matches_digits; apply Hd; cbn; auto]|]).
      apply Matches_digits; apply Hd; cbn; auto. }
  assert (Ht : truthy url = true).
  { subst url. destruct Hpart as [->|[-> Hd]].
    - destruct before; reflexivity.
    - destruct (Hd a) as [Ha _]; [now left|].
      destruct before; [|reflexivity]. destruct a; [now elim Ha|reflexivity]. }
  assert (H50 : 50 <= score (analyzePhishingRisk header body url)).
  { rewrite score_sum, Ht, Hc.
    pose proof (Zle_0_nat (length (foundKeywords body))).
    destruct (spf (analyzePhishingRisk header body url));
      destruct (dkim (analyzePhishingRisk header body url));
      destruct (includes url (lit "http:") && negb (includes url (lit "https:")));
      destruct (jsLength url >? 50); lia. }
  split; [|split; [exact H50|]].
  - unfold analyzePhishingRisk. cbn [factors]. rewrite Ht, Hc.
    apply flag_keeps, flag_adds.
  - rewrite verdict_by_score.
    destruct (Z.gtb_spec (score (analyzePhishingRisk header body url)) 75);
      [intros E; symmetry in E; now apply labels_differ in E|].
    destruct (Z.gtb_spec (score (analyzePhishingRisk header body url)) 40);
      [intros E; symmetry in E; now apply labels_differ in E|lia].
Qed.

Lemma url_with_address_never_safe_version :
  let r := @analyzePhishingRisk asciiHost (lit "spf=pass dkim=pass") []
             (lit "https://example.com/v1.2.3.4/notes") in
  In (lit "URL contains IP address or obfuscated credentials") (factors r)
  /\ 50 <= score r
  /\ verdict r <> lit "Safe".
Proof.
  refine (@url_with_address_never_safe asciiHost (lit "spf=pass dkim=pass") []
            (lit "https://example.com/v1.2.3.4/notes")
            (lit "https://example.com/v") (lit "1.2.3.4") (lit "/notes")
            (lit "1") (lit "2") (lit "3") (lit "4") eq_refl _).
  right. split; [reflexivity|].
  intros x [<-|[<-|[<-|[<-|[]]]]]; (split; [discriminate|reflexivity]).
Defined.

End PhishyWishyFacts.

(* ================================================================== *)
(** * Part X.  Properties of the QR Shield page                        *)
(* ================================================================== *)

Module QRShieldFacts.
Import JsStrings QRShield.
Local Open Scope Z_scope.

Lemma predictions_differ : lit "malicious" <> lit "benign".
Proof. intros H. vm_compute in H. discriminate H. Qed.

Section Scoring.
Context {host : Host}.
Variable url : JsString.

(** The signals of the heuristic. *)
Let keyword : bool := has_keyword url.
Let address : bool := matchesWhole hostPattern (hostPiece url).
Let long : bool := jsLength url >? 70.
Let insecure : bool := negb (startsWith url (lit "https")).
Let hyphens : bool := countUnit (unit_of "-") url >? 3.

Lemma riskScore_sum :
  riskScore url
  = (if keyword then 40 else 0) + (if address then 30 else 0)
    + (if long then 20 else 0) + (if insecure then 10 else 0)
    + (if hyphens then 15 else 0).
Proof.
  unfold riskScore, keyword, address, long, insecure, hyphens, extractFeatures.
  cbn [has_ip is_https].
  destruct (has_keyword url); destruct (matchesWhole hostPattern (hostPiece url));
    destruct (jsLength url >? 70); destruct (startsWith url (lit "https"));
    destruct (countUnit (unit_of "-") url >? 3); reflexivity.
Qed.

(** X20.  The decision table of [analyzeUrlClientSide].  No signal
    marks a URL as malicious on its own, not even a suspicious keyword
    (40 is not above 40): the prediction is "malicious" exactly when a
    keyword comes with any other signal, or an IP host with a long URL
    or many hyphens, or a long insecure URL with many hyphens.  The
    probability lies between 0.01 and 0.99, and the red bar
    ([probability > 0.5]) implies the red card but not conversely: the
    card is red over a green bar exactly for the scores 45 and 50. *)
Theorem prediction_table :
  let a := analyzeUrlClientSide url in
  (prediction a = lit "malicious"
   <-> (keyword && (address || long || insecure || hyphens))
       || (address && (long || hyphens))
       || (long && insecure && hyphens) = true)
  /\ (prediction a <> lit "malicious" -> prediction a = lit "benign")
  /\ 1 <= probability_percent a <= 99
  /\ (barIsRed (mkResult true a) = true -> cardIsRed (mkResult true a) = true)
  /\ (cardIsRed (mkResult true a) = true /\ barIsRed (mkResult true a) = false
      <-> riskScore url = 45 \/ riskScore url = 50).
Proof.
  intros a. subst a. unfold analyzeUrlClientSide, barIsRed, cardIsRed.
  cbn [prediction probability_percent analysis].
  rewrite riskScore_sum.
  pose proof predictions_differ as Hd.
  destruct keyword; destruct address; destruct long; destruct insecure;
    destruct hyphens; cbn;
    (split; [split; [intros E; try reflexivity; congruence
                    |intros E; try reflexivity; discriminate E]|]);
    (split; [intros E; try reflexivity; now elim E|]);
    (split; [lia|]);
    (split; [intros E; try reflexivity; discriminate E|]);
    (split; [intros [E1 E2]; try discriminate E1; try discriminate E2; lia
            |intros [E|E]; try lia; split; reflexivity]).
Qed.

End Scoring.

(** ** The demo *)

Lemma analyze_on_ascii (host : Host) (url : JsString) :
  lowers_ascii host -> isAscii url = true ->
  @analyzeUrlClientSide host url = @analyzeUrlClientSide asciiHost url.
Proof.
  intros Hl Ha. unfold analyzeUrlClientSide, riskScore, has_keyword.
  rewrite (Hl url Ha). reflexivity.
Qed.

(** X21.  In demo mode every scan comes out "benign".  Whatever the
    random draw and the selected file, [handleAnalyze] sends no
    request, leaves no error, and puts on the page the analysis of one
    of the four built-in URLs with the prediction "benign", a card and
    a bar that are not red: the two URLs the source marks as malicious
    score exactly 40, which is not above 40. *)
Theorem demo_always_benign (host : Host) (st : State) (f : File) (draw : nat)
  (net : Promise BackendResponse) :
  lowers_ascii host -> file st = Some f -> (draw < length mockUrls)%nat ->
  let st' := run st (handleAnalyze st draw net) in
  requests (handleAnalyze st draw net) = []
  /\ analyzing st' = false
  /\ error st' = None
  /\ exists r, result st' = Some r
       /\ nth_error mockUrls draw = Some (url (analysis r))
       /\ prediction (analysis r) = lit "benign"
       /\ riskScore (url (analysis r)) <= 40
       /\ cardIsRed r = false
       /\ barIsRed r = false.
Proof.
  intros Hl Hf Hd st'. subst st'. unfold handleAnalyze. rewrite Hf.
  cbn [DEMO_MODE].
  assert (Hs : forall u, isAscii u = true -> @riskScore host u = @riskScore asciiHost u).
  { intros u Hu. unfold riskScore, has_keyword. now rewrite (Hl u Hu). }
  do 4 (destruct draw as [|draw];
        [cbn [mockUrls map nth_error];
         match goal with
         | |- context [@analyzeUrlClientSide host ?u] =>
             rewrite (@analyze_on_ascii host u Hl eq_refl)
         end;
         split; [reflexivity|]; split; [reflexivity|]; split; [reflexivity|];
         eexists; split; [reflexivity|];
         cbn [analysis url analyzeUrlClientSide];
         split; [reflexivity|];
         split; [vm_compute; reflexivity|];
         split; [rewrite Hs by reflexivity; vm_compute; discriminate|];
         split; vm_compute; reflexivity|]).
  cbn in Hd. lia.
Qed.

Lemma demo_always_benign_sample :
  let st := mkState (Some (mkFile (lit "qr.png") (lit "image/png") 2048)) None false None None in
  let st' := run st (@handleAnalyze asciiHost st 2 (Rejects [])) in
  requests (@handleAnalyze asciiHost st 2 (Rejects [])) = []
  /\ analyzing st' = false
  /\ error st' = None
  /\ exists r, result st' = Some r
       /\ nth_error mockUrls 2 = Some (url (analysis r))
       /\ prediction (analysis r) = lit "benign"
       /\ @riskScore asciiHost (url (analysis r)) <= 40
       /\ cardIsRed r = false
       /\ barIsRed r = false.
Proof.
  refine (@demo_always_benign asciiHost
            (mkState (Some (mkFile (lit "qr.png") (lit "image/png") 2048)) None false None None)
            (mkFile (lit "qr.png") (lit "image/png") 2048) 2 (Rejects [])
            (fun s _ => eq_refl) eq_refl _).
  vm_compute. lia.
Defined.

(** ** Choosing and removing a file *)

(** X22.  The size limit and the type filter.  [handleFileSelect]
    refuses a file of more than 5 * 1024 * 1024 bytes with an error and
    leaves the file, preview and result of the page as they were; a
    file of exactly that size or less is accepted whatever its type,
    and the result and the error are cleared.  The type is checked only
    on a drop: a dropped file whose type does not start with [image/]
    is ignored without an error, a dropped image is handled as a
    selected one. *)
Theorem size_limit_and_type_filter (st : State) (f : File) (read : option JsString) :
  (5242880 < file_size f ->
   handleFileSelect (Some f) read = [SetError (Some (lit "File size too large. Max 5MB."))]
   /\ (file (run st (handleFileSelect (Some f) read)),
       preview (run st (handleFileSelect (Some f) read)),
       result (run st (handleFileSelect (Some f) read)))
      = (file st, preview st, result st))
  /\ (file_size f <= 5242880 ->
      run st (handleFileSelect (Some f) read)
      = mkState (Some f) read (analyzing st) None None)
  /\ (startsWith (file_type f) (lit "image/") = false ->
      run st (handleDrop (Some f) read) = st)
  /\ (startsWith (file_type f) (lit "image/") = true ->
      run st (handleDrop (Some f) read) = run st (handleFileSelect (Some f) read)).
Proof.
  unfold handleDrop, handleFileSelect.
  change (5 * 1024 * 1024) with 5242880.
  repeat split.
  - destruct (Z.gtb_spec (file_size f) 5242880); [reflexivity|lia].
  - destruct (Z.gtb_spec (file_size f) 5242880); [reflexivity|lia].
  - intros H. destruct (Z.gtb_spec (file_size f) 5242880); [lia|reflexivity].
  - intros ->. now destruct st.
  - intros ->. reflexivity.
Qed.

Section Removal.
Context {host : Host}.

(** X23.  Removing the file during a scan does not cancel the scan.
    The Remove button is not disabled while analysing; its [reset]
    clears the state (and never the file input, which is not mounted
    while a file is selected), and when the scan then completes its
    result is put on the page although no file is selected any more. *)
Theorem removal_does_not_cancel (st : State) (f : File) (draw : nat)
  (net : Promise BackendResponse) :
  file st = Some f -> (draw < length mockUrls)%nat ->
  let started := [SetAnalyzing true; SetError None; Wait 1500] in
  let waiting := run st started in
  exists settled,
    handleAnalyze st draw net = (started ++ settled)%list
    /\ clickRemove waiting = [SetFile None; SetPreview None; SetResult None; SetError None]
    /\ clickAnalyze waiting draw net = []
    /\ let final := run (run waiting (clickRemove waiting)) settled in
       file final = None
       /\ preview final = None
       /\ analyzing final = false
       /\ result final = result (run st (handleAnalyze st draw net))
       /\ result final <> None.
Proof.
  intros Hf Hd started waiting. subst started waiting.
  unfold handleAnalyze. rewrite Hf. cbn [DEMO_MODE].
  destruct (nth_error mockUrls draw) as [u|] eqn:Hu;
    [|apply nth_error_None in Hu; lia].
  eexists. split; [reflexivity|].
  unfold clickRemove, clickAnalyze, reset, inputMounted. cbn. rewrite Hf. cbn.
  repeat split. discriminate.
Qed.

End Removal.

Lemma removal_does_not_cancel_sample :
  let st := mkState (Some (mkFile (lit "qr.png") (lit "image/png") 2048)) None false None None in
  let started := [SetAnalyzing true; SetError None; Wait 1500] in
  let waiting := run st started in
  exists settled,
    @handleAnalyze asciiHost st 1 (Rejects []) = (started ++ settled)%list
    /\ clickRemove waiting = [SetFile None; SetPreview None; SetResult None; SetError None]
    /\ @clickAnalyze asciiHost waiting 1 (Rejects []) = []
    /\ let final := run (run waiting (clickRemove waiting)) settled in
       file final = None
       /\ preview final = None
       /\ analyzing final = false
       /\ result final = result (run st (@handleAnalyze asciiHost st 1 (Rejects [])))
       /\ result final <> None.
Proof.
  refine (@removal_does_not_cancel asciiHost
            (mkState (Some (mkFile (lit "qr.png") (lit "image/png") 2048)) None false None None)
            (mkFile (lit "qr.png") (lit "image/png") 2048) 1 (Rejects []) eq_refl _).
  vm_compute. lia.
Defined.

(** ** The features *)

Lemma countUnit_nil (c : N) : countUnit c [] = 0.
Proof. reflexivity. Qed.

Lemma countUnit_cons (c d : N) (s : JsString) :
  countUnit c (d :: s) = (if N.eqb c d then 1 else 0) + countUnit c s.
Proof. unfold countUnit. cbn. destruct (N.eqb c d); cbn [length]; lia. Qed.

Lemma countUnit_app (c : N) (s t : JsString) :
  countUnit c (s ++ t) = countUnit c s + countUnit c t.
Proof. unfold countUnit. rewrite filter_app, length_app. lia. Qed.

Lemma countUnit_nonneg (c : N) (s : JsString) : 0 <= countUnit c s.
Proof. unfold countUnit. lia. Qed.

Lemma jsLength_app (s t : JsString) : jsLength (s ++ t) = jsLength s + jsLength t.
Proof. unfold jsLength. rewrite length_app. lia. Qed.

(** Two different code units are counted on different positions. *)
Lemma countUnit_two (c d : N) (s : JsString) :
  c <> d -> countUnit c s + countUnit d s <= jsLength s.
Proof.
  intros Hcd. induction s as [|e s IH]; [cbn; lia|].
  rewrite !countUnit_cons. unfold jsLength in *. cbn [length].
  destruct (N.eqb_spec c e); destruct (N.eqb_spec d e); first [lia|congruence].
Qed.

Lemma split_not_nil (sep : N) (s : JsString) : split sep s <> [].
Proof.
  destruct s as [|c s]; cbn; [discriminate|].
  destruct (N.eqb c sep); [discriminate|]. destruct (split sep s); discriminate.
Qed.

(** Joining the pieces with the separator gives the string back. *)
Lemma join_split (sep : N) (s : JsString) : join [sep] (split sep s) = s.
Proof.
  induction s as [|c s IH]; [reflexivity|].
  cbn [split]. destruct (N.eqb_spec c sep) as [->|Hc].
  - pose proof (split_not_nil sep s) as Hn.
    cbn [join]. destruct (split sep s) as [|p ps]; [now elim Hn|].
    cbn [app]. now rewrite IH.
  - pose proof (split_not_nil sep s) as Hn.
    destruct (split sep s) as [|p ps]; [now elim Hn|].
    cbn [join] in *. destruct ps; cbn [app] in *; now rewrite IH.
Qed.

Lemma join_head (sep : N) (p : JsString) (ps : list JsString) :
  exists rest, join [sep] (p :: ps) = (p ++ rest)%list.
Proof.
  cbn [join]. destruct ps.
  - exists []. now rewrite app_nil_r.
  - now eexists.
Qed.

(** The third piece, when it is not empty, sits behind two separators. *)
Lemma third_piece (sep : N) (s h : JsString) :
  nth 2 (split sep s) [] = h -> h <> [] ->
  exists p0 p1 rest, s = (p0 ++ [sep] ++ p1 ++ [sep] ++ h ++ rest)%list.
Proof.
  intros Hn Hh. pose proof (join_split sep s) as Hj.
  destruct (split sep s) as [|p0 [|p1 [|p2 ps]]]; cbn in Hn;
    try (subst h; now elim Hh).
  subst p2. destruct (join_head sep h ps) as [rest Hr].
  exists p0, p1, rest. rewrite <- Hj.
  change (join [sep] (p0 :: p1 :: h :: ps))
    with (p0 ++ [sep] ++ p1 ++ [sep] ++ join [sep] (h :: ps))%list.
  now rewrite Hr.
Qed.

Lemma digits_have_no_dot (x : JsString) :
  forallb isDigit x = true -> countUnit (unit_of ".") x = 0.
Proof.
  induction x as [|c x IH]; [reflexivity|]. cbn [forallb].
  intros H. apply andb_true_iff in H as [Hc Hx].
  rewrite countUnit_cons, (IH Hx).
  destruct (N.eqb_spec (unit_of ".") c) as [<-|]; [discriminate Hc|reflexivity].
Qed.

Lemma oneToThree_digits (x : JsString) :
  Matches (oneToThree digit) x ->
  forallb isDigit x = true /\ 1 <= jsLength x <= 3.
Proof.
  unfold oneToThree, digit. intros H.
  apply JsStringsFacts.Matches_Seq in H as (s1 & s2 & -> & H1 & H2).
  apply JsStringsFacts.Matches_Class in H1 as (c1 & -> & Hc1).
  apply JsStringsFacts.Matches_Or in H2 as [H2|H2].
  - apply JsStringsFacts.Matches_Empty in H2 as ->. cbn. rewrite Hc1. split; [reflexivity|lia].
  - apply JsStringsFacts.Matches_Seq in H2 as (s3 & s4 & -> & H3 & H4).
    apply JsStringsFacts.Matches_Class in H3 as (c2 & -> & Hc2).
    apply JsStringsFacts.Matches_Or in H4 as [H4|H4].
    + apply JsStringsFacts.Matches_Empty in H4 as ->. cbn. rewrite Hc1, Hc2.
      split; [reflexivity|lia].
    + apply JsStringsFacts.Matches_Class in H4 as (c3 & -> & Hc3). cbn.
      rewrite Hc1, Hc2, Hc3. split; [reflexivity|lia].
Qed.

Lemma dot_group (x : JsString) :
  Matches (Seq (chr ".") (oneToThree digit)) x ->
  countUnit (unit_of ".") x = 1 /\ 2 <= jsLength x <= 4.
Proof.
  intros H. apply JsStringsFacts.Matches_Seq in H as (s1 & s2 & -> & H1 & H2).
  apply JsStringsFacts.Matches_Class in H1 as (c & -> & Hc).
  apply N.eqb_eq in Hc. subst c.
  apply oneToThree_digits in H2 as [Hd Hl].
  rewrite countUnit_app, jsLength_app, (digits_have_no_dot _ Hd).
  split; [reflexivity|]. change (jsLength [unit_of "."]) with 1. lia.
Qed.

Lemma hostPattern_shape (h : JsString) :
  Matches hostPattern h -> countUnit (unit_of ".") h = 3 /\ 7 <= jsLength h <= 15.
Proof.
  unfold hostPattern, thrice. intros H.
  apply JsStringsFacts.Matches_Seq in H as (x0 & t & -> & H0 & H).
  apply JsStringsFacts.Matches_Seq in H as (x1 & t' & -> & H1 & H).
  apply JsStringsFacts.Matches_Seq in H as (x2 & x3 & -> & H2 & H3).
  apply oneToThree_digits in H0 as [Hd0 Hl0].
  apply dot_group in H1 as [Hc1 Hl1].
  apply dot_group in H2 as [Hc2 Hl2].
  apply dot_group in H3 as [Hc3 Hl3].
  rewrite !countUnit_app, !jsLength_app, (digits_have_no_dot _ Hd0). lia.
Qed.

(** X24.  The features agree with each other.  The dots and the slashes
    are counted on different positions, so together they never exceed
    the length; [is_https] and [has_ip] are 0 or 1; an [https] URL has
    at least five code units; and a URL with [has_ip = 1] has at least
    two slashes, at least three dots and at least nine code units,
    because its host is the third [/]-separated piece and consists of
    four groups of one to three digits. *)
Theorem features_agree (url : JsString) :
  let ft := extractFeatures url in
  0 <= num_dots ft
  /\ 0 <= num_slashes ft
  /\ num_dots ft + num_slashes ft <= url_length ft
  /\ (is_https ft = 0 \/ is_https ft = 1)
  /\ (has_ip ft = 0 \/ has_ip ft = 1)
  /\ (is_https ft = 1 -> 5 <= url_length ft)
  /\ (has_ip ft = 1 ->
      2 <= num_slashes ft /\ 3 <= num_dots ft /\ 9 <= url_length ft
      /\ exists before host after,
           url = (before ++ lit "/" ++ host ++ after)%list
           /\ Matches hostPattern host).
Proof.
  intros ft. subst ft. unfold extractFeatures.
  cbn [num_dots num_slashes url_length is_https has_ip].
  split; [apply countUnit_nonneg|]. split; [apply countUnit_nonneg|].
  split; [apply countUnit_two; discriminate|].
  split; [destruct (startsWith url (lit "https")); auto|].
  split; [destruct (matchesWhole hostPattern (hostPiece url)); auto|].
  split.
  - destruct (startsWith url (lit "https")) eqn:Hs; [|discriminate].
    intros _. apply JsStringsFacts.startsWith_spec in Hs as [rest ->].
    rewrite jsLength_app. change (jsLength (lit "https")) with 5.
    unfold jsLength. lia.
  - destruct (matchesWhole hostPattern (hostPiece url)) eqn:Hm; [|discriminate].
    intros _. apply JsStringsFacts.matchesWhole_spec in Hm.
    pose proof (hostPattern_shape Hm) as [Hdots Hlen].
    assert (Hne : hostPiece url <> []).
    { intros E. rewrite E in Hlen. cbn in Hlen. lia. }
    destruct (@third_piece (unit_of "/") url (hostPiece url) eq_refl Hne)
      as (p0 & p1 & rest & E).
    pose proof (countUnit_nonneg (unit_of "/") p0).
    pose proof (countUnit_nonneg (unit_of "/") p1).
    pose proof (countUnit_nonneg (unit_of "/") (hostPiece url)).
    pose proof (countUnit_nonneg (unit_of "/") rest).
    pose proof (countUnit_nonneg (unit_of ".") p0).
    pose proof (countUnit_nonneg (unit_of ".") p1).
    pose proof (countUnit_nonneg (unit_of ".") rest).
    assert (0 <= jsLength p0 /\ 0 <= jsLength p1 /\ 0 <= jsLength rest)
      by (unfold jsLength; lia).
    split; [|split; [|split]].
    + rewrite E at 1. rewrite !countUnit_app.
      change (countUnit (unit_of "/") [unit_of "/"]) with 1. lia.
    + rewrite E at 1. rewrite !countUnit_app.
      change (countUnit (unit_of ".") [unit_of "/"]) with 0. lia.
    + rewrite E at 1. rewrite !jsLength_app.
      change (jsLength [unit_of "/"]) with 1. lia.
    + exists (p0 ++ [unit_of "/"] ++ p1)%list, (hostPiece url), rest.
      split; [|exact Hm]. rewrite E at 1.
      change (lit "/") with [unit_of "/"]. now rewrite <- !app_assoc.
Qed.

End QRShieldFacts.

(* ================================================================== *)
(** * Part XI.  Properties of the sidebar                              *)
(* ================================================================== *)

Module SidebarFacts.
Import JsStrings SidebarNav.

(** X25.  The sidebar highlights a link only on an exact match of the
    path: at most one of the four items is active, one is active
    exactly when the path is one of the four [href]s, and on a path
    below a tool's page (its [href] followed by [/] and anything) no
    item is active.  A click on a link closes the drawer when the link
    is in the drawer and changes nothing otherwise, and the menu button
    pressed twice leaves the drawer as it was. *)
Theorem one_active_link (pathname : JsString) (open : bool) :
  (length (filter (active pathname) navItems) <= 1)%nat
  /\ (length (filter (active pathname) navItems) = 1%nat
      <-> In pathname (map href navItems))
  /\ (forall item rest, In item navItems ->
        filter (active (href item ++ lit "/" ++ rest)%list) navItems = [])
  /\ (forall item mobile, In (item, mobile) (links open) ->
        run open (linkClicked mobile) = (if mobile then false else open)
        /\ (mobile = true -> open = true))
  /\ run (run open (menuClicked open)) (menuClicked (run open (menuClicked open))) = open.
Proof.
  split; [|split; [|split; [|split]]].
  - unfold navItems, active. cbn [filter href].
    destruct (strictEquals pathname (lit "/")) eqn:E1;
      destruct (strictEquals pathname (lit "/qr_shield")) eqn:E2;
      destruct (strictEquals pathname (lit "/pixel_vault")) eqn:E3;
      destruct (strictEquals pathname (lit "/phishy_wishy")) eqn:E4;
      cbn [length]; try lia;
      repeat match goal with
             | H : strictEquals _ _ = true |- _ =>
                 apply JsStringsFacts.strictEquals_spec in H
             end; subst; discriminate.
  - split.
    + intros H. destruct (filter (active pathname) navItems) as [|x xs] eqn:E;
        [discriminate H|].
      assert (Hx : In x (filter (active pathname) navItems))
        by (rewrite E; now left).
      apply filter_In in Hx as [Hx Ha].
      apply JsStringsFacts.strictEquals_spec in Ha. rewrite Ha.
      now apply in_map.
    + unfold navItems. cbn [map href In].
      intros [<-|[<-|[<-|[<-|[]]]]]; reflexivity.
  - intros item rest Hin. unfold navItems in *. cbn [In] in Hin.
    destruct Hin as [<-|[<-|[<-|[<-|[]]]]]; reflexivity.
  - intros item mobile Hin. unfold links in Hin.
    apply in_app_or in Hin as [Hin|Hin].
    + apply in_map_iff in Hin as (x & E & _). injection E as _ <-.
      split; [reflexivity|discriminate].
    + destruct open; [|now elim Hin].
      apply in_map_iff in Hin as (x & E & _). injection E as _ <-.
      split; reflexivity.
  - now destruct open.
Qed.

End SidebarFacts.
